(** * 3-AD: the controller-side scene mirror and the renderer's transform reader

    A shallow embedding of [lib/index.ts] (class [Graphics]) and of
    [lib/backend.three.ts] (class [GraphicsBackend]), and the properties of
    the identity allocator, the command queue, the texture cache, the
    back-channel dispatch and the shared transform buffer. *)

From Stdlib Require Import ZArith.
From Stdlib Require Import Floats.SpecFloat.
From stdpp Require Import gmap strings list fin_maps pretty.

Set Warnings "-register-all,-clear-no-such-hyp".

(** ** JavaScript numbers

    A JavaScript number is an IEEE 754 binary64 value; an element of a
    [Float32Array] is a binary32 value.  Both live in [spec_float]; storing
    into a [Float32Array] rounds to nearest-even at precision 24. *)

Definition number := spec_float.

Definition zero : number := S754_zero false.
Definition one : number := S754_finite false 4503599627370496 (-52).
Definition NaN : number := S754_nan.

(** The double nearest to 0.1, that is 0x3FB999999999999A. *)
Definition one_tenth : number := S754_finite false 7205759403792794 (-56).

(** [Math.fround]: the conversion applied by a store into a [Float32Array]. *)
Definition fround (x : number) : number :=
  match x with
  | S754_finite s m e => binary_round 24 128 s m e
  | _ => x
  end.

(** A value read out of an array: a number, or [undefined] past the end. *)
Inductive value :=
| Num (n : number)
| Undefined.

(** [ToNumber] of such a value. *)
Definition to_number (v : value) : number :=
  match v with
  | Num n => n
  | Undefined => NaN
  end.

(** [v === 0]: [undefined] and [NaN] are not equal to zero, both zeros are. *)
Definition strict_eq_zero (v : value) : bool :=
  match v with
  | Num n => SFeqb n zero
  | Undefined => false
  end.

(** ** three.js [Matrix4]

    Of the three.js class only the [elements] array matters here.  three.js
    keeps it in column-major order: [Matrix4.set] takes its sixteen arguments
    row by row and stores [te[0] = n11; te[4] = n12; te[8] = n13; ...]. *)

Record Matrix4 := { elements : list value }.

Definition elementsPerTransform : nat := 16.

(** [m.elements[i]] *)
Definition element (m : Matrix4) (i : nat) : value :=
  default Undefined (elements m !! i).

(** [Matrix4.set(n11, n12, ..., n44)] *)
Definition Matrix4_set
    (n11 n12 n13 n14 n21 n22 n23 n24 n31 n32 n33 n34 n41 n42 n43 n44 : number)
    : Matrix4 :=
  {| elements := Num <$> [ n11; n21; n31; n41;  n12; n22; n32; n42;
                           n13; n23; n33; n43;  n14; n24; n34; n44 ] |}.

(** The entry in row [r] and column [c] (both counted from 0). *)
Definition entry (m : Matrix4) (r c : nat) : value := element m (4 * c + r).

Definition identity : Matrix4 :=
  Matrix4_set one zero zero zero  zero one zero zero
              zero zero one zero  zero zero zero one.

(** [Matrix4.makeScale(x, y, z)] *)
Definition makeScale (x y z : number) : Matrix4 :=
  Matrix4_set x zero zero zero  zero y zero zero
              zero zero z zero  zero zero zero one.

(** [Matrix4.makeTranslation(x, y, z)] *)
Definition makeTranslation (x y z : number) : Matrix4 :=
  Matrix4_set one zero zero x  zero one zero y
              zero zero one z  zero zero zero one.

(** ** Typed arrays

    [Float32Array]: a fixed-length list; a read past the end is [undefined],
    a store past the end is discarded (stdpp's list insert does the same). *)

Abbreviation Float32Array := (list number).

(** Reading an element widens it to a double, which is exact. *)
Definition to_double (x : number) : number :=
  match x with
  | S754_finite s m e => binary_round 53 1024 s m e
  | _ => x
  end.

Definition typed_get (a : Float32Array) (i : nat) : value :=
  match a !! i with
  | Some n => Num (to_double n)
  | None => Undefined
  end.

Definition typed_set (a : Float32Array) (i : nat) (v : value) : Float32Array :=
  <[ i := fround (to_number v) ]> a.

(** [new Matrix4().fromArray(array, offset)] *)
Definition fromArray (a : Float32Array) (offset : nat) : Matrix4 :=
  {| elements := (fun i => typed_get a (offset + i)) <$> seq 0 elementsPerTransform |}.

(** ** The object graph of the controller

    Objects and textures are JavaScript objects: they are named by a
    reference, and their mutable fields live in the state below. *)

Definition objref := nat.
Definition texref := nat.

Record Texture := { tex_ref : texref; uuid : string }.

(** A material: its [map], its [alphaMap], and the other texture slots that
    are set ([bumpMap], [normalMap], [displacementMap], [roughnessMap],
    [metalnessMap], [emissiveMap], [specularMap], [envMap], [lightMap],
    [aoMap]), in that order. *)
Record Material := {
  mat_map : option Texture;
  mat_alphaMap : option Texture;
  mat_otherMaps : list Texture;
}.

(** The [material] property of a node: absent (lights, cameras, groups), one
    material, or an array of materials. *)
Inductive material_field :=
| NoMaterial
| OneMaterial (m : Material)
| ManyMaterials (ms : list Material).

Inductive kind := Mesh | Points | Sprite | Light | Camera | Group.

Inductive Object3D :=
| Node (ref : objref) (k : kind) (material : material_field) (children : list Object3D).

Definition ref_of (o : Object3D) : objref := let 'Node r _ _ _ := o in r.
Definition kind_of (o : Object3D) : kind := let 'Node _ k _ _ := o in k.
Definition material_of (o : Object3D) : material_field := let 'Node _ _ m _ := o in m.

(** [object.traverse(callback)] visits the object, then its children's
    subtrees in order; this is the list of visited nodes. *)
Fixpoint traverse (o : Object3D) : list Object3D :=
  match o with
  | Node _ _ _ children => o :: flat_map traverse children
  end.

(** The pixels of a texture's [image]. *)
Record Image := { width : nat; height : nat; data : list N }.

(** ** Commands (lib/commands.ts) *)

Inductive command :=
| init (canvas : string)
| resize (width height : nat) (pixelRatio : number)
| addObject (data : Object3D) (id : nat) (ui : bool)
| removeObject (id : nat)
| updateMaterial_cmd (material : Material) (id : option nat)
| uploadTexture_cmd (imageId : string) (imageDataBuffer : list N)
                    (imageWidth imageHeight : nat) (ui : bool)
| createParticleSystem (emitter_id : option nat).

(** ** Logging hooks

    [log] and [report] are the controller's injected functions, [workerLog]
    and [workerReport] the ones injected for the renderer's messages. *)

Inductive hook := log | report | workerLog | workerReport.

(** The two hooks for errors. *)
Definition error_hook (h : hook) : Prop := h = report ∨ h = workerReport.

(** ** The state of a [Graphics] instance and of what it acts on *)

Record Graphics := {
  (* private fields of the class; identities are natural numbers, which
     JavaScript's numbers represent exactly far beyond any reachable count *)
  idToObject : gmap nat objref;
  availableObjectIds : list nat;
  objectId : nat;
  textureCache : gset string;
  commandQueue : list command;
  array : Float32Array;
  camera : objref;
  (* the worker: every message posted to it, oldest first *)
  worker : list command;
  (* every call of a logging hook, oldest first *)
  console : list (hook * string);
  (* mutable fields of the three.js objects *)
  meshId : gmap objref nat;          (* object.userData.meshId *)
  image : gmap texref Image;         (* texture.image *)
  matrixWorld : gmap objref Matrix4; (* object.matrixWorld *)
}.

Definition maxEntityCount : nat := 1024.
Definition bytesPerElement : nat := 4.
Definition bufferSize : nat := bytesPerElement * elementsPerTransform * maxEntityCount.

Global Arguments maxEntityCount : simpl never.
Global Arguments bufferSize : simpl never.

Definition set_idToObject (f : gmap nat objref → gmap nat objref) (g : Graphics) :=
  {| idToObject := f (idToObject g); availableObjectIds := availableObjectIds g;
     objectId := objectId g; textureCache := textureCache g;
     commandQueue := commandQueue g; array := array g; camera := camera g;
     worker := worker g; console := console g; meshId := meshId g;
     image := image g; matrixWorld := matrixWorld g |}.

Definition set_availableObjectIds (f : list nat → list nat) (g : Graphics) :=
  {| idToObject := idToObject g; availableObjectIds := f (availableObjectIds g);
     objectId := objectId g; textureCache := textureCache g;
     commandQueue := commandQueue g; array := array g; camera := camera g;
     worker := worker g; console := console g; meshId := meshId g;
     image := image g; matrixWorld := matrixWorld g |}.

Definition set_objectId (f : nat → nat) (g : Graphics) :=
  {| idToObject := idToObject g; availableObjectIds := availableObjectIds g;
     objectId := f (objectId g); textureCache := textureCache g;
     commandQueue := commandQueue g; array := array g; camera := camera g;
     worker := worker g; console := console g; meshId := meshId g;
     image := image g; matrixWorld := matrixWorld g |}.

Definition set_textureCache (f : gset string → gset string) (g : Graphics) :=
  {| idToObject := idToObject g; availableObjectIds := availableObjectIds g;
     objectId := objectId g; textureCache := f (textureCache g);
     commandQueue := commandQueue g; array := array g; camera := camera g;
     worker := worker g; console := console g; meshId := meshId g;
     image := image g; matrixWorld := matrixWorld g |}.

Definition set_commandQueue (f : list command → list command) (g : Graphics) :=
  {| idToObject := idToObject g; availableObjectIds := availableObjectIds g;
     objectId := objectId g; textureCache := textureCache g;
     commandQueue := f (commandQueue g); array := array g; camera := camera g;
     worker := worker g; console := console g; meshId := meshId g;
     image := image g; matrixWorld := matrixWorld g |}.

Definition set_array (f : Float32Array → Float32Array) (g : Graphics) :=
  {| idToObject := idToObject g; availableObjectIds := availableObjectIds g;
     objectId := objectId g; textureCache := textureCache g;
     commandQueue := commandQueue g; array := f (array g); camera := camera g;
     worker := worker g; console := console g; meshId := meshId g;
     image := image g; matrixWorld := matrixWorld g |}.

Definition set_worker (f : list command → list command) (g : Graphics) :=
  {| idToObject := idToObject g; availableObjectIds := availableObjectIds g;
     objectId := objectId g; textureCache := textureCache g;
     commandQueue := commandQueue g; array := array g; camera := camera g;
     worker := f (worker g); console := console g; meshId := meshId g;
     image := image g; matrixWorld := matrixWorld g |}.

Definition set_console (f : list (hook * string) → list (hook * string)) (g : Graphics) :=
  {| idToObject := idToObject g; availableObjectIds := availableObjectIds g;
     objectId := objectId g; textureCache := textureCache g;
     commandQueue := commandQueue g; array := array g; camera := camera g;
     worker := worker g; console := f (console g); meshId := meshId g;
     image := image g; matrixWorld := matrixWorld g |}.

Definition set_meshId (f : gmap objref nat → gmap objref nat) (g : Graphics) :=
  {| idToObject := idToObject g; availableObjectIds := availableObjectIds g;
     objectId := objectId g; textureCache := textureCache g;
     commandQueue := commandQueue g; array := array g; camera := camera g;
     worker := worker g; console := console g; meshId := f (meshId g);
     image := image g; matrixWorld := matrixWorld g |}.

Definition set_image (f : gmap texref Image → gmap texref Image) (g : Graphics) :=
  {| idToObject := idToObject g; availableObjectIds := availableObjectIds g;
     objectId := objectId g; textureCache := textureCache g;
     commandQueue := commandQueue g; array := array g; camera := camera g;
     worker := worker g; console := console g; meshId := meshId g;
     image := f (image g); matrixWorld := matrixWorld g |}.

(** [import.meta.url], which the constructor logs; its value plays no role. *)
Definition module_url : string := "lib/index.ts".

(** [new Graphics(...)]: empty tables, a zero-filled buffer of [bufferSize]
    bytes viewed as 32-bit floats, a fresh camera object, and one call of
    [log].  ([cam] names the camera; [world] and [images] are the matrices
    and images of the objects and textures around.) *)
Definition new_Graphics (cam : objref) (world : gmap objref Matrix4)
    (images : gmap texref Image) : Graphics :=
  {| idToObject := ∅; availableObjectIds := []; objectId := 0;
     textureCache := ∅; commandQueue := [];
     array := replicate (bufferSize / bytesPerElement) zero;
     camera := cam; worker := []; console := [(log, module_url)];
     meshId := ∅; image := images; matrixWorld := world |}.

(** ** Command channel *)

(** [submitCommand(cmd, immediate)] *)
Definition submitCommand (cmd : command) (immediate : bool) (g : Graphics) : Graphics :=
  if immediate then set_worker (fun w => w ++ [cmd]) g
  else set_commandQueue (fun q => q ++ [cmd]) g.

(** [flushCommands()]: the loop posts the queued commands one by one. *)
Definition postMessage (g : Graphics) (cmd : command) : Graphics :=
  set_worker (fun w => w ++ [cmd]) g.

Definition flushCommands (g : Graphics) : Graphics :=
  set_commandQueue (fun _ => []) (foldl postMessage g (commandQueue g)).

(** ** Identity allocator *)

Definition call (h : hook) (msg : string) (g : Graphics) : Graphics :=
  set_console (fun c => c ++ [(h, msg)]) g.

Definition capacity_message : string :=
  "exceeded maximum object count: " +:+ pretty maxEntityCount.

(** [assignIdToObject(object)] *)
Definition assignIdToObject (object : objref) (g : Graphics) : nat * Graphics :=
  let id := objectId g in
  let '(id, g) :=
    match availableObjectIds g with
    | recycled :: rest => (recycled, set_availableObjectIds (fun _ => rest) g)
    | [] =>
        let g := set_objectId (fun n => n + 1) g in
        (id, if maxEntityCount <? objectId g then call report capacity_message g else g)
    end in
  (id, set_meshId (insert object id) (set_idToObject (insert id object) g)).

(** The two statements under [// recycle ID]: the release of an identity. *)
Definition recycle (id : nat) (g : Graphics) : Graphics :=
  set_availableObjectIds (fun l => l ++ [id]) (set_idToObject (delete id) g).

(** [if (node.userData.meshId)]: [undefined] and [0] are falsy. *)
Definition held (g : Graphics) (node : Object3D) : option nat :=
  match meshId g !! ref_of node with
  | Some (S n) => Some (S n)
  | _ => None
  end.

(** The callback of [removeObjectFromScene]. *)
Definition removeNode (g : Graphics) (node : Object3D) : Graphics :=
  match held g node with
  | Some id => recycle id (submitCommand (removeObject id) false g)
  | None => g
  end.

(** [removeObjectFromScene(object)] *)
Definition removeObjectFromScene (object : Object3D) (g : Graphics) : Graphics :=
  foldl removeNode g (traverse object).

(** ** Exceptions

    [uploadTexture] destructures [map.image]: when the texture has no image
    this raises a [TypeError], which leaves the method it was called from.
    Whatever was done before the exception stays done. *)

Inductive result (A : Type) :=
| Ok (a : A)
| Throw (e : string).
Arguments Ok {A} a.
Arguments Throw {A} e.

Definition M (A : Type) : Type := Graphics → result A * Graphics.

#[global] Instance M_ret : MRet M := fun A a g => (Ok a, g).
#[global] Instance M_bind : MBind M := fun A B k c g =>
  match c g with
  | (Ok a, g') => k a g'
  | (Throw e, g') => (Throw e, g')
  end.

Definition throw {A} (e : string) : M A := fun g => (Throw e, g).
Definition lift (f : Graphics → Graphics) : M unit := fun g => (Ok tt, f g).
Definition gets {A} (f : Graphics → A) : M A := fun g => (Ok (f g), g).
Definition run {A} (f : Graphics → A * Graphics) : M A :=
  fun g => let '(a, g') := f g in (Ok a, g').

(** A [for ... of] loop, or a [traverse], whose body may throw. *)
Fixpoint for_each {A} (body : A → M unit) (l : list A) : M unit :=
  match l with
  | [] => mret tt
  | x :: rest => body x ;; for_each body rest
  end.

(** The state an operation leaves behind, returned or thrown. *)
Definition exec {A} (c : M A) (g : Graphics) : Graphics := snd (c g).

(** ** Texture upload *)

(** [uploadTexture(map, ui)].  Drawing the image on a scratch canvas and
    reading it back yields the image's pixels. *)
Definition uploadTexture (map : Texture) (ui : bool) : M unit := fun g =>
  if decide (uuid map ∈ textureCache g) then (Ok tt, g)
  else match image g !! tex_ref map with
       | None => (Throw "TypeError", g)
       | Some img =>
           let g := set_textureCache (fun c => c ∪ {[ uuid map ]}) g in
           (Ok tt, submitCommand
                     (uploadTexture_cmd (uuid map) (data img) (width img) (height img) ui)
                     false g)
       end.

Definition when_set (t : option Texture) (f : Texture → M unit) : M unit :=
  match t with
  | Some t => f t
  | None => mret tt
  end.

(** [extractMaterialTextures(material, ui)] *)
Definition extractMaterialTextures (material : Material) (ui : bool) : M unit :=
  when_set (mat_map material) (fun t => uploadTexture t ui) ;;
  when_set (mat_alphaMap material) (fun t => uploadTexture t ui).

(** [delete texture.image] *)
Definition delete_image (t : Texture) : M unit :=
  lift (set_image (delete (tex_ref t))).

(** The thirteen [if (material.x) delete material.x.image] lines.  The one
    for [matcap] tests the misspelt [material.mapcap] and never fires. *)
Definition deleteImages (material : Material) : M unit :=
  when_set (mat_map material) delete_image ;;
  when_set (mat_alphaMap material) delete_image ;;
  for_each delete_image (mat_otherMaps material).

Definition renderable (k : kind) : bool :=
  match k with
  | Mesh | Points | Sprite | Light => true
  | _ => false
  end.

(** The callback of [addObjectToScene]. *)
Definition addNode (ui : bool) (node : Object3D) : M unit :=
  if renderable (kind_of node) then
    id ← run (assignIdToObject (ref_of node));
    match material_of node with
    | NoMaterial => mret tt
    | OneMaterial m => extractMaterialTextures m ui ;; deleteImages m
    | ManyMaterials ms =>
        for_each (fun m => extractMaterialTextures m ui ;; deleteImages m) ms
    end ;;
    lift (submitCommand (addObject node id ui) false)
  else mret tt.

(** [addObjectToScene(object, ui)].  Attaching the object to the scene graph
    only matters for the world matrices, which are taken as given. *)
Definition addObjectToScene (object : Object3D) (ui : bool) : M unit :=
  for_each (addNode ui) (traverse object).

(** The callback of [updateMaterial].  When [node.material] is missing, the
    destructuring throws; when it is an array, its [map] is the array method,
    which has no image, and [uploadTexture] throws. *)
Definition updateNode (ui : bool) (node : Object3D) : M unit :=
  match kind_of node with
  | Mesh | Sprite =>
      match material_of node with
      | OneMaterial m =>
          extractMaterialTextures m ui ;;
          id ← gets (fun g => meshId g !! ref_of node);
          lift (submitCommand (updateMaterial_cmd m id) false)
      | _ => throw "TypeError"
      end
  | _ => mret tt
  end.

(** [updateMaterial(object, ui)] *)
Definition updateMaterial (object : Object3D) (ui : bool) : M unit :=
  for_each (updateNode ui) (traverse object).

(** [createParticleEmitter(texturePath)]: [emitter] is the new [Points]
    object, [texture] the texture the loader returns and [img] its image.
    The new sphere geometry has no colour attribute yet, which is logged. *)
Definition createParticleEmitter (emitter : objref) (texture : Texture) (img : Image)
    : M unit :=
  let material := {| mat_map := Some texture; mat_alphaMap := Some texture;
                     mat_otherMaps := [] |} in
  lift (call log "creating [color attribute]") ;;
  lift (set_image (insert (tex_ref texture) img)) ;;
  addObjectToScene (Node emitter Points (OneMaterial material) []) false ;;
  id ← gets (fun g => meshId g !! emitter);
  lift (submitCommand (createParticleSystem id) false).

(** ** Transform buffer, writer side *)

Definition world_of (g : Graphics) (object : objref) : Matrix4 :=
  default identity (matrixWorld g !! object).

(** The inner loop: the sixteen stores of one record. *)
Definition writeRecord (g : Graphics) (a : Float32Array) (e : nat * objref) : Float32Array :=
  let offset := e.1 * elementsPerTransform in
  foldl (fun a i => typed_set a (offset + i) (element (world_of g e.2) i))
        a (seq 0 elementsPerTransform).

(** [writeTransformsToArray()], after [scene.updateMatrixWorld()] has brought
    [matrixWorld] up to date.  The loop runs over the entries of the table;
    no two of them write the same index, so the order of the visit does not
    show in the result. *)
Definition writeTransformsToArray (g : Graphics) : Graphics :=
  set_array (fun a => foldl (writeRecord g) a (map_to_list (idToObject g))) g.

(** [update()] *)
Definition update (g : Graphics) : Graphics :=
  writeTransformsToArray (flushCommands g).

(** [init(canvasID)], with the window's size and pixel ratio. *)
Definition Graphics_init (canvasID : string) (innerWidth innerHeight : nat)
    (devicePixelRatio : number) (g : Graphics) : Graphics :=
  let g := snd (assignIdToObject (camera g) g) in
  let g := submitCommand (init canvasID) true g in
  submitCommand (resize innerWidth innerHeight devicePixelRatio) false g.

(** ** Back-channel (renderer to controller) *)

Record message := { msg_type : string; msg_message : string }.

(** [worker.onmessage] in lib/index.ts *)
Definition onmessage (m : message) (g : Graphics) : Graphics :=
  if decide (msg_type m = "log") then call workerLog (msg_message m) g
  else if decide (msg_type m = "report") then call workerReport (msg_message m) g
  else call report ("Unknown message type " +:+ msg_type m) g.

(** [worker.onmessage] in the earlier copy of the class kept in
    lib/commands.ts, which has no case for ['report']. *)
Definition onmessage_variant (m : message) (g : Graphics) : Graphics :=
  if decide (msg_type m = "log") then call workerLog (msg_message m) g
  else call report ("Unknown message type " +:+ msg_type m) g.

(** ** Transform buffer, reader side (lib/backend.three.ts) *)

Record Renderable := { matrix : Matrix4 }.

(** The body of the loop of [readTransformsFromArray]. *)
Definition readRecord (transformArray : Float32Array) (id : nat) (object : Renderable)
    : Renderable :=
  let offset := id * elementsPerTransform in
  let m := fromArray transformArray offset in
  let m := if strict_eq_zero (element m 0)
           then makeScale one_tenth one_tenth one_tenth else m in
  {| matrix := m |}.

(** [readTransformsFromArray(transformArray)] over the renderer's table. *)
Definition readTransformsFromArray (transformArray : Float32Array)
    (table : gmap nat Renderable) : gmap nat Renderable :=
  map_imap (fun id object => Some (readRecord transformArray id object)) table.

(** ** Histories

    A run of the allocator: [allocate] is a call of [assignIdToObject],
    [release] a call of [removeObjectFromScene].  Next to the state goes the
    set of live objects: those allocated and not released since. *)

Inductive op :=
| allocate (object : objref)
| release (object : Object3D).

(** The identities a removal releases, and the objects it releases them from. *)
Definition released_ids (g : Graphics) (object : Object3D) : list nat :=
  omap (held g) (traverse object).

Definition released (g : Graphics) (object : Object3D) : list objref :=
  ref_of <$> filter (fun node => is_Some (held g node)) (traverse object).

Definition step (s : Graphics * gset objref) (o : op) : Graphics * gset objref :=
  match o with
  | allocate x => ((assignIdToObject x s.1).2, s.2 ∪ {[ x ]})
  | release t => (removeObjectFromScene t s.1, s.2 ∖ list_to_set (released s.1 t))
  end.

(** A release is admissible when every identity it releases belongs to a
    live object, and to one object only: each outstanding allocation is
    released at most once. *)
Definition admissible (s : Graphics * gset objref) (o : op) : Prop :=
  match o with
  | allocate _ => True
  | release t => NoDup (released s.1 t) ∧ ∀ x, x ∈ released s.1 t → x ∈ s.2
  end.

Fixpoint admissible_trace (s : Graphics * gset objref) (ops : list op) : Prop :=
  match ops with
  | [] => True
  | o :: rest => admissible s o ∧ admissible_trace (step s o) rest
  end.

(** The allocator's invariant. *)
Record allocator_ok (s : Graphics * gset objref) : Prop := {
  assigned_below : ∀ id x, idToObject s.1 !! id = Some x → id < objectId s.1;
  free_below : ∀ id, id ∈ availableObjectIds s.1 → id < objectId s.1;
  free_NoDup : NoDup (availableObjectIds s.1);
  free_unassigned : ∀ id, id ∈ availableObjectIds s.1 → idToObject s.1 !! id = None;
  below_used : ∀ id, id < objectId s.1 →
               id ∈ availableObjectIds s.1 ∨ is_Some (idToObject s.1 !! id);
  live_assigned : ∀ x, x ∈ s.2 →
                  ∃ id, meshId s.1 !! x = Some id ∧ idToObject s.1 !! id = Some x;
}.

(** ** The public interface, as a history of calls

    Everything that can happen to a [Graphics] instance during its lifetime:
    calls of its public methods, the window's resize event, a message from
    the worker, and the surrounding program changing images and matrices. *)

Inductive event :=
| Init (canvasID : string) (innerWidth innerHeight : nat) (devicePixelRatio : number)
| WindowResize (innerWidth innerHeight : nat) (devicePixelRatio : number)
| Update
| FlushCommands
| UpdateMaterial (object : Object3D) (ui : bool)
| RemoveObjectFromScene (object : Object3D)
| AddObjectToScene (object : Object3D) (ui : bool)
| CreateParticleEmitter (emitter : objref) (texture : Texture) (img : Image)
| OnMessage (m : message)
| Outside (images : gmap texref Image) (world : gmap objref Matrix4).

Definition outside (images : gmap texref Image) (world : gmap objref Matrix4)
    (g : Graphics) : Graphics :=
  {| idToObject := idToObject g; availableObjectIds := availableObjectIds g;
     objectId := objectId g; textureCache := textureCache g;
     commandQueue := commandQueue g; array := array g; camera := camera g;
     worker := worker g; console := console g; meshId := meshId g;
     image := images; matrixWorld := world |}.

Definition perform (g : Graphics) (e : event) : Graphics :=
  match e with
  | Init c w h r => Graphics_init c w h r g
  | WindowResize w h r => submitCommand (resize w h r) false g
  | Update => update g
  | FlushCommands => flushCommands g
  | UpdateMaterial o ui => exec (updateMaterial o ui) g
  | RemoveObjectFromScene o => removeObjectFromScene o g
  | AddObjectToScene o ui => exec (addObjectToScene o ui) g
  | CreateParticleEmitter e t img => exec (createParticleEmitter e t img) g
  | OnMessage m => onmessage m g
  | Outside images world => outside images world g
  end.

(** Does a command upload the texture [T]? *)
Definition carries (T : string) (cmd : command) : bool :=
  match cmd with
  | uploadTexture_cmd imageId _ _ _ _ => bool_decide (imageId = T)
  | _ => false
  end.

(** Every command submitted so far: those posted, then those still queued. *)
Definition emitted (g : Graphics) : list command := worker g ++ commandQueue g.

Definition uploads (T : string) (g : Graphics) : nat :=
  length (filter (fun cmd => carries T cmd = true) (emitted g)).

(** ** Records of the transform buffer *)

(** The indices of the record of identity [id]. *)
Definition record_indices (id : nat) : list nat :=
  seq (id * elementsPerTransform) elementsPerTransform.

(** Is every element of the record of [id] equal to zero? *)
Definition all_zero (a : Float32Array) (id : nat) : bool :=
  forallb (fun i => strict_eq_zero (typed_get a i)) (record_indices id).

(** ** Reasoning about operations that may throw *)

(** [c] keeps [P]: whether it returns or throws, the state it leaves
    satisfies [P] if the state it started from did. *)
Definition preserves {A} (P : Graphics → Prop) (c : M A) : Prop :=
  ∀ g, P g → P (c g).2.

(** The part of the state the allocator owns. *)
Definition allocator_view (g : Graphics) :=
  (idToObject g, availableObjectIds g, objectId g, meshId g).

(** ** A small scene

    The camera (object 100) registered by [init] and six meshes (objects 1
    to 6) registered one after the other, then one tick. *)

Definition plain : Material :=
  {| mat_map := None; mat_alphaMap := None; mat_otherMaps := [] |}.

Definition mesh (r : objref) : Object3D := Node r Mesh (OneMaterial plain) [].

Definition example_scene : Graphics :=
  foldl perform (new_Graphics 100 ∅ ∅)
    [Init "main-canvas" 800 600 one;
     AddObjectToScene (mesh 1) false; AddObjectToScene (mesh 2) false;
     AddObjectToScene (mesh 3) false; AddObjectToScene (mesh 4) false;
     AddObjectToScene (mesh 5) false; AddObjectToScene (mesh 6) false;
     Update].

(** ** A textured scene

    One texture with a two-pixel image; a mesh whose material has it as
    [map]; the mesh is registered, then its material is updated. *)

Definition brick : Texture := {| tex_ref := 1; uuid := "brick" |}.

Definition brick_image : Image :=
  {| width := 2; height := 1; data := [255; 0; 0; 255; 0; 255; 0; 255]%N |}.

Definition brick_wall : Object3D :=
  Node 1 Mesh
    (OneMaterial {| mat_map := Some brick; mat_alphaMap := None; mat_otherMaps := [] |})
    [].

Definition before_textures : Graphics :=
  Graphics_init "main-canvas" 800 600 one (new_Graphics 100 ∅ {[ 1 := brick_image ]}).

Definition textured_history : list event :=
  [Init "main-canvas" 800 600 one;
   AddObjectToScene brick_wall false; Update; UpdateMaterial brick_wall false].

Definition textured_scene : Graphics :=
  foldl perform (new_Graphics 100 ∅ {[ 1 := brick_image ]}) textured_history.

(** As many allocations as there are records in the transform buffer. *)
Definition full_house : list op := allocate <$> seq 0 maxEntityCount.

(** ** Two scenes with a transformed mesh

    In the first, mesh 1 is moved by 5 along the x axis; in the second it is
    flattened along the x axis (its x scale is 0). *)

Definition five : number := S754_finite false 5629499534213120 (-50).

Definition shifted_scene : Graphics :=
  foldl perform (new_Graphics 100 ∅ ∅)
    [Init "main-canvas" 800 600 one; AddObjectToScene (mesh 1) false;
     Outside ∅ {[ 1 := makeTranslation five zero zero ]}].

Definition flattened_scene : Graphics :=
  foldl perform (new_Graphics 100 ∅ ∅)
    [Init "main-canvas" 800 600 one; AddObjectToScene (mesh 1) false;
     Outside ∅ {[ 1 := makeScale zero one one ]}; Update].

(** The renderer's table once it has processed the commands of those
    scenes: the camera at 0 and the mesh at 1. *)
Definition renderer_table : gmap nat Renderable :=
  {[ 0 := {| matrix := identity |}; 1 := {| matrix := identity |} ]}.

(** A scene whose mesh 1 is registered when the counter stands at 1024. *)
Definition crowded_scene : Graphics :=
  let g := (foldl step (new_Graphics 0 ∅ ∅, ∅) full_house).1 in
  outside ∅ {[ 5000 := makeTranslation five zero zero ]}
    (exec (addObjectToScene (mesh 5000) false) g).

(** The cache and the commands agree: a texture identifier was uploaded
    once if it is in the cache, and never otherwise. *)
Definition uploaded_once (g : Graphics) : Prop :=
  ∀ T, uploads T g = if decide (T ∈ textureCache g) then 1 else 0.

(** ** Kinds of commands *)

Definition is_upload (c : command) : bool :=
  match c with
  | uploadTexture_cmd _ _ _ _ _ => true
  | _ => false
  end.

Definition is_addObject (c : command) : bool :=
  match c with
  | addObject _ _ _ => true
  | _ => false
  end.

(** ** Registering several nodes *)

(** The identities the next [n] allocations return: the free list from its
    head, then the counter's values. *)
Definition allocations (n : nat) (g : Graphics) : list nat :=
  take n (availableObjectIds g ++ seq (objectId g) n).

(** The nodes of an object that [addObjectToScene] registers. *)
Definition registered_nodes (object : Object3D) : list Object3D :=
  filter (fun node => renderable (kind_of node) = true) (traverse object).

(** ** lib/utils.ts

    [makeBall], [makeCylinder] and [makeCapsule] build meshes with a plain
    Phong material; the objects they create are named by the caller here.
    A capsule is a cylinder mesh with two sphere meshes as children. *)

Definition makeBall (ball : objref) : Object3D := Node ball Mesh (OneMaterial plain) [].

Definition makeCylinder (cylinder : objref) : Object3D :=
  Node cylinder Mesh (OneMaterial plain) [].

Definition makeCapsule (cMesh stMesh sbMesh : objref) : Object3D :=
  Node cMesh Mesh (OneMaterial plain)
    [Node stMesh Mesh (OneMaterial plain) []; Node sbMesh Mesh (OneMaterial plain) []].

(** ** The renderer (lib/backend.three.ts)

    Of the state of a [GraphicsBackend] the identity table and the texture
    cache are followed here. *)

Record DataTexture := {
  tx_data : list N; tx_width : nat; tx_height : nat; tx_ui : bool;
}.

Record GraphicsBackend := {
  backend_idToObject : gmap nat Renderable;
  backend_textureCache : gmap string DataTexture;
}.

Definition new_GraphicsBackend : GraphicsBackend :=
  {| backend_idToObject := ∅; backend_textureCache := ∅ |}.

(** [init]: the renderer's own camera, whose matrix is still the identity,
    is entered at identity 0. *)
Definition backend_init (b : GraphicsBackend) : GraphicsBackend :=
  {| backend_idToObject := <[ 0 := {| matrix := identity |} ]> (backend_idToObject b);
     backend_textureCache := backend_textureCache b |}.

(** [addObject]: [parse] stands for the object loader. *)
Definition backend_addObject (parse : Object3D → Renderable)
    (id : nat) (data : Object3D) (b : GraphicsBackend) : GraphicsBackend :=
  {| backend_idToObject := <[ id := parse data ]> (backend_idToObject b);
     backend_textureCache := backend_textureCache b |}.

(** [removeObject] *)
Definition backend_removeObject (id : nat) (b : GraphicsBackend) : GraphicsBackend :=
  {| backend_idToObject := delete id (backend_idToObject b);
     backend_textureCache := backend_textureCache b |}.

(** [uploadTexture] *)
Definition backend_uploadTexture (imageId : string) (imageDataBuffer : list N)
    (imageWidth imageHeight : nat) (ui : bool) (b : GraphicsBackend) : GraphicsBackend :=
  {| backend_idToObject := backend_idToObject b;
     backend_textureCache :=
       <[ imageId := {| tx_data := imageDataBuffer; tx_width := imageWidth;
                        tx_height := imageHeight; tx_ui := ui |} ]>
         (backend_textureCache b) |}.

(** Modelled from the spec: the worker's message handler (lib/worker.ts),
    which hands each command it receives, in arrival order, to the method of
    the renderer named by the command's tag.  [resize], [updateMaterial] and
    [createParticleSystem] touch neither the table nor the texture cache. *)
Definition receive (parse : Object3D → Renderable) (b : GraphicsBackend)
    (cmd : command) : GraphicsBackend :=
  match cmd with
  | init _ => backend_init b
  | addObject data id ui => backend_addObject parse id data b
  | removeObject id => backend_removeObject id b
  | uploadTexture_cmd imageId buffer w h ui => backend_uploadTexture imageId buffer w h ui b
  | resize _ _ _ | updateMaterial_cmd _ _ | createParticleSystem _ => b
  end.

(** The renderer once it has received every command submitted so far. *)
Definition renderer_after (parse : Object3D → Renderable) (g : Graphics)
    : GraphicsBackend :=
  foldl (receive parse) new_GraphicsBackend (emitted g).

(** A history in which [init] is not called again and no registration is
    cut short by an exception. *)
Definition registers_cleanly (g : Graphics) (e : event) : Prop :=
  match e with
  | Init _ _ _ _ => False
  | AddObjectToScene o ui => (addObjectToScene o ui g).1 = Ok tt
  | CreateParticleEmitter x t img => (createParticleEmitter x t img g).1 = Ok tt
  | _ => True
  end.

Fixpoint clean_history (g : Graphics) (events : list event) : Prop :=
  match events with
  | [] => True
  | e :: rest => registers_cleanly g e ∧ clean_history (perform g e) rest
  end.

(** ** Frames of the operations, and the renderer's view *)

(** [g'] differs from [g] at most by commands appended to the queue, all of
    them texture uploads, and in the texture cache and the images. *)
Definition only_uploads (g g' : Graphics) : Prop :=
  allocator_view g' = allocator_view g ∧
  worker g' = worker g ∧ array g' = array g ∧ console g' = console g ∧
  matrixWorld g' = matrixWorld g ∧ camera g' = camera g ∧
  ∃ cmds, commandQueue g' = commandQueue g ++ cmds ∧
          Forall (fun c => is_upload c = true) cmds.

(** The images left when those of the textures [ts] are deleted. *)
Definition without_images (ts : list Texture) (images : gmap texref Image)
    : gmap texref Image :=
  foldl (fun im t => delete (tex_ref t) im) images ts.

(** All the texture slots of a material that are set. *)
Definition textures_of (m : Material) : list Texture :=
  option_list (mat_map m) ++ option_list (mat_alphaMap m) ++ mat_otherMaps m.

(** What the renderer reads back for a value the controller stored: the
    value rounded to 32 bits. *)
Definition as_read (v : value) : value := Num (to_double (fround (to_number v))).

(** The matrix whose elements are the elements of [m] as read back. *)
Definition Matrix4_as_read (m : Matrix4) : Matrix4 :=
  {| elements := (fun i => as_read (element m i)) <$> seq 0 elementsPerTransform |}.

Definition is_updateMaterial (c : command) : bool :=
  match c with
  | updateMaterial_cmd _ _ => true
  | _ => false
  end.

(** [g'] differs from [g] by texture uploads and [updateMaterial] commands
    appended to the queue, and by the texture cache, only. *)
Definition only_material_commands (g g' : Graphics) : Prop :=
  allocator_view g' = allocator_view g ∧
  worker g' = worker g ∧ array g' = array g ∧ console g' = console g ∧
  image g' = image g ∧ matrixWorld g' = matrixWorld g ∧ camera g' = camera g ∧
  ∃ cmds, commandQueue g' = commandQueue g ++ cmds ∧
          Forall (fun c => is_upload c || is_updateMaterial c = true) cmds.

(** The identities of the renderer's table once it has received every
    command submitted so far. *)
Definition renderer_ids (parse : Object3D → Renderable) (g : Graphics) : gset nat :=
  dom (backend_idToObject (renderer_after parse g)).

(** What a command does to the set of identities the renderer knows. *)
Definition ids_after (s : gset nat) (c : command) : gset nat :=
  match c with
  | init _ => {[ 0 ]} ∪ s
  | addObject _ id _ => {[ id ]} ∪ s
  | removeObject id => s ∖ {[ id ]}
  | _ => s
  end.

(** The renderer knows the controller's identities, but for those of [s]. *)
Definition mirrored_but (parse : Object3D → Renderable) (s : gset nat)
    (g : Graphics) : Prop :=
  s ∪ renderer_ids parse g = dom (idToObject g).

(** ** The textures a path extracts *)

(** The materials of a node, as [addObjectToScene] lists them. *)
Definition materials_of (node : Object3D) : list Material :=
  match material_of node with
  | NoMaterial => []
  | OneMaterial m => [m]
  | ManyMaterials ms => ms
  end.

(** The slots [extractMaterialTextures] reads: [map], then [alphaMap]. *)
Definition extracted_slots (m : Material) : list Texture :=
  option_list (mat_map m) ++ option_list (mat_alphaMap m).

(** The nodes whose material [updateMaterial] extracts. *)
Definition mesh_or_sprite (k : kind) : bool :=
  match k with
  | Mesh | Sprite => true
  | _ => false
  end.

(** The [uploadTexture] command for a texture and the image it has. *)
Definition upload_of (t : Texture) (img : Image) (ui : bool) : command :=
  uploadTexture_cmd (uuid t) (data img) (width img) (height img) ui.

(** The texture [T] is in the cache and [cmd] is in the queue. *)
Definition cached_and_queued (T : string) (cmd : command) (g : Graphics) : Prop :=
  T ∈ textureCache g ∧ cmd ∈ commandQueue g.

(** Since [g0], [T] got one more [uploadTexture] command if it entered the
    cache, and none otherwise; the cache has not shrunk. *)
Definition uploads_follow_cache (T : string) (g0 g : Graphics) : Prop :=
  textureCache g0 ⊆ textureCache g ∧
  uploads T g =
    uploads T g0 + (if decide (T ∈ textureCache g ∧ T ∉ textureCache g0) then 1 else 0).

(** * Properties *)

(** Two states with the same fields are the same state. *)
Lemma Graphics_eq g g' :
  idToObject g = idToObject g' → availableObjectIds g = availableObjectIds g' →
  objectId g = objectId g' → textureCache g = textureCache g' →
  commandQueue g = commandQueue g' → array g = array g' → camera g = camera g' →
  worker g = worker g' → console g = console g' → meshId g = meshId g' →
  image g = image g' → matrixWorld g = matrixWorld g' → g = g'.
Proof. destruct g, g'. simpl. by intros -> -> -> -> -> -> -> -> -> -> -> ->. Qed.

(** ** The allocator *)

Lemma assignIdToObject_recycled x g r rest :
  availableObjectIds g = r :: rest →
  assignIdToObject x g =
    (r, set_meshId (insert x r)
          (set_idToObject (insert r x) (set_availableObjectIds (fun _ => rest) g))).
Proof. intros E. unfold assignIdToObject. by rewrite E. Qed.

Lemma assignIdToObject_fresh x g :
  availableObjectIds g = [] →
  assignIdToObject x g =
    (objectId g,
     set_meshId (insert x (objectId g))
       (set_idToObject (insert (objectId g) x)
          (if maxEntityCount <? objectId g + 1
           then call report capacity_message (set_objectId (fun n => n + 1) g)
           else set_objectId (fun n => n + 1) g))).
Proof. intros E. unfold assignIdToObject. by rewrite E. Qed.

Lemma held_Some g node id :
  held g node = Some id ↔ meshId g !! ref_of node = Some id ∧ id ≠ 0.
Proof.
  unfold held. destruct (meshId g !! ref_of node) as [[|n]|]; split;
    first [ by intros [= <-] | by intros [[= <-] ?] | done ].
Qed.

Lemma held_meshId g g' node :
  meshId g' = meshId g → held g' node = held g node.
Proof. unfold held. by intros ->. Qed.

Lemma removeNode_meshId g node : meshId (removeNode g node) = meshId g.
Proof. unfold removeNode. by destruct (held g node). Qed.

Lemma foldl_removeNode_meshId l g : meshId (foldl removeNode g l) = meshId g.
Proof.
  revert g. induction l as [|n l IH]; intros g; [done|].
  simpl. by rewrite IH, removeNode_meshId.
Qed.

(** What a removal does, all at once: one command and one release for each
    identity held in the subtree, in traversal order. *)
Lemma foldl_removeNode_ids l g0 g :
  meshId g = meshId g0 →
  foldl removeNode g l =
    foldl (fun g id => recycle id (submitCommand (removeObject id) false g))
          g (omap (held g0) l).
Proof.
  revert g. induction l as [|n l IH]; intros g E; [done|].
  simpl. rewrite IH by (by rewrite removeNode_meshId).
  unfold removeNode. rewrite (held_meshId g0 g) by done.
  by destruct (held g0 n).
Qed.

Lemma foldl_recycle ids g :
  foldl (fun g id => recycle id (submitCommand (removeObject id) false g)) g ids =
    set_availableObjectIds (fun free => free ++ ids)
      (set_idToObject (fun t => foldl (fun t id => delete id t) t ids)
         (set_commandQueue (fun q => q ++ (removeObject <$> ids)) g)).
Proof.
  revert g. induction ids as [|id ids IH]; intros g.
  - apply Graphics_eq; simpl; by rewrite ?app_nil_r.
  - simpl foldl. rewrite IH.
    apply Graphics_eq; simpl; try done; by rewrite <- app_assoc.
Qed.

Lemma removeObjectFromScene_eq object g :
  removeObjectFromScene object g =
    set_availableObjectIds (fun free => free ++ released_ids g object)
      (set_idToObject (fun t => foldl (fun t id => delete id t) t (released_ids g object))
         (set_commandQueue (fun q => q ++ (removeObject <$> released_ids g object)) g)).
Proof.
  unfold removeObjectFromScene, released_ids.
  by rewrite (foldl_removeNode_ids _ g), foldl_recycle.
Qed.

(** *** The invariant holds initially and is kept by every admissible step *)

Lemma allocator_ok_new cam world images :
  allocator_ok (new_Graphics cam world images, ∅).
Proof.
  split; simpl; intros *.
  - by rewrite lookup_empty.
  - by intros ?%elem_of_nil.
  - constructor.
  - by intros ?%elem_of_nil.
  - lia.
  - set_solver.
Qed.

Lemma allocator_ok_allocate g live x :
  allocator_ok (g, live) →
  allocator_ok ((assignIdToObject x g).2, live ∪ {[ x ]}).
Proof.
  intros [Hlt Hfree Hnd Hun Hused Hlive]; simpl in *.
  destruct (availableObjectIds g) as [|r rest] eqn:E.
  - rewrite assignIdToObject_fresh by done.
    assert (Hnone : idToObject g !! objectId g = None).
    { destruct (idToObject g !! objectId g) eqn:E'; [|done].
      apply Hlt in E'. lia. }
    assert (Hfields : ∀ g', g' = (if maxEntityCount <? objectId g + 1
                then call report capacity_message (set_objectId (fun n => n + 1) g)
                else set_objectId (fun n => n + 1) g) →
              idToObject g' = idToObject g ∧ availableObjectIds g' = [] ∧
              objectId g' = objectId g + 1 ∧ meshId g' = meshId g).
    { intros g' ->. by destruct (maxEntityCount <? objectId g + 1); simpl; rewrite E. }
    destruct (Hfields _ eq_refl) as (Ht & Hf & Hc & Hm).
    split; simpl; rewrite ?Ht, ?Hf, ?Hc, ?Hm.
    + intros id y. rewrite lookup_insert. case_decide; [lia|].
      intros ?%Hlt. lia.
    + by intros id ?%elem_of_nil.
    + constructor.
    + by intros id ?%elem_of_nil.
    + intros id Hid. right. rewrite lookup_insert. case_decide; [done|].
      destruct (Hused id) as [?%elem_of_nil|?]; [lia|done..].
    + intros y [Hy| ->%elem_of_singleton]%elem_of_union.
      * destruct (Hlive y Hy) as (id & Hmy & Hty).
        destruct (decide (y = x)) as [->|Hne].
        -- exists (objectId g). by rewrite !lookup_insert_eq.
        -- exists id. rewrite lookup_insert_ne by done. split; [done|].
           rewrite lookup_insert_ne; [done|]. intros <-. congruence.
      * exists (objectId g). by rewrite !lookup_insert_eq.
  - rewrite (assignIdToObject_recycled _ _ r rest) by done.
    assert (Hr : idToObject g !! r = None) by (apply Hun; left).
    apply NoDup_cons in Hnd as [Hr' Hnd].
    split; simpl.
    + intros id y. rewrite lookup_insert. case_decide as Hid.
      * subst. intros _. apply Hfree. left.
      * apply Hlt.
    + intros id Hid. apply Hfree. by right.
    + done.
    + intros id Hid. rewrite lookup_insert_ne by (by intros ->).
      apply Hun. by right.
    + intros id Hid. rewrite lookup_insert. case_decide; [by right|].
      destruct (Hused id Hid) as [Hin|?]; [|by right].
      apply elem_of_cons in Hin as [->|?]; [done|by left].
    + intros y [Hy| ->%elem_of_singleton]%elem_of_union.
      * destruct (Hlive y Hy) as (id & Hmy & Hty).
        destruct (decide (y = x)) as [->|Hne].
        -- exists r. by rewrite !lookup_insert_eq.
        -- exists id. rewrite lookup_insert_ne by done. split; [done|].
           rewrite lookup_insert_ne; [done|]. intros <-. congruence.
      * exists r. by rewrite !lookup_insert_eq.
Qed.

Lemma allocator_ok_removeNode g live node :
  allocator_ok (g, live) →
  (∀ id, held g node = Some id → ref_of node ∈ live) →
  allocator_ok (removeNode g node,
                match held g node with
                | Some _ => live ∖ {[ ref_of node ]}
                | None => live
                end).
Proof.
  intros Hok Hadm. unfold removeNode.
  destruct (held g node) as [id|] eqn:Hheld; [|done].
  destruct Hok as [Hlt Hfree Hnd Hun Hused Hlive]; simpl in *.
  apply held_Some in Hheld as [Hm _].
  destruct (Hlive _ (Hadm _ eq_refl)) as (id' & Hm' & Ht).
  assert (id' = id) as -> by congruence.
  assert (Hnin : id ∉ availableObjectIds g).
  { intros Hin%Hun. congruence. }
  split; simpl.
  - intros i y [_ ?]%lookup_delete_Some. eauto.
  - intros i [?| ->%list_elem_of_singleton]%elem_of_app; eauto.
  - apply NoDup_app. split_and!; [done| |apply NoDup_singleton].
    intros i Hi ->%list_elem_of_singleton. done.
  - intros i [?| ->%list_elem_of_singleton]%elem_of_app.
    + apply lookup_delete_None. right. by apply Hun.
    + apply lookup_delete_eq.
  - intros i Hi. destruct (decide (i = id)) as [->|Hne].
    + left. apply elem_of_app. right. by apply list_elem_of_singleton.
    + destruct (Hused i Hi) as [?|?].
      * left. apply elem_of_app. by left.
      * right. by rewrite lookup_delete_ne.
  - intros y [Hy Hne%not_elem_of_singleton]%elem_of_difference.
    destruct (Hlive y Hy) as (i & Hmy & Hty).
    exists i. split; [done|]. rewrite lookup_delete_ne; [done|].
    intros <-. congruence.
Qed.

Lemma allocator_ok_removeNodes l g live :
  allocator_ok (g, live) →
  NoDup (ref_of <$> filter (fun node => is_Some (held g node)) l) →
  (∀ x, x ∈ ref_of <$> filter (fun node => is_Some (held g node)) l → x ∈ live) →
  allocator_ok (foldl removeNode g l,
                live ∖ list_to_set (ref_of <$> filter (fun node => is_Some (held g node)) l)).
Proof.
  revert g live. induction l as [|n l IH]; intros g live Hok Hnd Hadm.
  - simpl. by replace (live ∖ ∅) with live by set_solver.
  - assert (Hext : filter (fun node => is_Some (held (removeNode g n) node)) l =
                   filter (fun node => is_Some (held g node)) l).
    { apply list_filter_iff. intros m.
      by rewrite (held_meshId g) by apply removeNode_meshId. }
    simpl. rewrite filter_cons in *.
    destruct (decide (is_Some (held g n))) as [[id Hid]|Hno].
    + rewrite fmap_cons in *. apply NoDup_cons in Hnd as [Hn Hnd].
      pose proof (allocator_ok_removeNode g live n Hok) as Hstep.
      rewrite Hid in Hstep.
      specialize (IH (removeNode g n) (live ∖ {[ref_of n]})).
      rewrite Hext in IH.
      replace (live ∖ list_to_set (ref_of n :: (ref_of <$> filter (fun node => is_Some (held g node)) l)))
        with (live ∖ {[ref_of n]} ∖ list_to_set (ref_of <$> filter (fun node => is_Some (held g node)) l))
        by set_solver.
      apply IH; [|done|].
      * apply Hstep. intros _ _. apply Hadm. left.
      * intros x Hx. apply elem_of_difference. split.
        -- apply Hadm. by right.
        -- intros ->%elem_of_singleton. done.
    + pose proof (allocator_ok_removeNode g live n Hok) as Hstep.
      assert (Hnone : held g n = None).
      { destruct (held g n) eqn:?; [|done]. exfalso. apply Hno. eauto. }
      rewrite Hnone in Hstep.
      specialize (IH (removeNode g n) live). rewrite Hext in IH.
      apply IH; [|done..]. apply Hstep. intros ? [=].
Qed.

Lemma allocator_ok_step s o :
  allocator_ok s → admissible s o → allocator_ok (step s o).
Proof.
  destruct s as [g live]. intros Hok Hadm. destruct o as [x|t]; simpl in *.
  - by apply allocator_ok_allocate.
  - destruct Hadm as [Hnd Hadm]. by apply allocator_ok_removeNodes.
Qed.

Lemma allocator_ok_trace ops s :
  allocator_ok s → admissible_trace s ops → allocator_ok (foldl step s ops).
Proof.
  revert s. induction ops as [|o ops IH]; intros s Hok Hadm; [done|].
  destruct Hadm as [Ho Hrest]. simpl. apply IH; [|done].
  by apply allocator_ok_step.
Qed.

Lemma admissible_trace_take k ops s :
  admissible_trace s ops → admissible_trace s (take k ops).
Proof.
  revert k s. induction ops as [|o ops IH]; intros [|k] s; simpl; try done.
  intros [? ?]. split; [done|]. by apply IH.
Qed.

(** C1.  Start from a new [Graphics] and run any sequence of allocations
    ([assignIdToObject]) and releases ([removeObjectFromScene]) in which
    every release only releases identities of live objects, each object at
    most once.  Then after every operation (after each prefix of the
    sequence): every live object holds an identity under which the table
    lists that very object, so two live objects never hold the same
    identity; no identity on the free list is assigned; the free list has no
    duplicates; and the next counter value is neither assigned nor on the
    free list. *)
Theorem live_identities_distinct cam world images ops k :
  admissible_trace (new_Graphics cam world images, ∅) ops →
  let s := foldl step (new_Graphics cam world images, ∅) (take k ops) in
  (∀ x, x ∈ s.2 → ∃ id, meshId s.1 !! x = Some id ∧ idToObject s.1 !! id = Some x) ∧
  (∀ x y, x ∈ s.2 → y ∈ s.2 → meshId s.1 !! x = meshId s.1 !! y → x = y) ∧
  (∀ id, id ∈ availableObjectIds s.1 → idToObject s.1 !! id = None) ∧
  NoDup (availableObjectIds s.1) ∧
  idToObject s.1 !! objectId s.1 = None ∧
  objectId s.1 ∉ availableObjectIds s.1.
Proof.
  intros Hadm s.
  assert (Hok : allocator_ok s).
  { apply allocator_ok_trace; [apply allocator_ok_new|].
    by apply admissible_trace_take. }
  destruct Hok as [Hlt Hfree Hnd Hun Hused Hlive].
  split_and!; [done| |done|done| |].
  - intros x y Hx Hy E.
    destruct (Hlive x Hx) as (i & Hi & Hti), (Hlive y Hy) as (j & Hj & Htj).
    congruence.
  - destruct (idToObject s.1 !! objectId s.1) eqn:E; [|done].
    apply Hlt in E. lia.
  - intros Hin%Hfree. lia.
Qed.

Lemma live_identities_distinct_witness :
  let ops := [allocate 10; allocate 11; release (Node 11 Mesh NoMaterial []);
              allocate 12; allocate 13; release (Node 10 Camera NoMaterial [])] in
  admissible_trace (new_Graphics 10 ∅ ∅, ∅) ops ∧
  let s := foldl step (new_Graphics 10 ∅ ∅, ∅) (take 5 ops) in
  (∀ x, x ∈ s.2 → ∃ id, meshId s.1 !! x = Some id ∧ idToObject s.1 !! id = Some x) ∧
  (∀ x y, x ∈ s.2 → y ∈ s.2 → meshId s.1 !! x = meshId s.1 !! y → x = y) ∧
  (∀ id, id ∈ availableObjectIds s.1 → idToObject s.1 !! id = None) ∧
  NoDup (availableObjectIds s.1) ∧
  idToObject s.1 !! objectId s.1 = None ∧
  objectId s.1 ∉ availableObjectIds s.1.
Proof.
  intros ops.
  assert (Hadm : admissible_trace (new_Graphics 10 ∅ ∅, ∅) ops).
  { simpl. split_and!; try done.
    - vm_compute. apply NoDup_singleton.
    - intros x. vm_compute released. intros ->%list_elem_of_singleton.
      apply elem_of_union. right. by apply elem_of_singleton.
    - vm_compute. apply NoDup_nil_2.
    - intros x. vm_compute released. by intros ?%elem_of_nil. }
  split; [exact Hadm|].
  exact (live_identities_distinct 10 ∅ ∅ ops 5 Hadm).
Defined.

(** ** Frame rules for the operations that may throw *)

Section Preserves.
Context (P : Graphics → Prop).

Lemma preserves_ret {A} (a : A) : preserves P (mret a).
Proof. by intros g. Qed.

Lemma preserves_throw {A} e : preserves P (@throw A e).
Proof. by intros g. Qed.

Lemma preserves_gets {A} (f : Graphics → A) : preserves P (gets f).
Proof. by intros g. Qed.

Lemma preserves_lift f : (∀ g, P g → P (f g)) → preserves P (lift f).
Proof. intros Hf g. apply Hf. Qed.

Lemma preserves_bind {A B} (c : M A) (k : A → M B) :
  preserves P c → (∀ a, preserves P (k a)) → preserves P (c ≫= k).
Proof.
  intros Hc Hk g Hg. unfold mbind, M_bind.
  specialize (Hc g Hg). destruct (c g) as [[a|e] g']; simpl in *; [|done].
  by apply Hk.
Qed.

Lemma preserves_for_each {A} (body : A → M unit) l :
  (∀ x, preserves P (body x)) → preserves P (for_each body l).
Proof.
  intros Hbody. induction l as [|x l IH]; simpl.
  - apply preserves_ret.
  - apply preserves_bind; [apply Hbody|]. by intros _.
Qed.

Lemma preserves_when_set t f :
  (∀ x, preserves P (f x)) → preserves P (when_set t f).
Proof. intros Hf. destruct t; simpl; [apply Hf|apply preserves_ret]. Qed.

(** From here on [P] is kept by the primitive steps. *)
Hypothesis P_upload : ∀ t ui, preserves P (uploadTexture t ui).
Hypothesis P_image : ∀ g f, P g → P (set_image f g).
Hypothesis P_assign : ∀ x g, P g → P (assignIdToObject x g).2.
Hypothesis P_submit : ∀ cmd g,
  (∀ T, carries T cmd = false) → P g → P (submitCommand cmd false g).
Hypothesis P_console : ∀ g h msg, P g → P (call h msg g).

Lemma preserves_extractMaterialTextures m ui :
  preserves P (extractMaterialTextures m ui).
Proof.
  apply preserves_bind; [|intros _];
    apply preserves_when_set; intros t; apply P_upload.
Qed.

Lemma preserves_deleteImages m : preserves P (deleteImages m).
Proof.
  assert (Hd : ∀ t, preserves P (delete_image t)).
  { intros t. apply preserves_lift. intros g. apply P_image. }
  unfold deleteImages.
  apply preserves_bind; [by apply preserves_when_set|intros _].
  apply preserves_bind; [by apply preserves_when_set|intros _].
  by apply preserves_for_each.
Qed.

Lemma preserves_materials mf ui :
  preserves P
    match mf with
    | NoMaterial => mret tt
    | OneMaterial m => extractMaterialTextures m ui ;; deleteImages m
    | ManyMaterials ms =>
        for_each (fun m => extractMaterialTextures m ui ;; deleteImages m) ms
    end.
Proof.
  assert (H1 : ∀ m, preserves P (extractMaterialTextures m ui ;; deleteImages m)).
  { intros m. apply preserves_bind; [apply preserves_extractMaterialTextures|].
    intros _. apply preserves_deleteImages. }
  destruct mf as [|m|ms]; [apply preserves_ret|apply H1|].
  by apply preserves_for_each.
Qed.

Lemma preserves_run_assign x : preserves P (run (assignIdToObject x)).
Proof.
  intros g Hg. unfold run. specialize (P_assign x g Hg).
  by destruct (assignIdToObject x g).
Qed.

Lemma preserves_addObjectToScene o ui : preserves P (addObjectToScene o ui).
Proof.
  apply preserves_for_each. intros node. unfold addNode.
  destruct (renderable (kind_of node)); [|apply preserves_ret].
  apply preserves_bind; [apply preserves_run_assign|intros id].
  apply preserves_bind; [apply preserves_materials|intros _].
  apply preserves_lift. intros g. by apply P_submit.
Qed.

Lemma preserves_updateMaterial o ui : preserves P (updateMaterial o ui).
Proof.
  apply preserves_for_each. intros node. unfold updateNode.
  assert (H1 : ∀ m, preserves P
    (extractMaterialTextures m ui ;;
     id ← gets (fun g => meshId g !! ref_of node);
     lift (submitCommand (updateMaterial_cmd m id) false))).
  { intros m. apply preserves_bind; [apply preserves_extractMaterialTextures|].
    intros _. apply preserves_bind; [apply preserves_gets|intros id].
    apply preserves_lift. intros g. by apply P_submit. }
  destruct (kind_of node), (material_of node);
    first [apply preserves_ret | apply preserves_throw | apply H1].
Qed.

Lemma preserves_createParticleEmitter e t img :
  preserves P (createParticleEmitter e t img).
Proof.
  unfold createParticleEmitter.
  apply preserves_bind; [apply preserves_lift; intros g; apply P_console|intros _].
  apply preserves_bind; [apply preserves_lift; intros g; apply P_image|intros _].
  apply preserves_bind; [apply preserves_addObjectToScene|intros _].
  apply preserves_bind; [apply preserves_gets|intros id].
  apply preserves_lift. intros g. by apply P_submit.
Qed.
(** The remaining steps of the public interface. *)
Hypothesis P_post : ∀ cmd g,
  (∀ T, carries T cmd = false) → P g → P (submitCommand cmd true g).
Hypothesis P_flush : ∀ g, P g → P (flushCommands g).
Hypothesis P_array : ∀ g f, P g → P (set_array f g).
Hypothesis P_recycle : ∀ g id, P g → P (recycle id g).
Hypothesis P_outside : ∀ g i w, P g → P (outside i w g).

Lemma preserves_removeObjectFromScene o g : P g → P (removeObjectFromScene o g).
Proof.
  unfold removeObjectFromScene. generalize (traverse o). intros l. revert g.
  induction l as [|n l IH]; intros g Hg; [done|].
  simpl. apply IH. unfold removeNode. destruct (held g n) as [id|]; [|done].
  apply P_recycle. by apply P_submit.
Qed.

Lemma preserves_perform e g : P g → P (perform g e).
Proof.
  intros Hg. destruct e; simpl.
  - unfold Graphics_init. apply P_submit; [done|]. apply P_post; [done|].
    by apply P_assign.
  - by apply P_submit.
  - unfold update, writeTransformsToArray. apply P_array. by apply P_flush.
  - by apply P_flush.
  - by apply preserves_updateMaterial.
  - by apply preserves_removeObjectFromScene.
  - by apply preserves_addObjectToScene.
  - by apply preserves_createParticleEmitter.
  - unfold onmessage. repeat case_decide; by apply P_console.
  - by apply P_outside.
Qed.

Lemma preserves_history events g : P g → P (foldl perform g events).
Proof.
  revert g. induction events as [|e events IH]; intros g Hg; [done|].
  simpl. apply IH. by apply preserves_perform.
Qed.
End Preserves.

Lemma released_ids_meshId g g' object :
  meshId g' = meshId g → released_ids g' object = released_ids g object.
Proof.
  intros E. unfold released_ids. apply list_omap_ext, Forall2_same_length_lookup.
  split; [done|]. intros i x y Hx Hy.
  assert (x = y) as -> by congruence. by apply held_meshId.
Qed.

Lemma addObjectToScene_leaf_allocator r k m ui g :
  renderable k = true →
  allocator_view (exec (addObjectToScene (Node r k m []) ui) g) =
  allocator_view (assignIdToObject r g).2.
Proof.
  intros Hk. unfold exec, addObjectToScene. simpl.
  unfold addNode. simpl. rewrite Hk.
  unfold mbind at 1, M_bind at 1. unfold mbind at 1, M_bind at 1.
  unfold run at 1. destruct (assignIdToObject r g) as [id g1]. simpl.
  set (P := fun g' => allocator_view g' = allocator_view g1).
  assert (Hm : preserves P
    (match m with
      | NoMaterial => mret tt
      | OneMaterial m => extractMaterialTextures m ui ;; deleteImages m
      | ManyMaterials ms =>
          for_each (fun m => extractMaterialTextures m ui ;; deleteImages m) ms
      end ;; lift (submitCommand (addObject (Node r k m []) id ui) false))).
  { apply preserves_bind; [|intros _; by apply preserves_lift].
    apply preserves_materials; [|done].
    intros t ui' g' Hg'. unfold uploadTexture.
    destruct (decide (uuid t ∈ textureCache g')); [done|].
    by destruct (image g' !! tex_ref t). }
  specialize (Hm g1 eq_refl). unfold P in Hm.
  match goal with
  | H : allocator_view (?c g1).2 = _ |- allocator_view (match ?c' g1 with _ => _ end).2 = _ =>
      change c' with c; destruct (c g1) as [[[]|e] g2]; simpl in *; exact H
  end.
Qed.

(** C2.  Released identities are reused first in, first out, and before the
    counter is touched.  From any state with an empty free list: if a first
    removal releases exactly the identity [A] and a second one exactly [B],
    the next two allocations return [A] and then [B] and leave the counter
    as it was.  In particular, after the object at identity 5 is removed, a
    newly registered object gets identity 5. *)
Theorem released_identities_reused_fifo :
  (∀ g a b x y A B,
     availableObjectIds g = [] →
     released_ids g a = [A] →
     released_ids g b = [B] →
     let g2 := removeObjectFromScene b (removeObjectFromScene a g) in
     let r1 := assignIdToObject x g2 in
     let r2 := assignIdToObject y r1.2 in
     r1.1 = A ∧ r2.1 = B ∧ objectId r2.2 = objectId g ∧
     availableObjectIds r2.2 = []) ∧
  (∀ g o r k m ui,
     availableObjectIds g = [] →
     released_ids g o = [5] →
     renderable k = true →
     let g' := exec (addObjectToScene (Node r k m []) ui) (removeObjectFromScene o g) in
     meshId g' !! r = Some 5 ∧ idToObject g' !! 5 = Some r ∧
     objectId g' = objectId g).
Proof.
  split.
  - intros g a b x y A B Hfree Ha Hb g2 r1 r2.
    assert (Hb' : released_ids (removeObjectFromScene a g) b = [B]).
    { rewrite <- Hb. apply released_ids_meshId.
      apply foldl_removeNode_meshId. }
    assert (E2 : availableObjectIds g2 = [A; B] ∧ objectId g2 = objectId g).
    { unfold g2. rewrite (removeObjectFromScene_eq b), Hb'. simpl.
      rewrite (removeObjectFromScene_eq a), Ha. simpl. by rewrite Hfree. }
    destruct E2 as [E2 Hc].
    unfold r2, r1.
    rewrite (assignIdToObject_recycled x g2 A [B]) by done. cbn [fst snd].
    rewrite (assignIdToObject_recycled y _ B []) by done. simpl.
    done.
  - intros g o r k m ui Hfree Ho Hk g'.
    assert (Hv : allocator_view g' =
                 allocator_view (assignIdToObject r (removeObjectFromScene o g)).2).
    { by apply addObjectToScene_leaf_allocator. }
    assert (E : availableObjectIds (removeObjectFromScene o g) = [5]).
    { rewrite removeObjectFromScene_eq, Ho. simpl. by rewrite Hfree. }
    rewrite (assignIdToObject_recycled r _ 5 []) in Hv by done.
    unfold allocator_view in Hv. simpl in Hv.
    injection Hv as Ht Hf Hc Hm. rewrite Ht, Hm, Hc.
    rewrite !lookup_insert_eq. split_and!; [done..|].
    by rewrite removeObjectFromScene_eq.
Qed.

Lemma released_identities_reused_fifo_witness :
  (availableObjectIds example_scene = [] ∧
   released_ids example_scene (mesh 2) = [2] ∧
   released_ids example_scene (mesh 4) = [4] ∧
   let g2 := removeObjectFromScene (mesh 4) (removeObjectFromScene (mesh 2) example_scene) in
   let r1 := assignIdToObject 7 g2 in
   let r2 := assignIdToObject 8 r1.2 in
   r1.1 = 2 ∧ r2.1 = 4 ∧ objectId r2.2 = objectId example_scene ∧
   availableObjectIds r2.2 = []) ∧
  (availableObjectIds example_scene = [] ∧
   released_ids example_scene (mesh 5) = [5] ∧
   renderable Sprite = true ∧
   let g' := exec (addObjectToScene (Node 7 Sprite NoMaterial []) true)
                  (removeObjectFromScene (mesh 5) example_scene) in
   meshId g' !! 7 = Some 5 ∧ idToObject g' !! 5 = Some 7 ∧
   objectId g' = objectId example_scene).
Proof.
  split.
  - split_and!; [vm_compute; reflexivity..|].
    apply (proj1 released_identities_reused_fifo); vm_compute; reflexivity.
  - split_and!; [vm_compute; reflexivity..|].
    apply (proj2 released_identities_reused_fifo); vm_compute; reflexivity.
Defined.

(** ** Removing twice *)

Lemma lookup_foldl_delete (ids : list nat) (t : gmap nat objref) k :
  foldl (fun t id => delete id t) t ids !! k =
  if decide (k ∈ ids) then None else t !! k.
Proof.
  revert t. induction ids as [|id ids IH]; intros t.
  - by destruct (decide (k ∈ [])) as [?%elem_of_nil|].
  - change (foldl (fun t id => delete id t) (delete id t) ids !! k =
            if decide (k ∈ id :: ids) then None else t !! k).
    rewrite IH.
    destruct (decide (k ∈ ids)) as [Hin|Hnin], (decide (k ∈ id :: ids)) as [Hc|Hc];
      try done.
    + exfalso. apply Hc. by right.
    + apply elem_of_cons in Hc as [->|?]; [|done]. apply lookup_delete_eq.
    + apply lookup_delete_ne. intros ->. apply Hc. by left.
Qed.

(** C3, as amended.  A second removal does not crash, but it is not a no-op.
    Removal never clears [userData.meshId], so whatever happened in between,
    a removal queues one [removeObject] command and pushes one identity on
    the free list for every node of the object whose [meshId] is neither
    undefined nor 0, and deletes the table's entries at those identities.
    Called directly after the first removal, the second one leaves the
    identity table as it is and repeats the commands and the releases. *)
Theorem second_removal_repeats g o :
  let ids := released_ids g o in
  let g1 := removeObjectFromScene o g in
  let g2 := removeObjectFromScene o g1 in
  meshId g1 = meshId g ∧
  released_ids g1 o = ids ∧
  commandQueue g1 = commandQueue g ++ (removeObject <$> ids) ∧
  availableObjectIds g1 = availableObjectIds g ++ ids ∧
  (∀ id, idToObject g1 !! id = if decide (id ∈ ids) then None else idToObject g !! id) ∧
  commandQueue g2 = commandQueue g1 ++ (removeObject <$> ids) ∧
  availableObjectIds g2 = availableObjectIds g1 ++ ids ∧
  idToObject g2 = idToObject g1.
Proof.
  intros ids g1 g2.
  assert (Hm : meshId g1 = meshId g) by apply foldl_removeNode_meshId.
  assert (Hids : released_ids g1 o = ids) by (by apply released_ids_meshId).
  assert (Ht : ∀ id, idToObject g1 !! id =
                     if decide (id ∈ ids) then None else idToObject g !! id).
  { intros id. unfold g1. rewrite removeObjectFromScene_eq. simpl.
    apply lookup_foldl_delete. }
  split_and!; try done.
  - unfold g1. by rewrite removeObjectFromScene_eq.
  - unfold g1. by rewrite removeObjectFromScene_eq.
  - unfold g2. by rewrite removeObjectFromScene_eq, Hids.
  - unfold g2. by rewrite removeObjectFromScene_eq, Hids.
  - apply map_eq. intros id. unfold g2.
    rewrite removeObjectFromScene_eq, Hids. simpl.
    rewrite lookup_foldl_delete, Ht. by destruct (decide (id ∈ ids)).
Qed.

(** C3 as stated fails: mesh 3 of the example scene is removed, then removed
    again; the second call changes the free list from [3] to [3; 3] and
    queues a second [removeObject] command. *)
Lemma second_removal_not_noop :
  let g1 := removeObjectFromScene (mesh 3) example_scene in
  let g2 := removeObjectFromScene (mesh 3) g1 in
  availableObjectIds g1 = [3] ∧ availableObjectIds g2 = [3; 3] ∧
  commandQueue g1 = [removeObject 3] ∧
  commandQueue g2 = [removeObject 3; removeObject 3] ∧
  ¬ (idToObject g2 = idToObject g1 ∧
     availableObjectIds g2 = availableObjectIds g1 ∧
     commandQueue g2 = commandQueue g1).
Proof.
  split_and!; [vm_compute; reflexivity..|].
  intros (_ & H & _). vm_compute in H. discriminate H.
Qed.

(** ** Capacity *)

Lemma new_Graphics_array cam world images :
  length (array (new_Graphics cam world images)) = elementsPerTransform * maxEntityCount.
Proof. unfold new_Graphics, array. rewrite length_replicate. by vm_compute. Qed.

Lemma assignIdToObject_frame x g :
  array (assignIdToObject x g).2 = array g ∧
  commandQueue (assignIdToObject x g).2 = commandQueue g ∧
  worker (assignIdToObject x g).2 = worker g ∧
  textureCache (assignIdToObject x g).2 = textureCache g.
Proof.
  unfold assignIdToObject. destruct (availableObjectIds g); [|done].
  simpl. by destruct (maxEntityCount <? objectId g + 1).
Qed.

(** When an allocation calls [report]: exactly when it is fresh and the
    counter has already reached the capacity. *)
Lemma assignIdToObject_console x g :
  console (assignIdToObject x g).2 =
  if decide (availableObjectIds g = [] ∧ maxEntityCount ≤ objectId g)
  then console g ++ [(report, capacity_message)]
  else console g.
Proof.
  destruct (decide (availableObjectIds g = [] ∧ maxEntityCount ≤ objectId g))
    as [[Hf Hle]|Hn].
  - rewrite assignIdToObject_fresh by done. simpl.
    destruct (maxEntityCount <? objectId g + 1) eqn:E; [done|].
    apply Nat.ltb_ge in E. lia.
  - destruct (availableObjectIds g) as [|r rest] eqn:Hf.
    + rewrite assignIdToObject_fresh by done. simpl.
      destruct (maxEntityCount <? objectId g + 1) eqn:E; [|done].
      apply Nat.ltb_lt in E. exfalso. apply Hn. split; [done|lia].
    + by rewrite (assignIdToObject_recycled _ _ r rest).
Qed.

Lemma step_array s o : array (step s o).1 = array s.1.
Proof.
  destruct o as [x|t]; simpl.
  - apply assignIdToObject_frame.
  - by rewrite removeObjectFromScene_eq.
Qed.

Lemma trace_array ops s : array (foldl step s ops).1 = array s.1.
Proof.
  revert s. induction ops as [|o ops IH]; intros s; [done|].
  simpl. by rewrite IH, step_array.
Qed.

(** While the counter has not passed the capacity, nothing was reported. *)
Lemma trace_quiet ops s c0 :
  (objectId s.1 ≤ maxEntityCount → console s.1 = c0) →
  objectId (foldl step s ops).1 ≤ maxEntityCount →
  console (foldl step s ops).1 = c0.
Proof.
  revert s. induction ops as [|o ops IH]; intros s Hs; [done|].
  simpl. apply IH. destruct o as [x|t]; simpl.
  - rewrite assignIdToObject_console.
    destruct (decide (availableObjectIds s.1 = [] ∧ maxEntityCount ≤ objectId s.1))
      as [[Hf Hle]|Hn].
    + rewrite assignIdToObject_fresh by done. simpl.
      destruct (maxEntityCount <? objectId s.1 + 1); simpl; lia.
    + intros Hle. apply Hs.
      destruct (availableObjectIds s.1) as [|r rest] eqn:Hf.
      * rewrite assignIdToObject_fresh in Hle by done. simpl in Hle.
        destruct (maxEntityCount <? objectId s.1 + 1); simpl in Hle; lia.
      * rewrite (assignIdToObject_recycled _ _ r rest) in Hle by done.
        exact Hle.
  - rewrite removeObjectFromScene_eq. simpl. apply Hs.
Qed.

(** With an empty free list the assigned identities are exactly those below
    the counter, so the table has as many entries as the counter says. *)
Lemma allocator_ok_size s :
  allocator_ok s → availableObjectIds s.1 = [] →
  size (idToObject s.1) = objectId s.1.
Proof.
  intros [Hlt _ _ _ Hused _] Hfree.
  rewrite <- size_dom.
  assert (E : dom (idToObject s.1) = set_seq 0 (objectId s.1)).
  { apply set_eq. intros i. rewrite elem_of_dom, elem_of_set_seq. split.
    - intros [x Hx]. apply Hlt in Hx. lia.
    - intros [_ Hi]. destruct (Hused i) as [Hin|?]; [lia| |done].
      rewrite Hfree in Hin. by apply elem_of_nil in Hin. }
  rewrite E. apply size_set_seq.
Qed.

(** C4.  In a state reached by admissible allocations and releases where the
    table holds [maxEntityCount] = 1024 objects and the free list is empty,
    the next allocation still returns: its identity is 1024, whose record
    would start past the end of the transform buffer; the counter advances
    to 1025; the object is entered in the table; and [report] is called once
    with the capacity message.  An allocation calls [report] only when it is
    fresh and the counter, which counts the fresh allocations made so far,
    has already reached 1024; and as long as the counter has not passed
    1024 no hook has been called since the instance was made. *)
Theorem allocation_at_capacity_reports :
  (∀ cam world images ops x,
     admissible_trace (new_Graphics cam world images, ∅) ops →
     let g := (foldl step (new_Graphics cam world images, ∅) ops).1 in
     size (idToObject g) = maxEntityCount →
     availableObjectIds g = [] →
     let r := assignIdToObject x g in
     r.1 = maxEntityCount ∧
     length (array r.2) ≤ r.1 * elementsPerTransform ∧
     objectId r.2 = maxEntityCount + 1 ∧
     idToObject r.2 !! r.1 = Some x ∧
     meshId r.2 !! x = Some r.1 ∧
     console r.2 = console g ++ [(report, capacity_message)]) ∧
  (∀ x g,
     console (assignIdToObject x g).2 =
     if decide (availableObjectIds g = [] ∧ maxEntityCount ≤ objectId g)
     then console g ++ [(report, capacity_message)]
     else console g) ∧
  (∀ cam world images ops,
     let g := (foldl step (new_Graphics cam world images, ∅) ops).1 in
     objectId g ≤ maxEntityCount →
     console g = console (new_Graphics cam world images)).
Proof.
  split_and!.
  - intros cam world images ops x Hadm g Hsize Hfree r.
    assert (Hok : allocator_ok (foldl step (new_Graphics cam world images, ∅) ops)).
    { apply allocator_ok_trace; [apply allocator_ok_new|done]. }
    assert (Hc : objectId g = maxEntityCount).
    { rewrite <- Hsize. symmetry. by apply allocator_ok_size. }
    assert (Ha : length (array g) = elementsPerTransform * maxEntityCount).
    { unfold g. rewrite trace_array. apply new_Graphics_array. }
    assert (Hcons := assignIdToObject_console x g).
    destruct (assignIdToObject_frame x g) as (Harr & _).
    rewrite decide_True in Hcons by (split; [done|lia]).
    assert (Er := assignIdToObject_fresh x g Hfree).
    fold r in Hcons, Harr, Er.
    assert (E1 : r.1 = objectId g) by (by rewrite Er).
    split_and!.
    + by rewrite E1.
    + rewrite Harr, Ha, E1, Hc. lia.
    + rewrite Er. cbn [snd].
      destruct (maxEntityCount <? objectId g + 1); simpl; rewrite Hc; reflexivity.
    + rewrite Er. simpl. by rewrite lookup_insert_eq.
    + rewrite Er. simpl. by rewrite lookup_insert_eq.
    + done.
  - apply assignIdToObject_console.
  - intros cam world images ops g. by apply trace_quiet.
Qed.

Lemma admissible_trace_allocations l s : admissible_trace s (allocate <$> l).
Proof. revert s. induction l as [|x l IH]; intros s; simpl; [done|by split]. Qed.

Lemma allocation_at_capacity_reports_witness :
  (admissible_trace (new_Graphics 0 ∅ ∅, ∅) full_house ∧
   let g := (foldl step (new_Graphics 0 ∅ ∅, ∅) full_house).1 in
   size (idToObject g) = maxEntityCount ∧
   availableObjectIds g = [] ∧
   let r := assignIdToObject 5000 g in
   r.1 = maxEntityCount ∧
   length (array r.2) ≤ r.1 * elementsPerTransform ∧
   objectId r.2 = maxEntityCount + 1 ∧
   idToObject r.2 !! r.1 = Some 5000 ∧
   meshId r.2 !! 5000 = Some r.1 ∧
   console r.2 = console g ++ [(report, capacity_message)]) ∧
  (let g := (foldl step (new_Graphics 0 ∅ ∅, ∅) full_house).1 in
   objectId g ≤ maxEntityCount ∧ console g = console (new_Graphics 0 ∅ ∅)).
Proof.
  assert (Hadm : admissible_trace (new_Graphics 0 ∅ ∅, ∅) full_house)
    by apply admissible_trace_allocations.
  assert (Hsize : size (idToObject (foldl step (new_Graphics 0 ∅ ∅, ∅) full_house).1)
                  = maxEntityCount) by (vm_compute; reflexivity).
  assert (Hfree : availableObjectIds (foldl step (new_Graphics 0 ∅ ∅, ∅) full_house).1
                  = []) by (vm_compute; reflexivity).
  assert (Hle : objectId (foldl step (new_Graphics 0 ∅ ∅, ∅) full_house).1
                ≤ maxEntityCount) by (vm_compute; apply le_n).
  split.
  - split; [exact Hadm|]. intros g.
    split; [exact Hsize|]. split; [exact Hfree|].
    exact (proj1 allocation_at_capacity_reports 0 ∅ ∅ full_house 5000 Hadm Hsize Hfree).
  - intros g. split; [exact Hle|].
    exact (proj2 (proj2 allocation_at_capacity_reports) 0 ∅ ∅ full_house Hle).
Defined.

(** ** The command queue *)

Lemma foldl_postMessage q g :
  foldl postMessage g q = set_worker (fun w => w ++ q) g.
Proof.
  revert g. induction q as [|cmd q IH]; intros g.
  - apply Graphics_eq; simpl; by rewrite ?app_nil_r.
  - simpl foldl. rewrite IH.
    apply Graphics_eq; simpl; try done; by rewrite <- app_assoc.
Qed.

Lemma flushCommands_eq g :
  flushCommands g =
  set_commandQueue (fun _ => []) (set_worker (fun w => w ++ commandQueue g) g).
Proof. unfold flushCommands. by rewrite foldl_postMessage. Qed.

(** ** The texture cache *)

Lemma uploads_submitCommand T cmd immediate g :
  uploads T (submitCommand cmd immediate g) =
  uploads T g + (if carries T cmd then 1 else 0).
Proof.
  unfold uploads, emitted, submitCommand.
  destruct immediate; simpl; rewrite !filter_app, !length_app, filter_cons, filter_nil;
    destruct (carries T cmd);
    [rewrite decide_True by done|rewrite decide_False by done
    |rewrite decide_True by done|rewrite decide_False by done];
    simpl; lia.
Qed.

Lemma uploaded_once_frame g g' :
  worker g' ++ commandQueue g' = worker g ++ commandQueue g →
  textureCache g' = textureCache g →
  uploaded_once g → uploaded_once g'.
Proof.
  intros Hq Hc Hg T. specialize (Hg T).
  unfold uploads, emitted in *. by rewrite Hq, Hc.
Qed.

Lemma uploaded_once_submitCommand cmd immediate g :
  (∀ T, carries T cmd = false) →
  uploaded_once g → uploaded_once (submitCommand cmd immediate g).
Proof.
  intros Hcmd Hg T. rewrite uploads_submitCommand, Hcmd, Hg.
  destruct immediate; simpl; lia.
Qed.

Lemma uploaded_once_uploadTexture t ui :
  preserves uploaded_once (uploadTexture t ui).
Proof.
  intros g Hg. unfold uploadTexture.
  destruct (decide (uuid t ∈ textureCache g)) as [Hin|Hnin]; [done|].
  destruct (image g !! tex_ref t) as [img|]; [|done].
  cbn [snd]. intros T. rewrite uploads_submitCommand. cbn [carries].
  assert (E : uploads T (set_textureCache (fun c => c ∪ {[uuid t]}) g) = uploads T g)
    by done.
  rewrite E, Hg. destruct (decide (uuid t = T)) as [<-|Hne].
  - rewrite bool_decide_eq_true_2 by done.
    rewrite decide_False by done. rewrite decide_True; [done|]. set_solver.
  - rewrite bool_decide_eq_false_2 by done.
    destruct (decide (T ∈ textureCache g)).
    + rewrite decide_True; [done|]. set_solver.
    + rewrite decide_False; [done|]. set_solver.
Qed.

Lemma uploaded_once_history cam world images events :
  uploaded_once (foldl perform (new_Graphics cam world images) events).
Proof.
  apply preserves_history.
  - apply uploaded_once_uploadTexture.
  - intros g f. by apply uploaded_once_frame.
  - intros x g. destruct (assignIdToObject_frame x g) as (_ & Hq & Hw & Hc).
    apply uploaded_once_frame; [by rewrite Hq, Hw|done].
  - intros cmd g. apply uploaded_once_submitCommand.
  - intros g h msg. by apply uploaded_once_frame.
  - intros cmd g. apply uploaded_once_submitCommand.
  - intros g. rewrite flushCommands_eq. apply uploaded_once_frame; [|done].
    simpl. by rewrite app_nil_r.
  - intros g f. by apply uploaded_once_frame.
  - intros g id. by apply uploaded_once_frame.
  - intros g i w. by apply uploaded_once_frame.
  - intros T. unfold uploads, emitted. simpl. by rewrite decide_False by set_solver.
Qed.

Lemma textureCache_grows T e g :
  T ∈ textureCache g → T ∈ textureCache (perform g e).
Proof.
  apply (preserves_perform (fun g => T ∈ textureCache g)); try done.
  - intros t ui g' Hg'. unfold uploadTexture.
    destruct (decide (uuid t ∈ textureCache g')); [done|].
    destruct (image g' !! tex_ref t); [|done]. simpl. set_solver.
  - intros x g'. destruct (assignIdToObject_frame x g') as (_ & _ & _ & ->). done.
  - intros g'. by rewrite flushCommands_eq.
Qed.

(** ** The paths that extract textures *)

Lemma bind_ok {A B} (c : M A) (k : A → M B) g b :
  ((c ≫= k) g).1 = Ok b →
  ∃ a, (c g).1 = Ok a ∧ (c ≫= k) g = k a (c g).2.
Proof.
  unfold mbind, M_bind. destruct (c g) as [[a|e] g']; simpl; [|done].
  intros _. by exists a.
Qed.

Lemma bind_keeps {A B} (P : Graphics → Prop) (c : M A) (k : A → M B) g :
  P (c g).2 → (∀ a, preserves P (k a)) → P ((c ≫= k) g).2.
Proof.
  unfold mbind, M_bind. destruct (c g) as [[a|e] g']; simpl; [|done].
  intros Hg Hk. by apply Hk.
Qed.

(** What each round of a loop establishes when it returns, and no later
    round undoes, holds for every element when the loop returns. *)
Lemma for_each_establishes {A} (body : A → M unit) (Q : A → Graphics → Prop) l g :
  (∀ x g, (body x g).1 = Ok tt → Q x (body x g).2) →
  (∀ x y, preserves (Q x) (body y)) →
  (for_each body l g).1 = Ok tt →
  ∀ x, x ∈ l → Q x (for_each body l g).2.
Proof.
  intros Hest Hkeep. revert g. induction l as [|y l IH]; intros g Hok x Hx.
  { by apply elem_of_nil in Hx. }
  cbn [for_each] in *.
  destruct (bind_ok _ _ _ _ Hok) as ([] & Hy & E). rewrite E in *.
  apply elem_of_cons in Hx as [->|Hx].
  - apply (preserves_for_each (Q y)); [by intros z|]. by apply Hest.
  - by apply IH.
Qed.

Lemma cached_uploadTexture T t ui :
  preserves (fun g => T ∈ textureCache g) (uploadTexture t ui).
Proof.
  intros g Hg. unfold uploadTexture.
  destruct (decide _); [done|]. destruct (image g !! tex_ref t); [|done].
  simpl. set_solver.
Qed.

Lemma cached_assignIdToObject T x g :
  T ∈ textureCache g → T ∈ textureCache (assignIdToObject x g).2.
Proof. by destruct (assignIdToObject_frame x g) as (_ & _ & _ & ->). Qed.

Lemma cached_addNode T ui node :
  preserves (fun g => T ∈ textureCache g) (addNode ui node).
Proof.
  unfold addNode. destruct (renderable (kind_of node)); [|apply preserves_ret].
  apply preserves_bind.
  { apply preserves_run_assign. intros x g. apply cached_assignIdToObject. }
  intros id. apply preserves_bind; [|intros _; by apply preserves_lift].
  apply preserves_materials; [apply cached_uploadTexture|done].
Qed.

Lemma cached_updateNode T ui node :
  preserves (fun g => T ∈ textureCache g) (updateNode ui node).
Proof.
  unfold updateNode.
  assert (H1 : ∀ m, preserves (fun g => T ∈ textureCache g)
    (extractMaterialTextures m ui ;;
     id ← gets (fun g => meshId g !! ref_of node);
     lift (submitCommand (updateMaterial_cmd m id) false))).
  { intros m. apply preserves_bind.
    - apply preserves_extractMaterialTextures, cached_uploadTexture.
    - intros _. apply preserves_bind; [apply preserves_gets|intros id].
      by apply preserves_lift. }
  destruct (kind_of node), (material_of node);
    first [apply preserves_ret | apply preserves_throw | apply H1].
Qed.

Lemma uploadTexture_ok_cached t ui g :
  (uploadTexture t ui g).1 = Ok tt → uuid t ∈ textureCache (uploadTexture t ui g).2.
Proof.
  unfold uploadTexture. destruct (decide _); [done|].
  destruct (image g !! tex_ref t); [|done]. simpl. set_solver.
Qed.

Lemma extractMaterialTextures_ok_cached m ui g t :
  (extractMaterialTextures m ui g).1 = Ok tt →
  t ∈ extracted_slots m →
  uuid t ∈ textureCache (extractMaterialTextures m ui g).2.
Proof.
  unfold extractMaterialTextures, extracted_slots. intros Hok Ht.
  destruct (bind_ok _ _ _ _ Hok) as ([] & H1 & E). rewrite E in *. clear E.
  apply elem_of_app in Ht as [Ht|Ht].
  - destruct (mat_map m) as [t1|]; [|by apply elem_of_nil in Ht].
    apply list_elem_of_singleton in Ht as ->. cbn [when_set] in *.
    apply (preserves_when_set (fun g => uuid t1 ∈ textureCache g)).
    + intros t2. apply cached_uploadTexture.
    + by apply uploadTexture_ok_cached.
  - destruct (mat_alphaMap m) as [t2|]; [|by apply elem_of_nil in Ht].
    apply list_elem_of_singleton in Ht as ->. cbn [when_set] in *.
    by apply uploadTexture_ok_cached.
Qed.

Lemma cached_deleteImages T m :
  preserves (fun g => T ∈ textureCache g) (deleteImages m).
Proof. apply preserves_deleteImages. done. Qed.

Lemma extract_delete_ok_cached m ui g t :
  ((extractMaterialTextures m ui ;; deleteImages m) g).1 = Ok tt →
  t ∈ extracted_slots m →
  uuid t ∈ textureCache ((extractMaterialTextures m ui ;; deleteImages m) g).2.
Proof.
  intros Hok Ht. destruct (bind_ok _ _ _ _ Hok) as ([] & H1 & E). rewrite E.
  apply cached_deleteImages. by apply extractMaterialTextures_ok_cached.
Qed.

Lemma addNode_ok_cached ui node g m t :
  (addNode ui node g).1 = Ok tt →
  renderable (kind_of node) = true →
  m ∈ materials_of node → t ∈ extracted_slots m →
  uuid t ∈ textureCache (addNode ui node g).2.
Proof.
  unfold addNode, materials_of. intros Hok Hk Hm Ht. rewrite Hk in *.
  destruct (bind_ok _ _ _ _ Hok) as (id & _ & E). rewrite E in *. clear E.
  set (g1 := (run (assignIdToObject (ref_of node)) g).2) in *. clearbody g1.
  destruct (bind_ok _ _ _ _ Hok) as ([] & H1 & E). rewrite E. clear E Hok.
  unfold lift. cbn [snd submitCommand]. change (textureCache (set_commandQueue _ ?g'))
    with (textureCache g').
  destruct (material_of node) as [|m'|ms].
  - by apply elem_of_nil in Hm.
  - apply list_elem_of_singleton in Hm as ->. by apply extract_delete_ok_cached.
  - refine (for_each_establishes
              (fun m => extractMaterialTextures m ui ;; deleteImages m)
              (fun m g' => ∀ t, t ∈ extracted_slots m → uuid t ∈ textureCache g')
              ms g1 _ _ H1 m Hm t Ht).
    + intros m1 g' Hok' t' Ht'. by apply extract_delete_ok_cached.
    + intros m1 m2 g' Hg' t' Ht'.
      apply (preserves_bind (fun g => uuid t' ∈ textureCache g)); [| |by apply Hg'].
      * apply preserves_extractMaterialTextures, cached_uploadTexture.
      * intros _. apply cached_deleteImages.
Qed.

Lemma addObjectToScene_ok_cached object ui g node m t :
  (addObjectToScene object ui g).1 = Ok tt →
  node ∈ traverse object → renderable (kind_of node) = true →
  m ∈ materials_of node → t ∈ extracted_slots m →
  uuid t ∈ textureCache (addObjectToScene object ui g).2.
Proof.
  unfold addObjectToScene. intros Hok Hnode Hk Hm Ht.
  refine (for_each_establishes (addNode ui)
           (fun node g' => renderable (kind_of node) = true →
              ∀ m t, m ∈ materials_of node → t ∈ extracted_slots m →
                     uuid t ∈ textureCache g')
           (traverse object) g _ _ Hok node Hnode Hk m t Hm Ht).
  - intros n g' Hok' Hk' m' t' Hm' Ht'. by apply (addNode_ok_cached ui n g' m').
  - intros n n' g' Hg' Hk' m' t' Hm' Ht'. apply cached_addNode. by apply (Hg' Hk' m').
Qed.

Lemma updateNode_ok_cached ui node g m t :
  (updateNode ui node g).1 = Ok tt →
  mesh_or_sprite (kind_of node) = true →
  m ∈ materials_of node → t ∈ extracted_slots m →
  material_of node = OneMaterial m ∧
  uuid t ∈ textureCache (updateNode ui node g).2.
Proof.
  unfold updateNode, materials_of. intros Hok Hk Hm Ht.
  destruct (kind_of node); try done;
    (destruct (material_of node) as [|m'|ms]; try done;
     apply list_elem_of_singleton in Hm as ->; split; [done|];
     destruct (bind_ok _ _ _ _ Hok) as ([] & H1 & E); rewrite E; clear E;
     unfold mbind, M_bind, gets, lift; cbn [snd];
     by apply extractMaterialTextures_ok_cached).
Qed.

Lemma updateMaterial_ok_cached object ui g node m t :
  (updateMaterial object ui g).1 = Ok tt →
  node ∈ traverse object → mesh_or_sprite (kind_of node) = true →
  m ∈ materials_of node → t ∈ extracted_slots m →
  uuid t ∈ textureCache (updateMaterial object ui g).2.
Proof.
  unfold updateMaterial. intros Hok Hnode Hk Hm Ht.
  refine (for_each_establishes (updateNode ui)
           (fun node g' => mesh_or_sprite (kind_of node) = true →
              ∀ m t, m ∈ materials_of node → t ∈ extracted_slots m →
                     uuid t ∈ textureCache g')
           (traverse object) g _ _ Hok node Hnode Hk m t Hm Ht).
  - intros n g' Hok' Hk' m' t' Hm' Ht'. by apply (updateNode_ok_cached ui n g' m').
  - intros n n' g' Hg' Hk' m' t' Hm' Ht'. apply cached_updateNode. by apply (Hg' Hk' m').
Qed.

(** *** The first extraction, whatever happens afterwards *)

Lemma cached_and_queued_uploadTexture T cmd t ui :
  preserves (cached_and_queued T cmd) (uploadTexture t ui).
Proof.
  intros g [Hc Hq]. unfold uploadTexture.
  destruct (decide _); [done|]. destruct (image g !! tex_ref t); [|done].
  split; simpl; set_solver.
Qed.

Lemma cached_and_queued_submitCommand T cmd c g :
  cached_and_queued T cmd g → cached_and_queued T cmd (submitCommand c false g).
Proof. intros [Hc Hq]. split; simpl; set_solver. Qed.

Lemma cached_and_queued_assign T cmd x g :
  cached_and_queued T cmd g → cached_and_queued T cmd (assignIdToObject x g).2.
Proof.
  intros [Hc Hq]. destruct (assignIdToObject_frame x g) as (_ & Eq & _ & Ec).
  split; by rewrite ?Eq, ?Ec.
Qed.

Lemma cached_and_queued_first t img ui g :
  uuid t ∉ textureCache g → image g !! tex_ref t = Some img →
  cached_and_queued (uuid t) (upload_of t img ui) (uploadTexture t ui g).2.
Proof.
  intros Hn Hi. unfold uploadTexture. rewrite decide_False, Hi by done.
  split; simpl; set_solver.
Qed.

Lemma extractMaterialTextures_first m t img ui g :
  mat_map m = Some t →
  uuid t ∉ textureCache g → image g !! tex_ref t = Some img →
  cached_and_queued (uuid t) (upload_of t img ui) (extractMaterialTextures m ui g).2.
Proof.
  intros Hm Hn Hi. unfold extractMaterialTextures. rewrite Hm. cbn [when_set].
  apply bind_keeps; [by apply cached_and_queued_first|].
  intros _. apply preserves_when_set. intros t'. apply cached_and_queued_uploadTexture.
Qed.

Lemma cached_and_queued_addNode T cmd ui node :
  preserves (cached_and_queued T cmd) (addNode ui node).
Proof.
  unfold addNode. destruct (renderable (kind_of node)); [|apply preserves_ret].
  apply preserves_bind.
  { apply preserves_run_assign. intros x g. apply cached_and_queued_assign. }
  intros id. apply preserves_bind.
  - apply preserves_materials; [apply cached_and_queued_uploadTexture|done].
  - intros _. apply preserves_lift. intros g. apply cached_and_queued_submitCommand.
Qed.

Lemma cached_and_queued_updateNode T cmd ui node :
  preserves (cached_and_queued T cmd) (updateNode ui node).
Proof.
  unfold updateNode.
  assert (H1 : ∀ m, preserves (cached_and_queued T cmd)
    (extractMaterialTextures m ui ;;
     id ← gets (fun g => meshId g !! ref_of node);
     lift (submitCommand (updateMaterial_cmd m id) false))).
  { intros m. apply preserves_bind.
    - apply preserves_extractMaterialTextures, cached_and_queued_uploadTexture.
    - intros _. apply preserves_bind; [apply preserves_gets|intros id].
      apply preserves_lift. intros g. apply cached_and_queued_submitCommand. }
  destruct (kind_of node), (material_of node);
    first [apply preserves_ret | apply preserves_throw | apply H1].
Qed.

Lemma assignIdToObject_image x g : image (assignIdToObject x g).2 = image g.
Proof.
  unfold assignIdToObject. destruct (availableObjectIds g); [|done].
  simpl. by destruct (maxEntityCount <? objectId g + 1).
Qed.

Lemma cached_and_queued_extract_delete m t img ui g :
  mat_map m = Some t →
  uuid t ∉ textureCache g → image g !! tex_ref t = Some img →
  cached_and_queued (uuid t) (upload_of t img ui)
    ((extractMaterialTextures m ui ;; deleteImages m) g).2.
Proof.
  intros Hm Hn Hi. apply bind_keeps; [by apply extractMaterialTextures_first|].
  intros _. by apply preserves_deleteImages.
Qed.

Lemma addObjectToScene_first x k m children t img ui g :
  renderable k = true → mat_map m = Some t →
  uuid t ∉ textureCache g → image g !! tex_ref t = Some img →
  cached_and_queued (uuid t) (upload_of t img ui)
    (addObjectToScene (Node x k (OneMaterial m) children) ui g).2.
Proof.
  intros Hk Hm Hn Hi. unfold addObjectToScene. cbn [traverse for_each].
  apply bind_keeps.
  2:{ intros _. apply preserves_for_each. intros n. apply cached_and_queued_addNode. }
  unfold addNode. cbn [kind_of ref_of material_of]. rewrite Hk.
  unfold mbind at 1, M_bind at 1, run.
  destruct (assignIdToObject_frame x g) as (_ & _ & _ & Ec).
  pose proof (assignIdToObject_image x g) as Ei.
  destruct (assignIdToObject x g) as [id g1]. cbn [snd] in Ec, Ei.
  apply bind_keeps.
  - apply cached_and_queued_extract_delete; [done|by rewrite Ec|by rewrite Ei].
  - intros _. apply preserves_lift. intros g'. apply cached_and_queued_submitCommand.
Qed.

Lemma updateMaterial_first x k m children t img ui g :
  mesh_or_sprite k = true → mat_map m = Some t →
  uuid t ∉ textureCache g → image g !! tex_ref t = Some img →
  cached_and_queued (uuid t) (upload_of t img ui)
    (updateMaterial (Node x k (OneMaterial m) children) ui g).2.
Proof.
  intros Hk Hm Hn Hi. unfold updateMaterial. cbn [traverse for_each].
  apply bind_keeps.
  2:{ intros _. apply preserves_for_each. intros n. apply cached_and_queued_updateNode. }
  assert (E : updateNode ui (Node x k (OneMaterial m) children) =
              (extractMaterialTextures m ui ;;
               id ← gets (fun g => meshId g !! x);
               lift (submitCommand (updateMaterial_cmd m id) false)))
    by by destruct k.
  rewrite E. apply bind_keeps; [by apply extractMaterialTextures_first|].
  intros _. apply preserves_bind; [apply preserves_gets|intros id].
  apply preserves_lift. intros g'. apply cached_and_queued_submitCommand.
Qed.

(** *** Counting the commands against the cache *)

Lemma uploads_emitted T g g' : emitted g' = emitted g → uploads T g' = uploads T g.
Proof. unfold uploads. by intros ->. Qed.

Lemma uploads_follow_cache_refl T g : uploads_follow_cache T g g.
Proof.
  split; [done|]. rewrite decide_False; [lia|]. by intros [? ?].
Qed.

Lemma uploads_follow_cache_frame T g0 g g' :
  emitted g' = emitted g → textureCache g' = textureCache g →
  uploads_follow_cache T g0 g → uploads_follow_cache T g0 g'.
Proof.
  unfold uploads_follow_cache. intros He Hc. by rewrite (uploads_emitted T g g' He), Hc.
Qed.

Lemma uploads_follow_cache_submitCommand T g0 cmd immediate g :
  (∀ T, carries T cmd = false) →
  uploads_follow_cache T g0 g → uploads_follow_cache T g0 (submitCommand cmd immediate g).
Proof.
  intros Hcmd [Hs Hu]. split; [by destruct immediate|].
  rewrite uploads_submitCommand, Hcmd, Hu. destruct immediate; simpl; lia.
Qed.

Lemma uploads_follow_cache_uploadTexture T g0 t ui :
  preserves (uploads_follow_cache T g0) (uploadTexture t ui).
Proof.
  intros g [Hs Hu]. unfold uploadTexture.
  destruct (decide (uuid t ∈ textureCache g)) as [Hin|Hnin]; [done|].
  destruct (image g !! tex_ref t) as [img|]; [|done].
  cbn [snd]. split; [simpl; set_solver|].
  rewrite uploads_submitCommand. cbn [carries].
  assert (E : uploads T (set_textureCache (fun c => c ∪ {[uuid t]}) g) = uploads T g)
    by done.
  rewrite E, Hu. simpl textureCache.
  destruct (decide (uuid t = T)) as [<-|Hne].
  - rewrite bool_decide_eq_true_2 by done.
    rewrite (decide_False (P := _ ∧ _)) by (intros [? ?]; done).
    rewrite decide_True; [lia|]. set_solver.
  - rewrite bool_decide_eq_false_2 by done.
    destruct (decide (T ∈ textureCache g ∧ T ∉ textureCache g0)) as [[? ?]|Hno].
    + rewrite decide_True; [lia|]. set_solver.
    + rewrite decide_False; [lia|]. set_solver.
Qed.

Lemma uploads_follow_cache_perform T g e :
  uploads_follow_cache T g (perform g e).
Proof.
  apply (preserves_perform (uploads_follow_cache T g)).
  - apply uploads_follow_cache_uploadTexture.
  - intros g' f. by apply uploads_follow_cache_frame.
  - intros x g'. destruct (assignIdToObject_frame x g') as (_ & Hq & Hw & Hc).
    apply uploads_follow_cache_frame; [|done]. unfold emitted. by rewrite Hq, Hw.
  - intros cmd g'. apply uploads_follow_cache_submitCommand.
  - intros g' h msg. by apply uploads_follow_cache_frame.
  - intros cmd g'. apply uploads_follow_cache_submitCommand.
  - intros g'. rewrite flushCommands_eq. apply uploads_follow_cache_frame; [|done].
    unfold emitted. simpl. by rewrite app_nil_r.
  - intros g' f. by apply uploads_follow_cache_frame.
  - intros g' id. by apply uploads_follow_cache_frame.
  - intros g' i w. by apply uploads_follow_cache_frame.
  - apply uploads_follow_cache_refl.
Qed.

Lemma uploads_follow_cache_extractMaterialTextures T m ui g :
  uploads_follow_cache T g (extractMaterialTextures m ui g).2.
Proof.
  apply (preserves_extractMaterialTextures (uploads_follow_cache T g)).
  - apply uploads_follow_cache_uploadTexture.
  - apply uploads_follow_cache_refl.
Qed.

Lemma uploads_first T g g' :
  uploads_follow_cache T g g' → T ∉ textureCache g → T ∈ textureCache g' →
  uploads T g' = uploads T g + 1.
Proof. intros [_ ->] Hn Hin. by rewrite decide_True. Qed.

Lemma uploads_later T g g' :
  uploads_follow_cache T g g' → T ∈ textureCache g →
  uploads T g' = uploads T g.
Proof. intros [_ ->] Hin. rewrite decide_False; [lia|]. by intros [? ?]. Qed.

(** C5.  At every moment of the life of a [Graphics] instance, whatever was
    called before (registering objects, updating materials, particle
    emitters, removals, ticks, ...), the number of [uploadTexture] commands
    emitted so far for a texture identifier [T] is one if [T] is in the
    cache and zero if not; an identifier in the cache stays there.  An
    extraction of a texture not yet in the cache (whose image is there to
    read) queues the one command for it and enters it in the cache; an
    extraction of a texture already in the cache does nothing.

    Both paths extract.  When [addObjectToScene] returns, the [map] and the
    [alphaMap] of every material of every node it registers are in the
    cache; when [updateMaterial] returns, those of every mesh and sprite of
    the object are; when [extractMaterialTextures] returns, those of its
    material are.  On either path the first extraction of a texture, here
    the [map] of the object's own material, not in the cache and with its
    image, puts its [uploadTexture] command in the queue and the texture
    in the cache, even if the call throws further on, and the count of its
    commands goes up by one.  From any state, any call of the interface
    adds one command for [T] if [T] enters the cache during the call and
    none otherwise; so once [T] is in the cache no call emits a command
    for it again: registering an object and then updating its material
    uploads the texture once. *)
Theorem texture_uploaded_exactly_once :
  (∀ cam world images events T,
     let g := foldl perform (new_Graphics cam world images) events in
     uploads T g = if decide (T ∈ textureCache g) then 1 else 0) ∧
  (∀ g e T, T ∈ textureCache g → T ∈ textureCache (perform g e)) ∧
  (∀ g t ui img,
     uuid t ∉ textureCache g →
     image g !! tex_ref t = Some img →
     uploadTexture t ui g =
       (Ok tt,
        submitCommand
          (uploadTexture_cmd (uuid t) (data img) (width img) (height img) ui) false
          (set_textureCache (fun c => c ∪ {[ uuid t ]}) g))) ∧
  (∀ g t ui, uuid t ∈ textureCache g → uploadTexture t ui g = (Ok tt, g)) ∧
  (∀ m ui g t,
     (extractMaterialTextures m ui g).1 = Ok tt →
     t ∈ extracted_slots m →
     uuid t ∈ textureCache (exec (extractMaterialTextures m ui) g)) ∧
  (∀ object ui g node m t,
     (addObjectToScene object ui g).1 = Ok tt →
     node ∈ traverse object → renderable (kind_of node) = true →
     m ∈ materials_of node → t ∈ extracted_slots m →
     uuid t ∈ textureCache (exec (addObjectToScene object ui) g)) ∧
  (∀ object ui g node m t,
     (updateMaterial object ui g).1 = Ok tt →
     node ∈ traverse object → mesh_or_sprite (kind_of node) = true →
     m ∈ materials_of node → t ∈ extracted_slots m →
     uuid t ∈ textureCache (exec (updateMaterial object ui) g)) ∧
  (∀ m t img ui g,
     mat_map m = Some t →
     uuid t ∉ textureCache g → image g !! tex_ref t = Some img →
     let g' := exec (extractMaterialTextures m ui) g in
     uuid t ∈ textureCache g' ∧ upload_of t img ui ∈ commandQueue g' ∧
     uploads (uuid t) g' = uploads (uuid t) g + 1) ∧
  (∀ x k m children t img ui g,
     renderable k = true → mat_map m = Some t →
     uuid t ∉ textureCache g → image g !! tex_ref t = Some img →
     let g' := exec (addObjectToScene (Node x k (OneMaterial m) children) ui) g in
     uuid t ∈ textureCache g' ∧ upload_of t img ui ∈ commandQueue g' ∧
     uploads (uuid t) g' = uploads (uuid t) g + 1) ∧
  (∀ x k m children t img ui g,
     mesh_or_sprite k = true → mat_map m = Some t →
     uuid t ∉ textureCache g → image g !! tex_ref t = Some img →
     let g' := exec (updateMaterial (Node x k (OneMaterial m) children) ui) g in
     uuid t ∈ textureCache g' ∧ upload_of t img ui ∈ commandQueue g' ∧
     uploads (uuid t) g' = uploads (uuid t) g + 1) ∧
  (∀ g e T,
     uploads T (perform g e) =
       uploads T g +
       (if decide (T ∈ textureCache (perform g e) ∧ T ∉ textureCache g) then 1 else 0)) ∧
  (∀ g e T, T ∈ textureCache g → uploads T (perform g e) = uploads T g) ∧
  (∀ m ui g T,
     T ∈ textureCache g → uploads T (exec (extractMaterialTextures m ui) g) = uploads T g) ∧
  (∀ x k m children t img ui ui' g,
     renderable k = true → mat_map m = Some t →
     uuid t ∉ textureCache g → image g !! tex_ref t = Some img →
     let object := Node x k (OneMaterial m) children in
     uploads (uuid t)
       (exec (updateMaterial object ui') (exec (addObjectToScene object ui) g))
     = uploads (uuid t) g + 1).
Proof.
  split_and!.
  - intros cam world images events T g. apply uploaded_once_history.
  - intros g e T. apply textureCache_grows.
  - intros g t ui img Hnin Himg. unfold uploadTexture.
    rewrite decide_False by done. by rewrite Himg.
  - intros g t ui Hin. unfold uploadTexture. by rewrite decide_True.
  - intros m ui g t. apply extractMaterialTextures_ok_cached.
  - intros object ui g node m t. apply addObjectToScene_ok_cached.
  - intros object ui g node m t. apply updateMaterial_ok_cached.
  - intros m t img ui g Hm Hn Hi g'.
    destruct (extractMaterialTextures_first m t img ui g Hm Hn Hi) as [Hc Hq].
    split_and!; [done|done|].
    by apply uploads_first; [apply uploads_follow_cache_extractMaterialTextures| |].
  - intros x k m children t img ui g Hk Hm Hn Hi g'.
    destruct (addObjectToScene_first x k m children t img ui g Hk Hm Hn Hi) as [Hc Hq].
    split_and!; [done|done|].
    by apply uploads_first;
      [apply (uploads_follow_cache_perform _ g (AddObjectToScene _ ui))| |].
  - intros x k m children t img ui g Hk Hm Hn Hi g'.
    destruct (updateMaterial_first x k m children t img ui g Hk Hm Hn Hi) as [Hc Hq].
    split_and!; [done|done|].
    by apply uploads_first;
      [apply (uploads_follow_cache_perform _ g (UpdateMaterial _ ui))| |].
  - intros g e T. apply uploads_follow_cache_perform.
  - intros g e T. apply uploads_later, uploads_follow_cache_perform.
  - intros m ui g T. apply uploads_later, uploads_follow_cache_extractMaterialTextures.
  - intros x k m children t img ui ui' g Hk Hm Hn Hi object.
    destruct (addObjectToScene_first x k m children t img ui g Hk Hm Hn Hi) as [Hc Hq].
    etrans.
    { exact (uploads_later _ _ _
               (uploads_follow_cache_perform (uuid t) _ (UpdateMaterial object ui')) Hc). }
    by apply uploads_first;
      [apply (uploads_follow_cache_perform _ g (AddObjectToScene _ ui))| |].
Qed.

Lemma texture_uploaded_exactly_once_witness :
  (uploads (uuid brick) textured_scene = 1) ∧
  ((uuid brick ∈ textureCache textured_scene) ∧
   (uuid brick ∈ textureCache (perform textured_scene Update))) ∧
  ((uuid brick ∉ textureCache before_textures) ∧
   image before_textures !! tex_ref brick = Some brick_image ∧
   uploadTexture brick false before_textures =
     (Ok tt,
      submitCommand
        (uploadTexture_cmd "brick" [255; 0; 0; 255; 0; 255; 0; 255]%N 2 1 false) false
        (set_textureCache (fun c => c ∪ {[ "brick" ]}) before_textures))) ∧
  ((uuid brick ∈ textureCache textured_scene) ∧
   uploadTexture brick true textured_scene = (Ok tt, textured_scene)) ∧
  (let m := {| mat_map := Some brick; mat_alphaMap := None; mat_otherMaps := [] |} in
   ((extractMaterialTextures m false before_textures).1 = Ok tt ∧
    brick ∈ extracted_slots m ∧
    uuid brick ∈ textureCache (exec (extractMaterialTextures m false) before_textures)) ∧
   ((addObjectToScene brick_wall false before_textures).1 = Ok tt ∧
    brick_wall ∈ traverse brick_wall ∧ renderable (kind_of brick_wall) = true ∧
    m ∈ materials_of brick_wall ∧
    uuid brick ∈ textureCache (exec (addObjectToScene brick_wall false) before_textures)) ∧
   ((updateMaterial brick_wall false before_textures).1 = Ok tt ∧
    mesh_or_sprite (kind_of brick_wall) = true ∧
    uuid brick ∈ textureCache (exec (updateMaterial brick_wall false) before_textures)) ∧
   (mat_map m = Some brick ∧
    (let g' := exec (extractMaterialTextures m false) before_textures in
     uuid brick ∈ textureCache g' ∧
     upload_of brick brick_image false ∈ commandQueue g' ∧
     uploads (uuid brick) g' = uploads (uuid brick) before_textures + 1) ∧
    (let g' := exec (addObjectToScene brick_wall false) before_textures in
     uuid brick ∈ textureCache g' ∧
     upload_of brick brick_image false ∈ commandQueue g' ∧
     uploads (uuid brick) g' = uploads (uuid brick) before_textures + 1) ∧
    (let g' := exec (updateMaterial brick_wall false) before_textures in
     uuid brick ∈ textureCache g' ∧
     upload_of brick brick_image false ∈ commandQueue g' ∧
     uploads (uuid brick) g' = uploads (uuid brick) before_textures + 1) ∧
    uploads (uuid brick)
      (exec (updateMaterial brick_wall true)
         (exec (addObjectToScene brick_wall false) before_textures))
    = uploads (uuid brick) before_textures + 1)) ∧
  (uploads (uuid brick) (perform textured_scene (UpdateMaterial brick_wall true))
   = uploads (uuid brick) textured_scene) ∧
  (uploads (uuid brick)
     (exec (extractMaterialTextures
              {| mat_map := Some brick; mat_alphaMap := Some brick; mat_otherMaps := [] |}
              true) textured_scene)
   = uploads (uuid brick) textured_scene).
Proof.
  assert (Hin : uuid brick ∈ textureCache textured_scene).
  { apply (bool_decide_unpack _). vm_compute. exact I. }
  assert (Hnin : uuid brick ∉ textureCache before_textures).
  { apply (bool_decide_unpack _). vm_compute. exact I. }
  assert (Himg : image before_textures !! tex_ref brick = Some brick_image).
  { vm_compute. reflexivity. }
  destruct texture_uploaded_exactly_once
    as (H1 & H2 & H3 & H4 & H5 & H6 & H7 & H8 & H9 & H10 & H11 & H12 & H13 & H14).
  split; [|split; [|split; [|split; [|split; [|split]]]]].
  - assert (H : uploads (uuid brick) textured_scene =
                if decide (uuid brick ∈ textureCache textured_scene) then 1 else 0)
      by exact (H1 100 ∅ {[ 1 := brick_image ]} textured_history (uuid brick)).
    rewrite (decide_True _ _ Hin) in H. exact H.
  - split; [exact Hin|]. exact (H2 textured_scene Update (uuid brick) Hin).
  - split; [exact Hnin|]. split; [exact Himg|].
    exact (H3 before_textures brick false brick_image Hnin Himg).
  - split; [exact Hin|]. exact (H4 textured_scene brick true Hin).
  - intros m.
    assert (Hslot : brick ∈ extracted_slots m) by (left).
    assert (Hnode : brick_wall ∈ traverse brick_wall) by (left).
    assert (Hmat : m ∈ materials_of brick_wall) by (left).
    assert (Hk : renderable (kind_of brick_wall) = true) by reflexivity.
    assert (Hk' : mesh_or_sprite (kind_of brick_wall) = true) by reflexivity.
    assert (Hmap : mat_map m = Some brick) by reflexivity.
    assert (Hok1 : (extractMaterialTextures m false before_textures).1 = Ok tt)
      by (vm_compute; reflexivity).
    assert (Hok2 : (addObjectToScene brick_wall false before_textures).1 = Ok tt)
      by (vm_compute; reflexivity).
    assert (Hok3 : (updateMaterial brick_wall false before_textures).1 = Ok tt)
      by (vm_compute; reflexivity).
    split; [|split; [|split]].
    + split; [exact Hok1|]. split; [exact Hslot|].
      exact (H5 m false before_textures brick Hok1 Hslot).
    + split; [exact Hok2|]. split; [exact Hnode|]. split; [exact Hk|].
      split; [exact Hmat|].
      exact (H6 brick_wall false before_textures brick_wall m brick
               Hok2 Hnode Hk Hmat Hslot).
    + split; [exact Hok3|]. split; [exact Hk'|].
      exact (H7 brick_wall false before_textures brick_wall m brick
               Hok3 Hnode Hk' Hmat Hslot).
    + split; [exact Hmap|].
      split; [exact (H8 m brick brick_image false before_textures Hmap Hnin Himg)|].
      split; [exact (H9 1 Mesh m [] brick brick_image false before_textures
                       Hk Hmap Hnin Himg)|].
      split; [exact (H10 1 Mesh m [] brick brick_image false before_textures
                       Hk' Hmap Hnin Himg)|].
      exact (H14 1 Mesh m [] brick brick_image false true before_textures
               Hk Hmap Hnin Himg).
  - exact (H12 textured_scene (UpdateMaterial brick_wall true) (uuid brick) Hin).
  - exact (H13 _ true textured_scene (uuid brick) Hin).
Defined.

(** ** Flushing *)

(** C6.  [flushCommands] posts the queued commands to the worker, each once
    and in the order of submission, after whatever was posted before, and
    leaves the queue empty; nothing else changes.  A submission that is not
    immediate only appends the command to the queue and posts nothing, so
    that it is delivered, once and last, by the next flush. *)
Theorem flush_delivers_queue_in_order g cmd :
  worker (flushCommands g) = worker g ++ commandQueue g ∧
  commandQueue (flushCommands g) = [] ∧
  flushCommands g =
    set_commandQueue (fun _ => []) (set_worker (fun w => w ++ commandQueue g) g) ∧
  worker (submitCommand cmd false g) = worker g ∧
  commandQueue (submitCommand cmd false g) = commandQueue g ++ [cmd] ∧
  submitCommand cmd false g = set_commandQueue (fun q => q ++ [cmd]) g ∧
  worker (flushCommands (submitCommand cmd false g)) =
    worker g ++ commandQueue g ++ [cmd] ∧
  commandQueue (flushCommands (submitCommand cmd false g)) = [].
Proof.
  rewrite !flushCommands_eq. simpl. split_and!; done.
Qed.

(** ** The back-channel *)

(** C7.  A message from the worker makes exactly one call of a hook and
    changes nothing else.  In lib/index.ts a message tagged [log] goes to
    [workerLog] with its payload, one tagged [report] to [workerReport] with
    its payload, and one with any other tag makes [report] say that the
    type is unknown.  The earlier copy of the class has no case for
    [report]: there every message that is not tagged [log], [report]
    included, is reported as of unknown type.  In both, a message that is
    not tagged [log] ends in a call of one of the two error hooks; none is
    dropped. *)
Theorem back_channel_dispatch m g :
  (msg_type m = "log" →
     onmessage m g = call workerLog (msg_message m) g) ∧
  (msg_type m = "report" →
     onmessage m g = call workerReport (msg_message m) g) ∧
  (msg_type m ≠ "log" → msg_type m ≠ "report" →
     onmessage m g = call report ("Unknown message type " +:+ msg_type m) g) ∧
  (msg_type m = "log" →
     onmessage_variant m g = call workerLog (msg_message m) g) ∧
  (msg_type m ≠ "log" →
     onmessage_variant m g = call report ("Unknown message type " +:+ msg_type m) g) ∧
  (∀ h msg, console (call h msg g) = console g ++ [(h, msg)]) ∧
  (msg_type m ≠ "log" →
     ∃ h msg, error_hook h ∧ onmessage m g = call h msg g) ∧
  (msg_type m ≠ "log" →
     ∃ h msg, error_hook h ∧ onmessage_variant m g = call h msg g).
Proof.
  unfold onmessage, onmessage_variant, error_hook. split_and!.
  - intros ->. done.
  - intros ->. done.
  - intros H1 H2. by rewrite !decide_False.
  - intros ->. done.
  - intros H1. by rewrite decide_False.
  - done.
  - intros H1. rewrite decide_False by done.
    destruct (decide (msg_type m = "report")); eauto.
  - intros H1. rewrite decide_False by done. eauto.
Qed.

Lemma back_channel_dispatch_witness :
  let g := example_scene in
  ("log" = "log" ∧
   onmessage {| msg_type := "log"; msg_message := "Ready" |} g
     = call workerLog "Ready" g) ∧
  ("report" = "report" ∧
   onmessage {| msg_type := "report"; msg_message := "lost context" |} g
     = call workerReport "lost context" g) ∧
  ("ping" ≠ "log" ∧ "ping" ≠ "report" ∧
   onmessage {| msg_type := "ping"; msg_message := "x" |} g
     = call report "Unknown message type ping" g) ∧
  ("log" = "log" ∧
   onmessage_variant {| msg_type := "log"; msg_message := "Ready" |} g
     = call workerLog "Ready" g) ∧
  ("report" ≠ "log" ∧
   onmessage_variant {| msg_type := "report"; msg_message := "lost context" |} g
     = call report "Unknown message type report" g).
Proof.
  intros g.
  pose proof (back_channel_dispatch {| msg_type := "log"; msg_message := "Ready" |} g)
    as (L1 & _ & _ & L4 & _ & _).
  pose proof (back_channel_dispatch
                {| msg_type := "report"; msg_message := "lost context" |} g)
    as (_ & R2 & _ & _ & R5 & _).
  pose proof (back_channel_dispatch {| msg_type := "ping"; msg_message := "x" |} g)
    as (_ & _ & P3 & _ & _ & _).
  split; [split; [reflexivity|exact (L1 eq_refl)]|].
  split; [split; [reflexivity|exact (R2 eq_refl)]|].
  split; [split; [discriminate|split; [discriminate|apply P3; discriminate]]|].
  split; [split; [reflexivity|exact (L4 eq_refl)]|].
  split; [discriminate|apply R5; discriminate].
Defined.

(** ** The transform buffer, writer side *)

Lemma foldl_typed_set (f : nat → value) off n s (a : Float32Array) k :
  foldl (fun a i => typed_set a (off + i) (f i)) a (seq s n) !! k =
  if decide (off + s ≤ k < off + s + n ∧ k < length a)
  then Some (fround (to_number (f (k - off))))
  else a !! k.
Proof.
  revert s a. induction n as [|n IH]; intros s a.
  - simpl. rewrite decide_False by lia. done.
  - cbn [seq foldl]. rewrite IH. unfold typed_set. rewrite length_insert.
    destruct (decide (k = off + s)) as [->|Hne].
    + rewrite decide_False by lia.
      destruct (decide (off + s < length a)) as [Hlt|Hge].
      * rewrite list_lookup_insert_eq by done.
        rewrite decide_True by lia. do 4 f_equal. lia.
      * rewrite list_insert_ge by lia. rewrite decide_False by lia. done.
    + rewrite list_lookup_insert_ne by done.
      destruct (decide (off + S s ≤ k < off + S s + n ∧ k < length a)).
      * rewrite decide_True by lia. done.
      * rewrite decide_False by lia. done.
Qed.

Lemma foldl_typed_set_length (f : nat → value) off l (a : Float32Array) :
  length (foldl (fun a i => typed_set a (off + i) (f i)) a l) = length a.
Proof.
  revert a. induction l as [|i l IH]; intros a; [done|].
  simpl. rewrite IH. apply length_insert.
Qed.

Lemma writeRecord_length g a e : length (writeRecord g a e) = length a.
Proof. apply foldl_typed_set_length. Qed.

Lemma writeRecord_lookup g a id obj k :
  writeRecord g a (id, obj) !! k =
  if decide (id * elementsPerTransform ≤ k < id * elementsPerTransform + elementsPerTransform
             ∧ k < length a)
  then Some (fround (to_number (element (world_of g obj) (k - id * elementsPerTransform))))
  else a !! k.
Proof.
  unfold writeRecord. cbn [fst snd]. rewrite foldl_typed_set.
  destruct (decide (id * elementsPerTransform ≤ k
                    < id * elementsPerTransform + elementsPerTransform ∧ k < length a)).
  - rewrite decide_True by lia. done.
  - rewrite decide_False by lia. done.
Qed.

Lemma foldl_writeRecord_length g l a :
  length (foldl (writeRecord g) a l) = length a.
Proof.
  revert a. induction l as [|e l IH]; intros a; [done|].
  simpl. by rewrite IH, writeRecord_length.
Qed.

Lemma foldl_writeRecord_lookup g (l : list (nat * objref)) a id i :
  NoDup l.*1 → i < elementsPerTransform →
  foldl (writeRecord g) a l !! (id * elementsPerTransform + i) =
  match (list_to_map l : gmap nat objref) !! id with
  | Some obj =>
      if decide (id * elementsPerTransform + i < length a)
      then Some (fround (to_number (element (world_of g obj) i)))
      else None
  | None => a !! (id * elementsPerTransform + i)
  end.
Proof.
  intros Hnd Hi. revert a. induction l as [|[id' obj'] l IH]; intros a.
  - simpl. by rewrite lookup_empty.
  - rewrite fmap_cons in Hnd. apply NoDup_cons in Hnd as [Hnin Hnd].
    simpl. rewrite IH by done. rewrite writeRecord_length.
    destruct (decide (id' = id)) as [->|Hne].
    + rewrite lookup_insert_eq.
      rewrite (not_elem_of_list_to_map_1 _ id) by done.
      rewrite writeRecord_lookup.
      destruct (decide (id * elementsPerTransform + i < length a)).
      * rewrite decide_True by (unfold elementsPerTransform in *; lia).
        do 4 f_equal. lia.
      * rewrite decide_False by lia. apply lookup_ge_None. lia.
    + rewrite lookup_insert_ne by done.
      rewrite writeRecord_lookup.
      rewrite decide_False by (unfold elementsPerTransform in *; lia). done.
Qed.

(** What the buffer holds after [writeTransformsToArray]: the record of an
    identity in the table holds the rounded elements of its object's world
    matrix, as far as the buffer reaches; the other records are untouched. *)
Lemma writeTransformsToArray_lookup g id i :
  i < elementsPerTransform →
  array (writeTransformsToArray g) !! (id * elementsPerTransform + i) =
  match idToObject g !! id with
  | Some obj =>
      if decide (id * elementsPerTransform + i < length (array g))
      then Some (fround (to_number (element (world_of g obj) i)))
      else None
  | None => array g !! (id * elementsPerTransform + i)
  end.
Proof.
  intros Hi. unfold writeTransformsToArray. simpl.
  rewrite foldl_writeRecord_lookup by (done || apply NoDup_fst_map_to_list).
  by rewrite list_to_map_to_list.
Qed.

Lemma writeTransformsToArray_length g :
  length (array (writeTransformsToArray g)) = length (array g).
Proof. unfold writeTransformsToArray. simpl. apply foldl_writeRecord_length. Qed.

Lemma update_lookup g id i :
  i < elementsPerTransform →
  array (update g) !! (id * elementsPerTransform + i) =
  match idToObject g !! id with
  | Some obj =>
      if decide (id * elementsPerTransform + i < length (array g))
      then Some (fround (to_number (element (world_of g obj) i)))
      else None
  | None => array g !! (id * elementsPerTransform + i)
  end.
Proof.
  intros Hi. unfold update. rewrite writeTransformsToArray_lookup by done.
  by rewrite flushCommands_eq.
Qed.

Lemma record_indices_spec id k :
  k ∈ record_indices id ↔
  ∃ i, i < elementsPerTransform ∧ k = id * elementsPerTransform + i.
Proof.
  unfold record_indices. rewrite elem_of_seq. split.
  - intros [H1 H2]. exists (k - id * elementsPerTransform). lia.
  - intros (i & Hi & ->). lia.
Qed.

(** C9, as amended.  After a tick, for every identity [id] below
    [maxEntityCount] that the table assigns to an object, the sixteen floats
    from index [16 * id] on are the elements of the object's world matrix,
    each rounded to 32 bits, in the order of three.js's [elements] array,
    which is column-major: the entry in row [r] and column [c] is at
    [4 * c + r] within the record.  The record lies inside the buffer, and
    records of different identities share no index. *)
Theorem transform_records_column_major g id obj :
  idToObject g !! id = Some obj →
  id < maxEntityCount →
  length (array g) = elementsPerTransform * maxEntityCount →
  (∀ i, i < elementsPerTransform →
     array (update g) !! (id * elementsPerTransform + i)
     = Some (fround (to_number (element (world_of g obj) i)))) ∧
  (∀ r c, r < 4 → c < 4 →
     array (update g) !! (id * elementsPerTransform + (4 * c + r))
     = Some (fround (to_number (entry (world_of g obj) r c)))) ∧
  (∀ k, k ∈ record_indices id → k < length (array (update g))) ∧
  (∀ id' k, id' ≠ id → k ∈ record_indices id → k ∉ record_indices id').
Proof.
  intros Hobj Hid Hlen.
  assert (H16 : ∀ i, i < elementsPerTransform →
            array (update g) !! (id * elementsPerTransform + i)
            = Some (fround (to_number (element (world_of g obj) i)))).
  { intros i Hi. rewrite update_lookup, Hobj by done.
    rewrite decide_True; [done|]. rewrite Hlen.
    unfold elementsPerTransform in *. lia. }
  split_and!.
  - exact H16.
  - intros r c Hr Hc. unfold entry. apply H16. unfold elementsPerTransform. lia.
  - intros k (i & Hi & ->)%record_indices_spec.
    unfold update. rewrite writeTransformsToArray_length, flushCommands_eq. simpl.
    rewrite Hlen. unfold elementsPerTransform in *. lia.
  - intros id' k Hne (i & Hi & ->)%record_indices_spec
           (j & Hj & E)%record_indices_spec.
    unfold elementsPerTransform in *. lia.
Qed.

Lemma transform_records_column_major_witness :
  idToObject shifted_scene !! 1 = Some 1 ∧
  1 < maxEntityCount ∧
  length (array shifted_scene) = elementsPerTransform * maxEntityCount ∧
  (∀ i, i < elementsPerTransform →
     array (update shifted_scene) !! (1 * elementsPerTransform + i)
     = Some (fround (to_number (element (world_of shifted_scene 1) i)))) ∧
  (∀ r c, r < 4 → c < 4 →
     array (update shifted_scene) !! (1 * elementsPerTransform + (4 * c + r))
     = Some (fround (to_number (entry (world_of shifted_scene 1) r c)))) ∧
  (∀ k, k ∈ record_indices 1 → k < length (array (update shifted_scene))) ∧
  (∀ id' k, id' ≠ 1 → k ∈ record_indices 1 → k ∉ record_indices id').
Proof.
  assert (H1 : idToObject shifted_scene !! 1 = Some 1) by (vm_compute; reflexivity).
  assert (H2 : 1 < maxEntityCount) by (unfold maxEntityCount; lia).
  assert (H3 : length (array shifted_scene) = elementsPerTransform * maxEntityCount)
    by (vm_compute; reflexivity).
  split; [exact H1|]. split; [exact H2|]. split; [exact H3|].
  exact (transform_records_column_major shifted_scene 1 1 H1 H2 H3).
Defined.

(** C9 as stated fails.  Mesh 1 of [shifted_scene] is moved by 5 along x:
    the entry of its world matrix in row 0 and column 3 is 5.  After a tick
    the float at index [4 * 0 + 3] of its record is 0, not 5, which is at
    index [4 * 3 + 0]. *)
Lemma transform_records_not_row_major :
  idToObject shifted_scene !! 1 = Some 1 ∧
  entry (world_of shifted_scene 1) 0 3 = Num five ∧
  array (update shifted_scene) !! (1 * elementsPerTransform + (4 * 0 + 3)) = Some zero ∧
  array (update shifted_scene) !! (1 * elementsPerTransform + (4 * 3 + 0))
    = Some (fround five) ∧
  array (update shifted_scene) !! (1 * elementsPerTransform + (4 * 0 + 3))
    ≠ Some (fround (to_number (entry (world_of shifted_scene 1) 0 3))).
Proof.
  split_and!; [vm_compute; reflexivity..|].
  vm_compute. discriminate.
Qed.

(** ** Identities past the end of the buffer *)

Lemma flushCommands_set_idToObject f g :
  flushCommands (set_idToObject f g) = set_idToObject f (flushCommands g).
Proof. rewrite !flushCommands_eq. by apply Graphics_eq. Qed.

Lemma writeTransformsToArray_delete_out_of_range g id obj :
  idToObject g !! id = Some obj →
  length (array g) ≤ id * elementsPerTransform →
  array (writeTransformsToArray g) =
  array (writeTransformsToArray (set_idToObject (delete id) g)).
Proof.
  intros Hobj Hid. apply list_eq. intros k.
  assert (Hk : k = k `div` elementsPerTransform * elementsPerTransform
                   + k `mod` elementsPerTransform).
  { rewrite Nat.mul_comm. by apply Nat.div_mod_eq. }
  assert (Hi : k `mod` elementsPerTransform < elementsPerTransform).
  { by apply Nat.mod_upper_bound. }
  set (d := k `div` elementsPerTransform) in *.
  set (m := k `mod` elementsPerTransform) in *.
  clearbody d m. subst k.
  rewrite !writeTransformsToArray_lookup by done. simpl.
  destruct (decide (d = id)) as [->|Hne].
  - rewrite Hobj, lookup_delete_eq. rewrite decide_False by lia.
    symmetry. apply lookup_ge_None. lia.
  - by rewrite lookup_delete_ne.
Qed.

(** C10.  If the table assigns to an object an identity [id] whose record
    would not fit ([16 * id + 15] is at or past [16 * maxEntityCount], the
    length of the buffer), then writing the transforms returns, and leaves
    the buffer exactly as it would be had that entry not been in the table:
    none of the sixteen stores lands, no record of the buffer is touched by
    it, and the buffer keeps its length.  The same holds for a whole tick. *)
Theorem out_of_range_stores_discarded g id obj :
  idToObject g !! id = Some obj →
  elementsPerTransform * maxEntityCount ≤ id * elementsPerTransform + 15 →
  length (array g) = elementsPerTransform * maxEntityCount →
  array (writeTransformsToArray g) =
    array (writeTransformsToArray (set_idToObject (delete id) g)) ∧
  array (update g) = array (update (set_idToObject (delete id) g)) ∧
  (∀ k, k ∈ record_indices id → array (writeTransformsToArray g) !! k = None) ∧
  length (array (writeTransformsToArray g)) = length (array g).
Proof.
  intros Hobj Hid Hlen.
  assert (Hge : length (array g) ≤ id * elementsPerTransform).
  { rewrite Hlen. unfold elementsPerTransform in *. lia. }
  split_and!.
  - by apply (writeTransformsToArray_delete_out_of_range g id obj).
  - unfold update. rewrite flushCommands_set_idToObject.
    apply (writeTransformsToArray_delete_out_of_range _ id obj).
    + by rewrite flushCommands_eq.
    + by rewrite flushCommands_eq.
  - intros k (i & Hi & ->)%record_indices_spec.
    apply lookup_ge_None. rewrite writeTransformsToArray_length. lia.
  - apply writeTransformsToArray_length.
Qed.

Lemma out_of_range_stores_discarded_witness :
  idToObject crowded_scene !! 1024 = Some 5000 ∧
  elementsPerTransform * maxEntityCount ≤ 1024 * elementsPerTransform + 15 ∧
  length (array crowded_scene) = elementsPerTransform * maxEntityCount ∧
  array (writeTransformsToArray crowded_scene) =
    array (writeTransformsToArray (set_idToObject (delete 1024) crowded_scene)) ∧
  array (update crowded_scene) =
    array (update (set_idToObject (delete 1024) crowded_scene)) ∧
  (∀ k, k ∈ record_indices 1024 →
        array (writeTransformsToArray crowded_scene) !! k = None) ∧
  length (array (writeTransformsToArray crowded_scene)) = length (array crowded_scene).
Proof.
  assert (H1 : idToObject crowded_scene !! 1024 = Some 5000)
    by (vm_compute; reflexivity).
  assert (H2 : elementsPerTransform * maxEntityCount ≤ 1024 * elementsPerTransform + 15)
    by (unfold elementsPerTransform, maxEntityCount; lia).
  assert (H3 : length (array crowded_scene) = elementsPerTransform * maxEntityCount)
    by (vm_compute; reflexivity).
  split; [exact H1|]. split; [exact H2|]. split; [exact H3|].
  exact (out_of_range_stores_discarded crowded_scene 1024 5000 H1 H2 H3).
Defined.

(** ** The transform buffer, reader side *)

Lemma fromArray_element a offset i :
  i < elementsPerTransform →
  element (fromArray a offset) i = typed_get a (offset + i).
Proof.
  intros Hi. unfold element, fromArray. cbn [elements].
  rewrite list_lookup_fmap, lookup_seq_lt by done. done.
Qed.

Lemma all_zero_first a id :
  all_zero a id = true →
  strict_eq_zero (typed_get a (id * elementsPerTransform)) = true.
Proof.
  unfold all_zero, record_indices. intros H.
  rewrite forallb_forall in H. apply H. apply in_seq.
  unfold elementsPerTransform. lia.
Qed.

(** C8, as amended.  For an identity the renderer knows, the matrix it gives
    the object is decided by the first element of the record alone: the
    uniform scale 0.1 when that element equals zero, and otherwise the
    sixteen values read at the record's offset, unmodified ([undefined]
    where the buffer ends).  So an all-zero record is replaced, and a record
    whose first element is not zero is applied as it is; a record that
    starts with a zero is replaced whatever its other elements are. *)
Theorem first_element_decides_substitution a table id object :
  table !! id = Some object →
  readTransformsFromArray a table !! id =
    Some {| matrix :=
              if strict_eq_zero (typed_get a (id * elementsPerTransform))
              then makeScale one_tenth one_tenth one_tenth
              else fromArray a (id * elementsPerTransform) |} ∧
  (all_zero a id = true →
   readTransformsFromArray a table !! id =
     Some {| matrix := makeScale one_tenth one_tenth one_tenth |}) ∧
  (strict_eq_zero (typed_get a (id * elementsPerTransform)) = false →
   readTransformsFromArray a table !! id =
     Some {| matrix := fromArray a (id * elementsPerTransform) |}) ∧
  (∀ i, i < elementsPerTransform →
        element (fromArray a (id * elementsPerTransform)) i
        = typed_get a (id * elementsPerTransform + i)).
Proof.
  intros Hobj.
  assert (E : readTransformsFromArray a table !! id =
    Some {| matrix :=
              if strict_eq_zero (typed_get a (id * elementsPerTransform))
              then makeScale one_tenth one_tenth one_tenth
              else fromArray a (id * elementsPerTransform) |}).
  { unfold readTransformsFromArray. rewrite map_lookup_imap, Hobj. simpl.
    unfold readRecord. rewrite fromArray_element by (unfold elementsPerTransform; lia).
    by rewrite Nat.add_0_r. }
  split_and!.
  - exact E.
  - intros Hz. by rewrite E, (all_zero_first _ _ Hz).
  - intros Hnz. by rewrite E, Hnz.
  - intros i Hi. by apply fromArray_element.
Qed.

Lemma first_element_decides_substitution_witness :
  renderer_table !! 1 = Some {| matrix := identity |} ∧
  readTransformsFromArray (array example_scene) renderer_table !! 1 =
    Some {| matrix :=
              if strict_eq_zero (typed_get (array example_scene) (1 * elementsPerTransform))
              then makeScale one_tenth one_tenth one_tenth
              else fromArray (array example_scene) (1 * elementsPerTransform) |} ∧
  (all_zero (array example_scene) 1 = true →
   readTransformsFromArray (array example_scene) renderer_table !! 1 =
     Some {| matrix := makeScale one_tenth one_tenth one_tenth |}) ∧
  (strict_eq_zero (typed_get (array example_scene) (1 * elementsPerTransform)) = false →
   readTransformsFromArray (array example_scene) renderer_table !! 1 =
     Some {| matrix := fromArray (array example_scene) (1 * elementsPerTransform) |}) ∧
  (∀ i, i < elementsPerTransform →
        element (fromArray (array example_scene) (1 * elementsPerTransform)) i
        = typed_get (array example_scene) (1 * elementsPerTransform + i)).
Proof.
  assert (H1 : renderer_table !! 1 = Some {| matrix := identity |})
    by (vm_compute; reflexivity).
  split; [exact H1|].
  exact (first_element_decides_substitution
           (array example_scene) renderer_table 1 {| matrix := identity |} H1).
Defined.

(** C8 as stated fails.  Mesh 1 of [flattened_scene] has x scale 0, so its
    record starts with a zero but is not all-zero (its elements 5, 10 and
    15 are 1).  The renderer does not apply it: it replaces it by the
    uniform scale 0.1. *)
Lemma flattened_record_replaced :
  let a := array flattened_scene in
  renderer_table !! 1 = Some {| matrix := identity |} ∧
  all_zero a 1 = false ∧
  typed_get a (1 * elementsPerTransform + 5) = Num one ∧
  readTransformsFromArray a renderer_table !! 1 =
    Some {| matrix := makeScale one_tenth one_tenth one_tenth |} ∧
  readTransformsFromArray a renderer_table !! 1 ≠
    Some {| matrix :=
              if all_zero a 1 then makeScale one_tenth one_tenth one_tenth
              else fromArray a (1 * elementsPerTransform) |}.
Proof.
  intros a. split_and!; [vm_compute; reflexivity..|].
  vm_compute. discriminate.
Qed.

(** * Further properties of the controller and the renderer *)

(** * Further properties *)

(** ** Immediate and queued commands *)

(** X1.  An immediate command overtakes the commands that are queued: it is
    posted at once, the queued ones only at the next flush, in their order
    of submission. *)
Theorem immediate_overtakes_queued g c1 c2 :
  worker (submitCommand c2 true (submitCommand c1 false g)) = worker g ++ [c2] ∧
  commandQueue (submitCommand c2 true (submitCommand c1 false g))
    = commandQueue g ++ [c1] ∧
  worker (flushCommands (submitCommand c2 true (submitCommand c1 false g)))
    = worker g ++ [c2] ++ commandQueue g ++ [c1].
Proof.
  rewrite flushCommands_eq. simpl. split_and!; [done..|].
  by rewrite <- app_assoc.
Qed.

(** ** [init] and identity 0 *)

Lemma removeObjectFromScene_nothing_held o g :
  released_ids g o = [] → removeObjectFromScene o g = g.
Proof.
  intros E. rewrite removeObjectFromScene_eq, E.
  apply Graphics_eq; simpl; by rewrite ?app_nil_r.
Qed.

Lemma Graphics_init_new cam world images canvas w h r :
  Graphics_init canvas w h r (new_Graphics cam world images) =
  submitCommand (resize w h r) false
    (submitCommand (init canvas) true
       (set_meshId (insert cam 0)
          (set_idToObject (insert 0 cam)
             (set_objectId (fun n => n + 1) (new_Graphics cam world images))))).
Proof. unfold Graphics_init. by rewrite assignIdToObject_fresh. Qed.

Lemma after_init_facts cam world images canvas w h r g :
  g = submitCommand (resize w h r) false
        (submitCommand (init canvas) true
           (set_meshId (insert cam 0)
              (set_idToObject (insert 0 cam)
                 (set_objectId (fun n => n + 1) (new_Graphics cam world images))))) →
  meshId g !! cam = Some 0 ∧
  idToObject g = {[ 0 := cam ]} ∧
  objectId g = 1 ∧
  worker g = [init canvas] ∧
  commandQueue g = [resize w h r] ∧
  (∀ x k m ui, renderable k = true →
     meshId (exec (addObjectToScene (Node x k m []) ui) g) !! x = Some 1) ∧
  (∀ k m, removeObjectFromScene (Node cam k m []) g = g).
Proof.
  intros Eg. split_and!.
  - rewrite Eg. simpl. by rewrite lookup_insert_eq.
  - rewrite Eg. simpl. by rewrite insert_empty.
  - by rewrite Eg.
  - by rewrite Eg.
  - by rewrite Eg.
  - intros x k m ui Hk.
    assert (Hv := addObjectToScene_leaf_allocator x k m ui g Hk).
    apply (f_equal snd) in Hv. simpl in Hv. rewrite Hv.
    rewrite assignIdToObject_fresh by (by rewrite Eg).
    simpl. rewrite lookup_insert_eq. by rewrite Eg.
  - intros k m. apply removeObjectFromScene_nothing_held.
    unfold released_ids, held. simpl. rewrite Eg. simpl.
    by rewrite lookup_insert_eq.
Qed.

(** X2.  When [init] is the first thing called on a new instance, the camera
    gets identity 0 and the counter stands at 1; the [init] command is
    posted at once and one [resize] command is queued; the first object
    registered afterwards gets identity 1; and removing the camera changes
    nothing, because its identity 0 counts as no identity.  Called on an
    instance whose free list is empty, [init] gives the camera the counter's
    value, which is 0 only if nothing was registered before. *)
Theorem init_first_gives_camera_zero cam world images canvas w h r :
  (let g := Graphics_init canvas w h r (new_Graphics cam world images) in
   meshId g !! cam = Some 0 ∧
   idToObject g = {[ 0 := cam ]} ∧
   objectId g = 1 ∧
   worker g = [init canvas] ∧
   commandQueue g = [resize w h r] ∧
   (∀ x k m ui, renderable k = true →
      meshId (exec (addObjectToScene (Node x k m []) ui) g) !! x = Some 1) ∧
   (∀ k m, removeObjectFromScene (Node cam k m []) g = g)) ∧
  (∀ g', availableObjectIds g' = [] →
     meshId (Graphics_init canvas w h r g') !! camera g' = Some (objectId g')).
Proof.
  split.
  - exact (after_init_facts cam world images canvas w h r _
             (Graphics_init_new cam world images canvas w h r)).
  - intros g' Hfree. unfold Graphics_init.
    rewrite assignIdToObject_fresh by done. simpl. by rewrite lookup_insert_eq.
Qed.

Lemma released_ids_nonzero g o : 0 ∉ released_ids g o.
Proof.
  unfold released_ids. intros (node & _ & H)%list_elem_of_omap.
  apply held_Some in H as [_ H]. done.
Qed.

Lemma assignIdToObject_free_subset x g id :
  id ∈ availableObjectIds (assignIdToObject x g).2 → id ∈ availableObjectIds g.
Proof.
  destruct (availableObjectIds g) as [|r rest] eqn:E.
  - rewrite assignIdToObject_fresh by done. simpl.
    destruct (maxEntityCount <? objectId g + 1); simpl; by rewrite E.
  - rewrite (assignIdToObject_recycled _ _ r rest) by done. simpl.
    intros ?. by right.
Qed.

Lemma uploadTexture_allocator t ui g :
  allocator_view (uploadTexture t ui g).2 = allocator_view g.
Proof.
  unfold uploadTexture. destruct (decide (uuid t ∈ textureCache g)); [done|].
  by destruct (image g !! tex_ref t).
Qed.

(** X3.  Identity 0 is never recycled: whatever is called on an instance,
    and in whatever order, 0 never gets onto the free list; so an object
    that holds identity 0, such as the camera, keeps it for good. *)
Theorem zero_never_recycled cam world images events :
  0 ∉ availableObjectIds (foldl perform (new_Graphics cam world images) events).
Proof.
  set (P := fun g : Graphics => 0 ∉ availableObjectIds g).
  assert (Hup : ∀ t ui, preserves P (uploadTexture t ui)).
  { intros t ui g Hg. unfold P.
    assert (E := uploadTexture_allocator t ui g).
    unfold allocator_view in E. by injection E as _ -> _ _. }
  assert (Has : ∀ x g, P g → P (assignIdToObject x g).2).
  { intros x g Hg Hin. apply Hg. by apply (assignIdToObject_free_subset x). }
  assert (Hstep : ∀ e g, P g → P (perform g e)).
  { intros e g Hg. destruct e; simpl.
    - unfold Graphics_init. by apply Has.
    - done.
    - unfold update. by rewrite flushCommands_eq.
    - by rewrite flushCommands_eq.
    - by apply (preserves_updateMaterial P).
    - unfold P. rewrite removeObjectFromScene_eq. simpl.
      intros [?|?]%elem_of_app; [done|]. by eapply released_ids_nonzero.
    - by apply (preserves_addObjectToScene P).
    - by apply (preserves_createParticleEmitter P).
    - unfold onmessage. by repeat case_decide.
    - done. }
  assert (Hall : ∀ evs g, P g → P (foldl perform g evs)).
  { induction evs as [|e evs IH]; intros g Hg; [done|].
    simpl. apply IH. by apply Hstep. }
  apply Hall. unfold P. simpl. apply not_elem_of_nil.
Qed.

(** ** Counting identities *)

(** X4.  In a run of admissible allocations and releases no identity is
    lost or counted twice: the entries of the table and the identities on
    the free list together are exactly the identities below the counter, so
    their numbers add up to the counter. *)
Theorem identities_conserved cam world images ops :
  admissible_trace (new_Graphics cam world images, ∅) ops →
  let g := (foldl step (new_Graphics cam world images, ∅) ops).1 in
  size (idToObject g) + length (availableObjectIds g) = objectId g ∧
  (∀ id, id < objectId g ↔
         id ∈ availableObjectIds g ∨ is_Some (idToObject g !! id)).
Proof.
  intros Hadm g.
  assert (Hok : allocator_ok (foldl step (new_Graphics cam world images, ∅) ops)).
  { apply allocator_ok_trace; [apply allocator_ok_new|done]. }
  destruct Hok as [Hlt Hfree Hnd Hun Hused _]. fold g in Hlt, Hfree, Hnd, Hun, Hused.
  assert (Hiff : ∀ id, id < objectId g ↔
                       id ∈ availableObjectIds g ∨ is_Some (idToObject g !! id)).
  { intros id. split; [apply Hused|].
    intros [?|[x Hx]]; [by apply Hfree|by eapply Hlt]. }
  split; [|exact Hiff].
  assert (E : dom (idToObject g) ∪ list_to_set (availableObjectIds g)
              = (set_seq 0 (objectId g) : gset nat)).
  { apply set_eq. intros id.
    rewrite elem_of_union, elem_of_dom, elem_of_list_to_set, elem_of_set_seq.
    specialize (Hiff id). split; [intros; split; [lia|tauto]|intros [_ ?]; tauto]. }
  assert (Hdisj : dom (idToObject g) ## (list_to_set (availableObjectIds g) : gset nat)).
  { intros id [x Hx]%elem_of_dom Hin%elem_of_list_to_set.
    apply Hun in Hin. congruence. }
  rewrite <- size_dom, <- (size_list_to_set (C := gset nat)) by done.
  rewrite <- size_union by done. rewrite E. apply size_set_seq.
Qed.

Lemma identities_conserved_witness :
  let ops := [allocate 10; allocate 11; release (mesh 11); allocate 12] in
  admissible_trace (new_Graphics 10 ∅ ∅, ∅) ops ∧
  let g := (foldl step (new_Graphics 10 ∅ ∅, ∅) ops).1 in
  size (idToObject g) + length (availableObjectIds g) = objectId g ∧
  (∀ id, id < objectId g ↔
         id ∈ availableObjectIds g ∨ is_Some (idToObject g !! id)).
Proof.
  intros ops.
  assert (Hadm : admissible_trace (new_Graphics 10 ∅ ∅, ∅) ops).
  { simpl. split_and!; try done.
    - vm_compute. apply NoDup_singleton.
    - intros x. vm_compute released. intros ->%list_elem_of_singleton.
      apply elem_of_union. right. by apply elem_of_singleton. }
  split; [exact Hadm|].
  exact (identities_conserved 10 ∅ ∅ ops Hadm).
Defined.

(** ** What goes wrong after a second removal or a second registration *)

(** X5.  After an object has been removed twice its identity is on the free
    list twice, and the next two allocations both return it: the second
    takes the table's entry from the first, so two objects hold the same
    identity and the table knows only the later one. *)
Theorem double_removal_shares_identity g o id x y :
  availableObjectIds g = [] →
  released_ids g o = [id] →
  x ≠ y →
  let g2 := removeObjectFromScene o (removeObjectFromScene o g) in
  let r1 := assignIdToObject x g2 in
  let r2 := assignIdToObject y r1.2 in
  r1.1 = id ∧ r2.1 = id ∧
  meshId r2.2 !! x = Some id ∧ meshId r2.2 !! y = Some id ∧
  idToObject r2.2 !! id = Some y.
Proof.
  intros Hfree Ho Hxy g2 r1 r2.
  assert (Ho' : released_ids (removeObjectFromScene o g) o = [id]).
  { rewrite <- Ho. apply released_ids_meshId, foldl_removeNode_meshId. }
  assert (E2 : availableObjectIds g2 = [id; id]).
  { unfold g2. rewrite (removeObjectFromScene_eq o (removeObjectFromScene o g)), Ho'.
    simpl. rewrite removeObjectFromScene_eq, Ho. simpl. by rewrite Hfree. }
  unfold r2, r1.
  rewrite (assignIdToObject_recycled x g2 id [id]) by done. cbn [fst snd].
  rewrite (assignIdToObject_recycled y _ id []) by done. simpl.
  rewrite lookup_insert_ne by done.
  rewrite !lookup_insert_eq. done.
Qed.

Lemma double_removal_shares_identity_witness :
  availableObjectIds example_scene = [] ∧
  released_ids example_scene (mesh 3) = [3] ∧
  7 ≠ 8 ∧
  let g2 := removeObjectFromScene (mesh 3) (removeObjectFromScene (mesh 3) example_scene) in
  let r1 := assignIdToObject 7 g2 in
  let r2 := assignIdToObject 8 r1.2 in
  r1.1 = 3 ∧ r2.1 = 3 ∧
  meshId r2.2 !! 7 = Some 3 ∧ meshId r2.2 !! 8 = Some 3 ∧
  idToObject r2.2 !! 3 = Some 8.
Proof.
  assert (H1 : availableObjectIds example_scene = []) by (vm_compute; reflexivity).
  assert (H2 : released_ids example_scene (mesh 3) = [3]) by (vm_compute; reflexivity).
  assert (H3 : 7 ≠ 8) by discriminate.
  split; [exact H1|]. split; [exact H2|]. split; [exact H3|].
  exact (double_removal_shares_identity example_scene (mesh 3) 3 7 8 H1 H2 H3).
Defined.

(** X6.  Registering an object a second time without removing it first
    gives it a second identity and leaves the first one behind: in a sound
    allocator state the two identities differ, and when the object is then
    removed only the second is released; the first stays in the table,
    assigned to the object, and is not on the free list. *)
Theorem second_registration_leaks_identity g live x :
  allocator_ok (g, live) →
  let r1 := assignIdToObject x g in
  let r2 := assignIdToObject x r1.2 in
  r1.1 ≠ r2.1 ∧
  meshId r2.2 !! x = Some r2.1 ∧
  idToObject r2.2 !! r1.1 = Some x ∧
  (∀ k m,
     let g' := removeObjectFromScene (Node x k m []) r2.2 in
     idToObject g' !! r1.1 = Some x ∧ r1.1 ∉ availableObjectIds g').
Proof.
  intros Hok r1 r2.
  assert (Hok1 : allocator_ok (r1.2, live ∪ {[x]})) by by apply allocator_ok_allocate.
  assert (Hok2 : allocator_ok (r2.2, live ∪ {[x]} ∪ {[x]}))
    by by apply allocator_ok_allocate.
  assert (H1 : idToObject r1.2 !! r1.1 = Some x ∧ meshId r1.2 !! x = Some r1.1).
  { unfold r1. destruct (availableObjectIds g) as [|r rest] eqn:E.
    - rewrite assignIdToObject_fresh by done. simpl. by rewrite !lookup_insert_eq.
    - rewrite (assignIdToObject_recycled _ _ r rest) by done. simpl.
      by rewrite !lookup_insert_eq. }
  destruct H1 as [H1 _].
  assert (H2 : r2.1 ≠ r1.1 ∧ idToObject r2.2 = <[r2.1 := x]> (idToObject r1.2)
               ∧ meshId r2.2 !! x = Some r2.1).
  { destruct Hok1 as [Hlt _ _ Hun _ _]. simpl in Hlt, Hun.
    unfold r2. destruct (availableObjectIds r1.2) as [|r rest] eqn:E.
    - rewrite assignIdToObject_fresh by done. simpl.
      split_and!.
      + apply Hlt in H1. lia.
      + by destruct (maxEntityCount <? objectId r1.2 + 1).
      + by rewrite lookup_insert_eq.
    - rewrite (assignIdToObject_recycled _ _ r rest) by done. simpl.
      split_and!; [|done|by rewrite lookup_insert_eq].
      intros ->. assert (Hr : idToObject r1.2 !! r1.1 = None) by (apply Hun; left).
      congruence. }
  destruct H2 as (Hne & Ht & Hm).
  assert (H3 : idToObject r2.2 !! r1.1 = Some x).
  { rewrite Ht, lookup_insert_ne by done. done. }
  assert (Hnin : r1.1 ∉ availableObjectIds r2.2).
  { destruct Hok2 as [_ _ _ Hun _ _]. simpl in Hun.
    intros Hin%Hun. congruence. }
  split_and!; [done..|].
  intros k m g'. unfold g'. rewrite removeObjectFromScene_eq. simpl.
  rewrite lookup_foldl_delete.
  assert (Hids : ∀ i, i ∈ released_ids r2.2 (Node x k m []) → i = r2.1).
  { intros i. unfold released_ids. simpl.
    destruct (held r2.2 (Node x k m [])) as [j|] eqn:Hh; simpl.
    - intros ->%list_elem_of_singleton. apply held_Some in Hh as [Hh _].
      simpl in Hh. congruence.
    - by intros ?%elem_of_nil. }
  split.
  - rewrite decide_False; [done|]. intros Hin%Hids. done.
  - intros [?|Hin%Hids]%elem_of_app; done.
Qed.

Lemma second_registration_leaks_identity_witness :
  allocator_ok (new_Graphics 0 ∅ ∅, ∅) ∧
  let r1 := assignIdToObject 7 (new_Graphics 0 ∅ ∅) in
  let r2 := assignIdToObject 7 r1.2 in
  r1.1 ≠ r2.1 ∧
  meshId r2.2 !! 7 = Some r2.1 ∧
  idToObject r2.2 !! r1.1 = Some 7 ∧
  (∀ k m,
     let g' := removeObjectFromScene (Node 7 k m []) r2.2 in
     idToObject g' !! r1.1 = Some 7 ∧ r1.1 ∉ availableObjectIds g').
Proof.
  split; [apply allocator_ok_new|].
  exact (second_registration_leaks_identity (new_Graphics 0 ∅ ∅) ∅ 7
           (allocator_ok_new 0 ∅ ∅)).
Defined.

(** ** Registration, node by node *)

Lemma only_uploads_refl g : only_uploads g g.
Proof.
  unfold only_uploads. split_and!; try done.
  exists []. by rewrite app_nil_r.
Qed.

Lemma only_uploads_uploadTexture g0 t ui :
  preserves (only_uploads g0) (uploadTexture t ui).
Proof.
  intros g (Hv & Hw & Ha & Hc & Hmw & Hcam & cmds & Hq & Hcmds).
  unfold uploadTexture.
  destruct (decide (uuid t ∈ textureCache g)).
  { unfold only_uploads. split_and!; try done. by exists cmds. }
  destruct (image g !! tex_ref t) as [img|].
  2:{ unfold only_uploads. split_and!; try done. by exists cmds. }
  unfold only_uploads. simpl. split_and!; try done.
  exists (cmds ++ [uploadTexture_cmd (uuid t) (data img) (width img) (height img) ui]).
  split.
  - by rewrite Hq, app_assoc.
  - apply Forall_app. split; [done|]. by constructor.
Qed.

Lemma only_uploads_set_image g0 g f :
  only_uploads g0 g → only_uploads g0 (set_image f g).
Proof. done. Qed.

Lemma only_uploads_materials g0 mf ui :
  preserves (only_uploads g0)
    match mf with
    | NoMaterial => mret tt
    | OneMaterial m => extractMaterialTextures m ui ;; deleteImages m
    | ManyMaterials ms =>
        for_each (fun m => extractMaterialTextures m ui ;; deleteImages m) ms
    end.
Proof.
  apply preserves_materials.
  - apply only_uploads_uploadTexture.
  - intros g f. apply only_uploads_set_image.
Qed.

Lemma assignIdToObject_other_fields x g :
  image (assignIdToObject x g).2 = image g ∧
  matrixWorld (assignIdToObject x g).2 = matrixWorld g ∧
  camera (assignIdToObject x g).2 = camera g.
Proof.
  unfold assignIdToObject. destruct (availableObjectIds g); [|done].
  simpl. by destruct (maxEntityCount <? objectId g + 1).
Qed.

Lemma addNode_eq ui node g :
  renderable (kind_of node) = true →
  addNode ui node g =
  match
    match material_of node with
    | NoMaterial => mret tt
    | OneMaterial m => extractMaterialTextures m ui ;; deleteImages m
    | ManyMaterials ms =>
        for_each (fun m => extractMaterialTextures m ui ;; deleteImages m) ms
    end (assignIdToObject (ref_of node) g).2
  with
  | (Ok _, g2) =>
      (Ok tt, submitCommand (addObject node (assignIdToObject (ref_of node) g).1 ui)
                false g2)
  | (Throw e, g2) => (Throw e, g2)
  end.
Proof.
  intros Hk. unfold addNode. rewrite Hk.
  unfold mbind at 1, M_bind at 1, run at 1.
  destruct (assignIdToObject (ref_of node) g) as [id g1]. reflexivity.
Qed.

(** What registering one node does.  The node gets the identity the
    allocator returns; then its textures are uploaded, which may throw; and
    only if that went through is the [addObject] command queued. *)
Lemma addNode_effect ui node g :
  renderable (kind_of node) = true →
  let r := assignIdToObject (ref_of node) g in
  let res := addNode ui node g in
  allocator_view res.2 = allocator_view r.2 ∧
  worker res.2 = worker g ∧ array res.2 = array g ∧
  console res.2 = console r.2 ∧
  ∃ cmds, Forall (fun c => is_upload c = true) cmds ∧
    match res.1 with
    | Ok _ => commandQueue res.2 = commandQueue g ++ cmds ++ [addObject node r.1 ui]
    | Throw _ => commandQueue res.2 = commandQueue g ++ cmds
    end.
Proof.
  intros Hk. cbv zeta. rewrite addNode_eq by done.
  destruct (assignIdToObject_frame (ref_of node) g) as (Ha & Hq & Hw & _).
  destruct (assignIdToObject (ref_of node) g) as [id g1] eqn:Er. cbn [fst snd] in *.
  pose proof (only_uploads_materials g1 (material_of node) ui g1 (only_uploads_refl g1))
    as (Hv & Hw' & Ha' & Hc' & _ & _ & cmds & Hq' & Hcmds).
  destruct (match material_of node with
            | NoMaterial => mret tt
            | OneMaterial m => extractMaterialTextures m ui ;; deleteImages m
            | ManyMaterials ms =>
                for_each (fun m => extractMaterialTextures m ui ;; deleteImages m) ms
            end g1) as [[[]|e] g2]; cbn [fst snd] in *.
  - split_and!.
    + exact Hv.
    + simpl. congruence.
    + simpl. congruence.
    + exact Hc'.
    + exists cmds. split; [done|]. simpl. by rewrite Hq', Hq, app_assoc.
  - split_and!.
    + exact Hv.
    + congruence.
    + congruence.
    + exact Hc'.
    + exists cmds. split; [done|]. by rewrite Hq', Hq.
Qed.

Lemma addNode_skip ui node g :
  renderable (kind_of node) = false → addNode ui node g = (Ok tt, g).
Proof. intros Hk. unfold addNode. by rewrite Hk. Qed.

(** ** Registering a whole object *)

Lemma assignIdToObject_free_counter x g :
  availableObjectIds (assignIdToObject x g).2 = drop 1 (availableObjectIds g) ∧
  objectId (assignIdToObject x g).2 = objectId g + (1 - length (availableObjectIds g)).
Proof.
  destruct (availableObjectIds g) as [|r rest] eqn:E.
  - rewrite assignIdToObject_fresh by done. simpl.
    destruct (maxEntityCount <? objectId g + 1); simpl; by rewrite E.
  - rewrite (assignIdToObject_recycled _ _ r rest) by done. simpl.
    split; [done|lia].
Qed.

Lemma assignIdToObject_result x g :
  (assignIdToObject x g).1 = hd (objectId g) (availableObjectIds g).
Proof.
  destruct (availableObjectIds g) as [|r rest] eqn:E.
  - by rewrite assignIdToObject_fresh.
  - by rewrite (assignIdToObject_recycled _ _ r rest).
Qed.

Lemma allocations_S n x g :
  allocations (S n) g =
  (assignIdToObject x g).1 :: allocations n (assignIdToObject x g).2.
Proof.
  unfold allocations.
  destruct (assignIdToObject_free_counter x g) as [-> ->].
  rewrite assignIdToObject_result.
  destruct (availableObjectIds g) as [|r rest].
  - cbn [hd drop app length]. replace (objectId g + (1 - 0)) with (S (objectId g)) by lia.
    done.
  - cbn [hd drop app length take].
    replace (objectId g + (1 - S (length rest))) with (objectId g) by lia.
    f_equal. rewrite (seq_S n), app_assoc.
    rewrite take_app_le; [done|]. rewrite length_app, length_seq. lia.
Qed.

Lemma allocations_view n g g' :
  allocator_view g' = allocator_view g → allocations n g' = allocations n g.
Proof.
  unfold allocator_view, allocations. intros E. by injection E as _ -> -> _.
Qed.

Lemma filter_addObject_uploads cmds :
  Forall (fun c => is_upload c = true) cmds →
  filter (fun c => is_addObject c = true) cmds = [].
Proof.
  induction 1 as [|c cmds Hc _ IH]; [done|].
  rewrite filter_cons, IH. rewrite decide_False; [done|].
  by destruct c.
Qed.

Lemma for_each_addNode_ok ui l g :
  (for_each (addNode ui) l g).1 = Ok tt →
  let nodes := filter (fun node => renderable (kind_of node) = true) l in
  let ids := allocations (length nodes) g in
  let g' := (for_each (addNode ui) l g).2 in
  filter (fun c => is_addObject c = true) (commandQueue g') =
    filter (fun c => is_addObject c = true) (commandQueue g)
    ++ zip_with (fun node id => addObject node id ui) nodes ids ∧
  availableObjectIds g' = drop (length nodes) (availableObjectIds g) ∧
  objectId g' = objectId g + (length nodes - length (availableObjectIds g)) ∧
  idToObject g' =
    foldl (fun t p => <[ p.2 := ref_of p.1 ]> t) (idToObject g) (zip nodes ids) ∧
  meshId g' =
    foldl (fun t p => <[ ref_of p.1 := p.2 ]> t) (meshId g) (zip nodes ids) ∧
  worker g' = worker g ∧ array g' = array g.
Proof.
  revert g. induction l as [|n l IH]; intros g Hok; cbv zeta.
  - simpl. rewrite app_nil_r, Nat.add_0_r. done.
  - cbn [for_each] in *. unfold mbind, M_bind in *.
    rewrite filter_cons.
    destruct (renderable (kind_of n)) eqn:Hk.
    + rewrite decide_True by done.
      pose proof (addNode_effect ui n g Hk) as (Hv & Hw & Ha & _ & cmds & Hcmds & Hq).
      cbv zeta in Hv, Hw, Ha, Hq.
      destruct (assignIdToObject_free_counter (ref_of n) g) as [Hf Hc].
      destruct (addNode ui n g) as [[[]|e] g1] eqn:En; cbn [fst snd] in *; [|done].
      specialize (IH g1 Hok). cbv zeta in IH.
      destruct IH as (IHq & IHf & IHc & IHt & IHm & IHw & IHa).
      assert (Hal : allocations (length (filter (fun node => renderable (kind_of node) = true) l)) g1
                    = allocations (length (filter (fun node => renderable (kind_of node) = true) l))
                        (assignIdToObject (ref_of n) g).2)
        by by apply allocations_view.
      assert (Hv' := Hv). unfold allocator_view in Hv'.
      injection Hv' as Ht1 Hf1 Hc1 Hm1.
      cbn [length]. rewrite (allocations_S _ (ref_of n) g), <- Hal.
      set (nodes := filter (fun node => renderable (kind_of node) = true) l) in *.
      set (ids := allocations (length nodes) g1) in *.
      split_and!.
      * rewrite IHq, Hq. rewrite !filter_app, (filter_addObject_uploads cmds) by done.
        rewrite filter_cons, filter_nil. rewrite decide_True by done.
        simpl. by rewrite <- app_assoc.
      * rewrite IHf, Hf1, Hf. by rewrite drop_drop.
      * rewrite IHc, Hc1, Hf1, Hc, Hf. rewrite length_drop. lia.
      * rewrite IHt, Ht1. simpl.
        destruct (availableObjectIds g) as [|r rest] eqn:E.
        -- rewrite assignIdToObject_fresh by done. simpl.
           by destruct (maxEntityCount <? objectId g + 1).
        -- by rewrite (assignIdToObject_recycled _ _ r rest).
      * rewrite IHm, Hm1. simpl.
        destruct (availableObjectIds g) as [|r rest] eqn:E.
        -- rewrite assignIdToObject_fresh by done. simpl.
           by destruct (maxEntityCount <? objectId g + 1).
        -- by rewrite (assignIdToObject_recycled _ _ r rest).
      * congruence.
      * congruence.
    + rewrite decide_False by done.
      rewrite addNode_skip in * by done. cbn [fst snd] in *.
      by apply IH.
Qed.

(** X7.  When [addObjectToScene] returns, every node of the object that is
    a mesh, points, sprite or light has been registered, in traversal order:
    the identities are the free list's from its head and then the counter's
    values, the table and the [meshId]s are set accordingly, and the queue
    has gained exactly one [addObject] command per such node, in that order
    and with those identities.  Nothing is posted and the buffer is not
    touched. *)
Theorem addObjectToScene_registers_every_node object ui g :
  (addObjectToScene object ui g).1 = Ok tt →
  let nodes := registered_nodes object in
  let ids := allocations (length nodes) g in
  let g' := exec (addObjectToScene object ui) g in
  filter (fun c => is_addObject c = true) (commandQueue g') =
    filter (fun c => is_addObject c = true) (commandQueue g)
    ++ zip_with (fun node id => addObject node id ui) nodes ids ∧
  availableObjectIds g' = drop (length nodes) (availableObjectIds g) ∧
  objectId g' = objectId g + (length nodes - length (availableObjectIds g)) ∧
  idToObject g' =
    foldl (fun t p => <[ p.2 := ref_of p.1 ]> t) (idToObject g) (zip nodes ids) ∧
  meshId g' =
    foldl (fun t p => <[ ref_of p.1 := p.2 ]> t) (meshId g) (zip nodes ids) ∧
  worker g' = worker g ∧ array g' = array g.
Proof. intros Hok. by apply (for_each_addNode_ok ui (traverse object) g). Qed.

Lemma addObjectToScene_registers_every_node_witness :
  let g := removeObjectFromScene (mesh 2) example_scene in
  let object := makeCapsule 11 12 13 in
  (addObjectToScene object false g).1 = Ok tt ∧
  let nodes := registered_nodes object in
  let ids := allocations (length nodes) g in
  let g' := exec (addObjectToScene object false) g in
  filter (fun c => is_addObject c = true) (commandQueue g') =
    filter (fun c => is_addObject c = true) (commandQueue g)
    ++ zip_with (fun node id => addObject node id false) nodes ids ∧
  availableObjectIds g' = drop (length nodes) (availableObjectIds g) ∧
  objectId g' = objectId g + (length nodes - length (availableObjectIds g)) ∧
  idToObject g' =
    foldl (fun t p => <[ p.2 := ref_of p.1 ]> t) (idToObject g) (zip nodes ids) ∧
  meshId g' =
    foldl (fun t p => <[ ref_of p.1 := p.2 ]> t) (meshId g) (zip nodes ids) ∧
  worker g' = worker g ∧ array g' = array g.
Proof.
  intros g object.
  assert (Hok : (addObjectToScene object false g).1 = Ok tt)
    by (vm_compute; reflexivity).
  split; [exact Hok|].
  exact (addObjectToScene_registers_every_node object false g Hok).
Defined.

(** ** Registrations that throw *)

Lemma uploadTexture_missing_image t ui g :
  uuid t ∉ textureCache g → image g !! tex_ref t = None →
  uploadTexture t ui g = (Throw "TypeError", g).
Proof.
  intros Hc Hi. unfold uploadTexture. rewrite decide_False by done. by rewrite Hi.
Qed.

Lemma addObjectToScene_missing_image g x k m t ui :
  renderable k = true →
  mat_map m = Some t →
  uuid t ∉ textureCache g →
  image g !! tex_ref t = None →
  addObjectToScene (Node x k (OneMaterial m) []) ui g
  = (Throw "TypeError", (assignIdToObject x g).2).
Proof.
  intros Hk Hm Hc Hi.
  destruct (assignIdToObject_frame x g) as (_ & _ & _ & Hcache).
  destruct (assignIdToObject_other_fields x g) as (Him & _ & _).
  unfold addObjectToScene. cbn [traverse flat_map for_each].
  unfold mbind at 1, M_bind at 1.
  rewrite addNode_eq by done. cbn [ref_of material_of].
  unfold extractMaterialTextures. rewrite Hm. cbn [when_set].
  unfold mbind, M_bind.
  rewrite uploadTexture_missing_image by congruence. done.
Qed.

Lemma assignIdToObject_entered x g :
  idToObject (assignIdToObject x g).2 !! (assignIdToObject x g).1 = Some x ∧
  meshId (assignIdToObject x g).2 !! x = Some (assignIdToObject x g).1.
Proof.
  destruct (availableObjectIds g) as [|i rest] eqn:E.
  - rewrite assignIdToObject_fresh by done. simpl. by rewrite !lookup_insert_eq.
  - rewrite (assignIdToObject_recycled _ _ i rest) by done. simpl.
    by rewrite !lookup_insert_eq.
Qed.

(** X8.  A registration cut short leaves its identity behind.  If the
    [map] of a node's material is a texture that is not in the cache and
    has no image, [addObjectToScene] throws a [TypeError]: by then the node
    has its identity and is in the table, but no [addObject] command, and no
    other command, has been queued for it. *)
Theorem failed_registration_keeps_identity g x k m t ui :
  renderable k = true →
  mat_map m = Some t →
  uuid t ∉ textureCache g →
  image g !! tex_ref t = None →
  let r := assignIdToObject x g in
  addObjectToScene (Node x k (OneMaterial m) []) ui g = (Throw "TypeError", r.2) ∧
  idToObject r.2 !! r.1 = Some x ∧
  meshId r.2 !! x = Some r.1 ∧
  commandQueue r.2 = commandQueue g ∧ worker r.2 = worker g.
Proof.
  intros Hk Hm Hc Hi r.
  destruct (assignIdToObject_frame x g) as (_ & Hq & Hw & _).
  destruct (assignIdToObject_entered x g) as [Ht Hmesh].
  split; [by apply (addObjectToScene_missing_image g x k m t ui)|].
  split; [exact Ht|]. split; [exact Hmesh|]. split; [exact Hq|exact Hw].
Qed.

Lemma failed_registration_keeps_identity_witness :
  let g := outside ∅ ∅ textured_scene in
  let t := {| tex_ref := 9; uuid := "moss" |} in
  let m := {| mat_map := Some t; mat_alphaMap := None; mat_otherMaps := [] |} in
  renderable Mesh = true ∧
  mat_map m = Some t ∧
  (uuid t ∉ textureCache g) ∧
  image g !! tex_ref t = None ∧
  let r := assignIdToObject 20 g in
  addObjectToScene (Node 20 Mesh (OneMaterial m) []) false g = (Throw "TypeError", r.2) ∧
  idToObject r.2 !! r.1 = Some 20 ∧
  meshId r.2 !! 20 = Some r.1 ∧
  commandQueue r.2 = commandQueue g ∧ worker r.2 = worker g.
Proof.
  intros g t m.
  assert (H3 : uuid t ∉ textureCache g).
  { apply (bool_decide_unpack _). vm_compute. exact I. }
  assert (H4 : image g !! tex_ref t = None) by (vm_compute; reflexivity).
  split; [reflexivity|]. split; [reflexivity|]. split; [exact H3|]. split; [exact H4|].
  exact (failed_registration_keeps_identity g 20 Mesh m t false eq_refl eq_refl H3 H4).
Defined.

Lemma for_each_delete_image ts g :
  for_each delete_image ts g = (Ok tt, set_image (without_images ts) g).
Proof.
  revert g. induction ts as [|t ts IH]; intros g.
  - simpl. f_equal. by apply Graphics_eq.
  - cbn [for_each]. unfold mbind, M_bind. unfold delete_image at 1, lift.
    rewrite IH. reflexivity.
Qed.

Lemma lookup_without_images ts (images : gmap texref Image) i :
  without_images ts images !! i =
  if decide (i ∈ tex_ref <$> ts) then None else images !! i.
Proof.
  unfold without_images. revert images. induction ts as [|t ts IH]; intros images.
  - by destruct (decide (i ∈ tex_ref <$> [])) as [?%elem_of_nil|].
  - cbn [foldl]. rewrite IH. rewrite fmap_cons.
    destruct (decide (i ∈ tex_ref <$> ts)) as [Hin|Hnin],
             (decide (i ∈ tex_ref t :: (tex_ref <$> ts))) as [Hc|Hc]; try done.
    + exfalso. apply Hc. by right.
    + apply elem_of_cons in Hc as [->|?]; [|done]. apply lookup_delete_eq.
    + apply lookup_delete_ne. intros <-. apply Hc. by left.
Qed.

Lemma deleteImages_eq m g :
  deleteImages m g = (Ok tt, set_image (without_images (textures_of m)) g).
Proof.
  unfold deleteImages, textures_of, without_images.
  unfold mbind, M_bind.
  destruct (mat_map m) as [t1|], (mat_alphaMap m) as [t2|];
    cbn [when_set option_list app foldl]; unfold delete_image at 1, lift;
    try unfold delete_image at 1; unfold lift, mret, M_ret;
    rewrite for_each_delete_image; f_equal; by apply Graphics_eq.
Qed.

(** X9.  Registration deletes the image of every texture slot of a
    material, but uploads only [map] and [alphaMap].  So a texture first met
    in another slot (a normal map, say) loses its image without having been
    uploaded: the registration itself goes through, and every later
    registration of a node that has this texture as [map] throws a
    [TypeError] and queues nothing. *)
Theorem texture_lost_in_other_slot g x k m t ui :
  renderable k = true →
  mat_map m = None → mat_alphaMap m = None →
  t ∈ mat_otherMaps m →
  uuid t ∉ textureCache g →
  let res := addObjectToScene (Node x k (OneMaterial m) []) ui g in
  res.1 = Ok tt ∧
  image res.2 !! tex_ref t = None ∧
  (uuid t ∉ textureCache res.2) ∧
  (∀ x' k' m' ui',
     renderable k' = true → mat_map m' = Some t →
     (addObjectToScene (Node x' k' (OneMaterial m') []) ui' res.2).1 = Throw "TypeError" ∧
     commandQueue (exec (addObjectToScene (Node x' k' (OneMaterial m') []) ui') res.2)
       = commandQueue res.2).
Proof.
  intros Hk Hm Ha Ht Hc. cbv zeta.
  destruct (assignIdToObject_frame x g) as (_ & _ & _ & Hcache).
  assert (E : addObjectToScene (Node x k (OneMaterial m) []) ui g =
              (Ok tt, submitCommand (addObject (Node x k (OneMaterial m) [])
                                       (assignIdToObject x g).1 ui) false
                        (set_image (without_images (textures_of m))
                           (assignIdToObject x g).2))).
  { unfold addObjectToScene. cbn [traverse flat_map for_each].
    unfold mbind at 1, M_bind at 1.
    rewrite addNode_eq by done. cbn [ref_of material_of].
    unfold extractMaterialTextures. rewrite Hm, Ha. cbn [when_set].
    unfold mbind, M_bind, mret, M_ret. by rewrite deleteImages_eq. }
  rewrite E. cbn [fst snd].
  assert (Himg : image (submitCommand (addObject (Node x k (OneMaterial m) [])
                                       (assignIdToObject x g).1 ui) false
                        (set_image (without_images (textures_of m))
                           (assignIdToObject x g).2)) !! tex_ref t = None).
  { simpl. rewrite lookup_without_images. rewrite decide_True; [done|].
    apply list_elem_of_fmap. exists t. split; [done|].
    unfold textures_of. rewrite Hm, Ha. done. }
  assert (Hcache' : uuid t ∉ textureCache
                      (submitCommand (addObject (Node x k (OneMaterial m) [])
                                       (assignIdToObject x g).1 ui) false
                        (set_image (without_images (textures_of m))
                           (assignIdToObject x g).2))).
  { simpl. by rewrite Hcache. }
  split_and!; [done..|].
  intros x' k' m' ui' Hk' Hm'.
  unfold exec.
  rewrite (addObjectToScene_missing_image _ x' k' m' t ui' Hk' Hm' Hcache' Himg).
  cbn [fst snd]. split; [done|]. apply assignIdToObject_frame.
Qed.

Lemma texture_lost_in_other_slot_witness :
  let t := {| tex_ref := 9; uuid := "bumps" |} in
  let m := {| mat_map := None; mat_alphaMap := None; mat_otherMaps := [t] |} in
  let g := outside {[ 9 := brick_image ]} ∅ example_scene in
  renderable Mesh = true ∧
  mat_map m = None ∧ mat_alphaMap m = None ∧
  t ∈ mat_otherMaps m ∧
  (uuid t ∉ textureCache g) ∧
  let res := addObjectToScene (Node 20 Mesh (OneMaterial m) []) false g in
  res.1 = Ok tt ∧
  image res.2 !! tex_ref t = None ∧
  (uuid t ∉ textureCache res.2) ∧
  (∀ x' k' m' ui',
     renderable k' = true → mat_map m' = Some t →
     (addObjectToScene (Node x' k' (OneMaterial m') []) ui' res.2).1 = Throw "TypeError" ∧
     commandQueue (exec (addObjectToScene (Node x' k' (OneMaterial m') []) ui') res.2)
       = commandQueue res.2).
Proof.
  intros t m g.
  assert (H4 : t ∈ mat_otherMaps m) by (apply list_elem_of_singleton; reflexivity).
  assert (H5 : uuid t ∉ textureCache g).
  { apply (bool_decide_unpack _). vm_compute. exact I. }
  split; [reflexivity|]. split; [reflexivity|]. split; [reflexivity|].
  split; [exact H4|]. split; [exact H5|].
  exact (texture_lost_in_other_slot g 20 Mesh m t false eq_refl eq_refl eq_refl H4 H5).
Defined.

(** ** Ticks and records *)

Lemma update_fields g :
  idToObject (update g) = idToObject g ∧
  matrixWorld (update g) = matrixWorld g ∧
  commandQueue (update g) = [] ∧
  worker (update g) = worker g ++ commandQueue g ∧
  length (array (update g)) = length (array g).
Proof.
  unfold update. rewrite writeTransformsToArray_length, flushCommands_eq.
  split_and!; done.
Qed.

Lemma world_of_matrixWorld g g' x :
  matrixWorld g' = matrixWorld g → world_of g' x = world_of g x.
Proof. unfold world_of. by intros ->. Qed.

(** X10.  A tick is idempotent: a second [update] right after the first,
    with nothing changed in between, changes nothing at all: no command is
    posted again and every float of the buffer stays as it is. *)
Theorem update_idempotent g : update (update g) = update g.
Proof.
  destruct (update_fields g) as (Ht & Hmw & Hq & Hw & Hlen).
  apply Graphics_eq; try reflexivity.
  - apply list_eq. intros k.
    assert (Hk : k = k `div` elementsPerTransform * elementsPerTransform
                     + k `mod` elementsPerTransform).
    { rewrite Nat.mul_comm. by apply Nat.div_mod_eq. }
    assert (Hi : k `mod` elementsPerTransform < elementsPerTransform).
    { by apply Nat.mod_upper_bound. }
    set (d := k `div` elementsPerTransform) in *.
    set (m := k `mod` elementsPerTransform) in *.
    clearbody d m. subst k.
    rewrite (update_lookup (update g)) by done. rewrite Ht, Hlen.
    destruct (idToObject g !! d) as [obj|] eqn:Hd; [|done].
    rewrite (update_lookup g), Hd by done.
    by rewrite (world_of_matrixWorld g).
Qed.

(** X11.  A tick writes only the records of identities that are in the
    table.  So when an object is removed its record is not cleared: through
    the following ticks it keeps the last transform written, until the
    identity is given to another object. *)
Theorem removed_record_keeps_last_transform g :
  (∀ id i, idToObject g !! id = None → i < elementsPerTransform →
     array (update g) !! (id * elementsPerTransform + i)
     = array g !! (id * elementsPerTransform + i)) ∧
  (∀ o id i, id ∈ released_ids g o → i < elementsPerTransform →
     array (update (removeObjectFromScene o g)) !! (id * elementsPerTransform + i)
     = array g !! (id * elementsPerTransform + i)).
Proof.
  split.
  - intros id i Hnone Hi. by rewrite update_lookup, Hnone.
  - intros o id i Hin Hi. rewrite update_lookup by done.
    rewrite removeObjectFromScene_eq. simpl.
    rewrite lookup_foldl_delete. by rewrite decide_True.
Qed.

Lemma removed_record_keeps_last_transform_witness :
  let g := update shifted_scene in
  (idToObject g !! 7 = None ∧ 3 < elementsPerTransform ∧
   array (update g) !! (7 * elementsPerTransform + 3)
   = array g !! (7 * elementsPerTransform + 3)) ∧
  (1 ∈ released_ids g (mesh 1) ∧ 12 < elementsPerTransform ∧
   array (update (removeObjectFromScene (mesh 1) g)) !! (1 * elementsPerTransform + 12)
   = array g !! (1 * elementsPerTransform + 12)).
Proof.
  intros g.
  assert (H1 : idToObject g !! 7 = None) by (vm_compute; reflexivity).
  assert (H2 : 3 < elementsPerTransform) by (unfold elementsPerTransform; lia).
  assert (H3 : 1 ∈ released_ids g (mesh 1)).
  { replace (released_ids g (mesh 1)) with [1] by (vm_compute; reflexivity).
    by apply list_elem_of_singleton. }
  assert (H4 : 12 < elementsPerTransform) by (unfold elementsPerTransform; lia).
  split.
  - split; [exact H1|]. split; [exact H2|].
    exact (proj1 (removed_record_keeps_last_transform g) 7 3 H1 H2).
  - split; [exact H3|]. split; [exact H4|].
    exact (proj2 (removed_record_keeps_last_transform g) (mesh 1) 1 12 H3 H4).
Defined.

(** ** From the writer to the reader *)

Lemma readTransformsFromArray_lookup a table id robj :
  table !! id = Some robj →
  readTransformsFromArray a table !! id =
    Some {| matrix :=
              if strict_eq_zero (typed_get a (id * elementsPerTransform))
              then makeScale one_tenth one_tenth one_tenth
              else fromArray a (id * elementsPerTransform) |}.
Proof.
  intros Hobj. unfold readTransformsFromArray. rewrite map_lookup_imap, Hobj. simpl.
  unfold readRecord. rewrite fromArray_element by (unfold elementsPerTransform; lia).
  by rewrite Nat.add_0_r.
Qed.

Lemma typed_get_update g id obj i :
  idToObject g !! id = Some obj →
  id < maxEntityCount →
  length (array g) = elementsPerTransform * maxEntityCount →
  i < elementsPerTransform →
  typed_get (array (update g)) (id * elementsPerTransform + i)
  = as_read (element (world_of g obj) i).
Proof.
  intros Hobj Hid Hlen Hi. unfold typed_get.
  rewrite update_lookup, Hobj by done.
  rewrite decide_True; [done|]. rewrite Hlen. unfold elementsPerTransform in *. lia.
Qed.

(** X12.  What the controller writes in a tick is what the renderer reads:
    for an identity below [maxEntityCount] that both tables know, the matrix
    the renderer gives its object after the tick has the sixteen elements of
    the controller's world matrix, rounded to 32 bits, in the same order;
    except that when the first element rounds to zero (a world matrix whose
    x scale is zero, or too small for a 32-bit float) the renderer puts the
    uniform scale 0.1 in its place. *)
Theorem renderer_reads_what_was_written g id obj table robj :
  idToObject g !! id = Some obj →
  id < maxEntityCount →
  length (array g) = elementsPerTransform * maxEntityCount →
  table !! id = Some robj →
  readTransformsFromArray (array (update g)) table !! id =
    Some {| matrix :=
              if strict_eq_zero (as_read (element (world_of g obj) 0))
              then makeScale one_tenth one_tenth one_tenth
              else Matrix4_as_read (world_of g obj) |}.
Proof.
  intros Hobj Hid Hlen Htab.
  rewrite (readTransformsFromArray_lookup _ _ _ robj) by done.
  replace (id * elementsPerTransform) with (id * elementsPerTransform + 0) at 1 by lia.
  rewrite (typed_get_update g id obj 0) by (done || unfold elementsPerTransform; lia).
  do 2 f_equal. destruct (strict_eq_zero _); [done|].
  unfold fromArray, Matrix4_as_read. f_equal.
  apply list_fmap_ext. intros j i Hj.
  apply lookup_seq in Hj as [-> Hj]. simpl in Hj.
  by apply typed_get_update.
Qed.

Lemma renderer_reads_what_was_written_witness :
  idToObject shifted_scene !! 1 = Some 1 ∧
  1 < maxEntityCount ∧
  length (array shifted_scene) = elementsPerTransform * maxEntityCount ∧
  renderer_table !! 1 = Some {| matrix := identity |} ∧
  readTransformsFromArray (array (update shifted_scene)) renderer_table !! 1 =
    Some {| matrix :=
              if strict_eq_zero (as_read (element (world_of shifted_scene 1) 0))
              then makeScale one_tenth one_tenth one_tenth
              else Matrix4_as_read (world_of shifted_scene 1) |}.
Proof.
  assert (H1 : idToObject shifted_scene !! 1 = Some 1) by (vm_compute; reflexivity).
  assert (H2 : 1 < maxEntityCount) by (unfold maxEntityCount; lia).
  assert (H3 : length (array shifted_scene) = elementsPerTransform * maxEntityCount)
    by (vm_compute; reflexivity).
  assert (H4 : renderer_table !! 1 = Some {| matrix := identity |})
    by (vm_compute; reflexivity).
  split; [exact H1|]. split; [exact H2|]. split; [exact H3|]. split; [exact H4|].
  exact (renderer_reads_what_was_written shifted_scene 1 1 renderer_table
           {| matrix := identity |} H1 H2 H3 H4).
Defined.

(** X13.  Past the end of the buffer the renderer reads [undefined]: for an
    identity whose record would start at or after the buffer's end (1024 and
    up for the buffer the controller makes), the matrix the renderer gives
    the object has sixteen undefined elements; the uniform scale is not
    substituted, since [undefined] is not equal to zero. *)
Theorem renderer_reads_undefined_past_buffer (a : Float32Array) table id robj :
  table !! id = Some robj →
  length a ≤ id * elementsPerTransform →
  readTransformsFromArray a table !! id =
    Some {| matrix := {| elements := replicate elementsPerTransform Undefined |} |}.
Proof.
  intros Htab Hlen.
  assert (Hget : ∀ i, typed_get a (id * elementsPerTransform + i) = Undefined).
  { intros i. unfold typed_get. rewrite (proj2 (lookup_ge_None a _)) by lia. done. }
  rewrite (readTransformsFromArray_lookup _ _ _ robj) by done.
  replace (id * elementsPerTransform) with (id * elementsPerTransform + 0) at 1 by lia.
  rewrite Hget. simpl strict_eq_zero. cbv iota.
  do 2 f_equal. unfold fromArray. f_equal.
  transitivity ((fun _ : nat => Undefined) <$> seq 0 elementsPerTransform).
  - apply list_fmap_ext. intros j i Hj. apply Hget.
  - reflexivity.
Qed.

Lemma renderer_reads_undefined_past_buffer_witness :
  let table : gmap nat Renderable := {[ 1024 := {| matrix := identity |} ]} in
  table !! 1024 = Some {| matrix := identity |} ∧
  length (array example_scene) ≤ 1024 * elementsPerTransform ∧
  readTransformsFromArray (array example_scene) table !! 1024 =
    Some {| matrix := {| elements := replicate elementsPerTransform Undefined |} |}.
Proof.
  intros table.
  assert (H1 : table !! 1024 = Some {| matrix := identity |})
    by (vm_compute; reflexivity).
  assert (H2 : length (array example_scene) ≤ 1024 * elementsPerTransform).
  { replace (length (array example_scene)) with (1024 * elementsPerTransform)
      by (vm_compute; reflexivity). done. }
  split; [exact H1|]. split; [exact H2|].
  exact (renderer_reads_undefined_past_buffer (array example_scene) table 1024
           {| matrix := identity |} H1 H2).
Defined.

(** ** Who writes the transform buffer *)

Lemma array_kept_by_registration (a : Float32Array) o ui :
  preserves (fun g => array g = a) (addObjectToScene o ui).
Proof.
  apply preserves_addObjectToScene.
  - intros t ui' g Hg. unfold uploadTexture.
    destruct (decide _); [done|]. by destruct (image g !! tex_ref t).
  - done.
  - intros x g Hg. by rewrite (proj1 (assignIdToObject_frame x g)).
  - done.
Qed.

Lemma perform_array e g : e ≠ Update → array (perform g e) = array g.
Proof.
  intros He. destruct e as [c w h r|w h r| | |o ui|o|o ui|x t img|m|im wd]; cbn [perform].
  - unfold Graphics_init. simpl. apply assignIdToObject_frame.
  - done.
  - done.
  - by rewrite flushCommands_eq.
  - unfold exec.
    apply (preserves_updateMaterial (fun g' => array g' = array g)); [| |done].
    + intros t ui' g' Hg. unfold uploadTexture.
      destruct (decide _); [done|]. by destruct (image g' !! tex_ref t).
    + done.
  - by rewrite removeObjectFromScene_eq.
  - unfold exec. by apply array_kept_by_registration.
  - unfold exec.
    apply (preserves_createParticleEmitter (fun g' => array g' = array g)); [| | | | |done].
    + intros t' ui' g' Hg. unfold uploadTexture.
      destruct (decide _); [done|]. by destruct (image g' !! tex_ref t').
    + done.
    + intros y g' Hg. by rewrite (proj1 (assignIdToObject_frame y g')).
    + done.
    + done.
  - unfold onmessage. by repeat destruct (decide _).
  - done.
Qed.

Lemma history_array g events :
  Forall (fun e => e ≠ Update) events →
  array (foldl perform g events) = array g.
Proof.
  intros Hev. revert g. induction Hev as [|e events He _ IH]; intros g; [done|].
  simpl. rewrite IH. by apply perform_array.
Qed.

(** X14.  Only [update] writes the transform buffer: over any history of
    the public interface in which [update] is not called (registrations
    that throw included), the buffer is element for element what it was. *)
Theorem buffer_written_only_by_update g events :
  Forall (fun e => e ≠ Update) events →
  array (foldl perform g events) = array g.
Proof. apply history_array. Qed.

Lemma buffer_written_only_by_update_witness :
  let events := [AddObjectToScene brick_wall false; RemoveObjectFromScene (mesh 2);
                 FlushCommands] in
  Forall (fun e => e ≠ Update) events ∧
  array (foldl perform example_scene events) = array example_scene.
Proof.
  intros events.
  assert (H : Forall (fun e => e ≠ Update) events)
    by (repeat constructor; discriminate).
  split; [exact H|].
  exact (buffer_written_only_by_update example_scene events H).
Defined.

(** X15.  Before the first tick every object is drawn at a tenth of its
    size.  The constructor's buffer is all zeros and nothing but [update]
    writes it, so until [update] is first called the matrix the renderer
    gives any object of its table with an identity below [maxEntityCount]
    is the uniform scale 0.1, whatever the object's world matrix. *)
Theorem default_scale_before_first_tick cam world images events table id robj :
  Forall (fun e => e ≠ Update) events →
  id < maxEntityCount →
  table !! id = Some robj →
  readTransformsFromArray
    (array (foldl perform (new_Graphics cam world images) events)) table !! id =
  Some {| matrix := makeScale one_tenth one_tenth one_tenth |}.
Proof.
  intros Hev Hid Htab.
  rewrite history_array by done.
  rewrite (readTransformsFromArray_lookup _ _ _ robj) by done.
  unfold typed_get. cbn [array new_Graphics].
  rewrite lookup_replicate_2; [done|].
  change (bufferSize / bytesPerElement) with (elementsPerTransform * maxEntityCount).
  unfold elementsPerTransform. lia.
Qed.

Lemma default_scale_before_first_tick_witness :
  let events := [Init "canvas" 800 600 one_tenth; AddObjectToScene (mesh 1) false;
                 FlushCommands] in
  let table : gmap nat Renderable := {[ 1 := {| matrix := identity |} ]} in
  Forall (fun e => e ≠ Update) events ∧
  1 < maxEntityCount ∧
  table !! 1 = Some {| matrix := identity |} ∧
  readTransformsFromArray
    (array (foldl perform (new_Graphics 100 ∅ ∅) events)) table !! 1 =
  Some {| matrix := makeScale one_tenth one_tenth one_tenth |}.
Proof.
  intros events table.
  assert (H1 : Forall (fun e => e ≠ Update) events)
    by (repeat constructor; discriminate).
  assert (H2 : 1 < maxEntityCount) by (unfold maxEntityCount; lia).
  assert (H3 : table !! 1 = Some {| matrix := identity |}) by (vm_compute; reflexivity).
  split; [exact H1|]. split; [exact H2|]. split; [exact H3|].
  exact (default_scale_before_first_tick 100 ∅ ∅ events table 1
           {| matrix := identity |} H1 H2 H3).
Defined.

(** ** What [updateMaterial] leaves alone *)

Lemma only_material_commands_uploadTexture g0 t ui :
  preserves (only_material_commands g0) (uploadTexture t ui).
Proof.
  intros g (Hv & Hw & Ha & Hc & Hi & Hmw & Hcam & cmds & Hq & Hcmds).
  unfold uploadTexture.
  destruct (decide (uuid t ∈ textureCache g)).
  { unfold only_material_commands. split_and!; try done. by exists cmds. }
  destruct (image g !! tex_ref t) as [img|].
  2:{ unfold only_material_commands. split_and!; try done. by exists cmds. }
  unfold only_material_commands. simpl. split_and!; try done.
  exists (cmds ++ [uploadTexture_cmd (uuid t) (data img) (width img) (height img) ui]).
  split.
  - by rewrite Hq, app_assoc.
  - apply Forall_app. split; [done|]. by constructor.
Qed.

Lemma only_material_commands_updateNode g0 ui node :
  preserves (only_material_commands g0) (updateNode ui node).
Proof.
  assert (Hbody : ∀ m,
    preserves (only_material_commands g0)
      (extractMaterialTextures m ui ;;
       id ← gets (fun g => meshId g !! ref_of node);
       lift (submitCommand (updateMaterial_cmd m id) false))).
  { intros m. apply preserves_bind.
    - apply preserves_extractMaterialTextures, only_material_commands_uploadTexture.
    - intros _. apply preserves_bind; [apply preserves_gets|].
      intros id. apply preserves_lift.
      intros g (Hv & Hw & Ha & Hc & Hi & Hmw & Hcam & cmds & Hq & Hcmds).
      unfold only_material_commands. simpl. split_and!; try done.
      exists (cmds ++ [updateMaterial_cmd m id]). split.
      + by rewrite Hq, app_assoc.
      + apply Forall_app. split; [done|]. by constructor. }
  unfold updateNode.
  destruct (kind_of node); try apply preserves_ret;
    destruct (material_of node); try apply preserves_throw; apply Hbody.
Qed.

Lemma only_material_commands_updateMaterial object ui g :
  only_material_commands g (updateMaterial object ui g).2.
Proof.
  unfold updateMaterial.
  apply (preserves_for_each (only_material_commands g)).
  - intros node. apply only_material_commands_updateNode.
  - unfold only_material_commands. split_and!; try done.
    exists []. by rewrite app_nil_r.
Qed.

(** X16.  [updateMaterial] touches nothing but the queue and the texture
    cache: whatever the object and whether or not the call throws, the
    identity table, the free list, the counter, the objects' [meshId]s, the
    commands already posted, the transform buffer, the hooks' log, the
    textures' images (which [addObjectToScene] deletes, and this does not)
    and the world matrices are as before, and the queue has only gained
    [uploadTexture] and [updateMaterial] commands at its end. *)
Theorem updateMaterial_only_queues object ui g :
  only_material_commands g (exec (updateMaterial object ui) g).
Proof. apply only_material_commands_updateMaterial. Qed.

(** ** The renderer's tables follow the controller's *)

Lemma dom_foldl_receive parse l b :
  dom (backend_idToObject (foldl (receive parse) b l)) =
  foldl ids_after (dom (backend_idToObject b)) l.
Proof.
  revert b. induction l as [|c l IH]; intros b; [done|].
  cbn [foldl]. rewrite IH. f_equal.
  destruct c; simpl; try done.
  - by rewrite dom_insert_L.
  - by rewrite dom_insert_L.
  - by rewrite dom_delete_L.
Qed.

Lemma renderer_ids_emitted parse g g' :
  emitted g' = emitted g → renderer_ids parse g' = renderer_ids parse g.
Proof. unfold renderer_ids, renderer_after. by intros ->. Qed.

Lemma renderer_ids_queued parse g g' cmds :
  worker g' = worker g →
  commandQueue g' = commandQueue g ++ cmds →
  renderer_ids parse g' = foldl ids_after (renderer_ids parse g) cmds.
Proof.
  intros Hw Hq. unfold renderer_ids, renderer_after, emitted.
  rewrite Hw, Hq, app_assoc, foldl_app.
  by rewrite (dom_foldl_receive parse cmds).
Qed.

Lemma mirrored_but_frame parse s g g' :
  emitted g' = emitted g → idToObject g' = idToObject g →
  mirrored_but parse s g → mirrored_but parse s g'.
Proof.
  unfold mirrored_but. intros He Ht. by rewrite (renderer_ids_emitted _ _ _ He), Ht.
Qed.

Lemma mirrored_but_quiet parse s g cmd :
  (∀ s', ids_after s' cmd = s') →
  mirrored_but parse s g → mirrored_but parse s (submitCommand cmd false g).
Proof.
  unfold mirrored_but. intros Hcmd H.
  rewrite (renderer_ids_queued parse g _ [cmd]) by done.
  simpl. by rewrite Hcmd.
Qed.

Lemma mirrored_but_uploadTexture parse s t ui :
  preserves (mirrored_but parse s) (uploadTexture t ui).
Proof.
  intros g Hg. unfold uploadTexture.
  destruct (decide _); [done|]. destruct (image g !! tex_ref t) as [img|]; [|done].
  cbn [snd]. apply mirrored_but_quiet; [done|].
  by apply (mirrored_but_frame parse s g).
Qed.

Lemma assignIdToObject_dom x g :
  dom (idToObject (assignIdToObject x g).2) =
  {[ (assignIdToObject x g).1 ]} ∪ dom (idToObject g).
Proof.
  destruct (availableObjectIds g) as [|i rest] eqn:E.
  - rewrite assignIdToObject_fresh by done. simpl.
    destruct (maxEntityCount <? objectId g + 1); simpl; by rewrite dom_insert_L.
  - rewrite (assignIdToObject_recycled _ _ i rest) by done. simpl.
    by rewrite dom_insert_L.
Qed.

Lemma mirrored_addNode parse ui node g :
  (addNode ui node g).1 = Ok tt →
  mirrored_but parse ∅ g → mirrored_but parse ∅ (addNode ui node g).2.
Proof.
  intros Hok Hg.
  destruct (renderable (kind_of node)) eqn:Hk.
  2:{ by rewrite addNode_skip. }
  rewrite addNode_eq in * by done.
  destruct (assignIdToObject_frame (ref_of node) g) as (_ & Hq & Hw & _).
  pose proof (assignIdToObject_dom (ref_of node) g) as Hd.
  destruct (assignIdToObject (ref_of node) g) as [id g1]. cbn [fst snd] in *.
  assert (H1 : mirrored_but parse {[ id ]} g1).
  { unfold mirrored_but in *.
    rewrite (renderer_ids_emitted parse g g1) by (unfold emitted; by rewrite Hq, Hw).
    rewrite Hd, <- Hg. set_solver. }
  assert (Hm := preserves_materials (mirrored_but parse {[ id ]})
                  (mirrored_but_uploadTexture parse {[ id ]})
                  (fun g f => mirrored_but_frame parse {[ id ]} g (set_image f g)
                                eq_refl eq_refl)
                  (material_of node) ui g1 H1).
  destruct (match material_of node with
            | NoMaterial => mret tt
            | OneMaterial m => extractMaterialTextures m ui ;; deleteImages m
            | ManyMaterials ms =>
                for_each (fun m => extractMaterialTextures m ui ;; deleteImages m) ms
            end g1) as [[[]|e] g2]; cbn [fst snd] in *; [|done].
  unfold mirrored_but in *.
  rewrite (renderer_ids_queued parse g2 _ [addObject node id ui]) by done.
  simpl. rewrite <- Hm. set_solver.
Qed.

Lemma mirrored_addObjectToScene parse o ui g :
  (addObjectToScene o ui g).1 = Ok tt →
  mirrored_but parse ∅ g → mirrored_but parse ∅ (addObjectToScene o ui g).2.
Proof.
  unfold addObjectToScene. generalize (traverse o) as l.
  intros l. revert g. induction l as [|n l IH]; intros g Hok Hg; [done|].
  cbn [for_each] in *. unfold mbind, M_bind in *.
  pose proof (mirrored_addNode parse ui n g) as Hn.
  destruct (addNode ui n g) as [[[]|e] g1]; cbn [fst snd] in *; [|done].
  apply IH; [done|]. by apply Hn.
Qed.

Lemma mirrored_removeObjectFromScene parse o g :
  mirrored_but parse ∅ g → mirrored_but parse ∅ (removeObjectFromScene o g).
Proof.
  unfold mirrored_but. intros Hg. rewrite removeObjectFromScene_eq.
  rewrite (renderer_ids_queued parse g _ (removeObject <$> released_ids g o)) by done.
  cbn [idToObject set_availableObjectIds set_idToObject set_commandQueue].
  revert Hg. generalize (renderer_ids parse g) (idToObject g).
  induction (released_ids g o) as [|id ids IH]; intros s t Hs; [done|].
  cbn [fmap list_fmap foldl]. apply IH.
  rewrite dom_delete_L, <- Hs. set_solver.
Qed.

Lemma mirrored_createParticleEmitter parse x t img g :
  (createParticleEmitter x t img g).1 = Ok tt →
  mirrored_but parse ∅ g → mirrored_but parse ∅ (createParticleEmitter x t img g).2.
Proof.
  unfold createParticleEmitter. unfold mbind, M_bind, lift, gets.
  set (o := Node x Points _ []).
  set (g1 := set_image _ (call log _ g)).
  intros Hok Hg.
  assert (H1 : mirrored_but parse ∅ g1) by by apply (mirrored_but_frame parse ∅ g).
  pose proof (mirrored_addObjectToScene parse o false g1) as Ha.
  destruct (addObjectToScene o false g1) as [[[]|e] g2]; cbn [fst snd] in *; [|done].
  apply mirrored_but_quiet; [done|]. by apply Ha.
Qed.

Lemma mirrored_perform parse e g :
  registers_cleanly g e →
  mirrored_but parse ∅ g → mirrored_but parse ∅ (perform g e).
Proof.
  intros He Hg.
  destruct e as [c w h r|w h r| | |o ui|o|o ui|x t img|m|im wd]; cbn [perform].
  - done.
  - by apply mirrored_but_quiet.
  - destruct (update_fields g) as (Ht & _ & Hq & Hw & _).
    apply (mirrored_but_frame parse ∅ g); [|done|done].
    unfold emitted. by rewrite Hq, Hw, app_nil_r.
  - rewrite flushCommands_eq. apply (mirrored_but_frame parse ∅ g); [|done|done].
    unfold emitted. simpl. by rewrite app_nil_r.
  - unfold exec. destruct (only_material_commands_updateMaterial o ui g)
      as (Hv & Hw & _ & _ & _ & _ & _ & cmds & Hq & Hcmds).
    unfold mirrored_but in *.
    rewrite (renderer_ids_queued parse g _ cmds) by done.
    injection Hv as -> _ _ _. rewrite <- Hg.
    f_equal. clear Hq. generalize (renderer_ids parse g).
    induction Hcmds as [|c cmds Hc _ IH]; intros s; [done|].
    simpl. rewrite IH. by destruct c.
  - by apply mirrored_removeObjectFromScene.
  - by apply mirrored_addObjectToScene.
  - by apply mirrored_createParticleEmitter.
  - apply (mirrored_but_frame parse ∅ g); [|  |done];
      unfold onmessage; by repeat destruct (decide _).
  - by apply (mirrored_but_frame parse ∅ g).
Qed.

Lemma mirrored_history parse events g :
  clean_history g events →
  mirrored_but parse ∅ g → mirrored_but parse ∅ (foldl perform g events).
Proof.
  revert g. induction events as [|e events IH]; intros g Hc Hg; [done|].
  destruct Hc as [He Hc]. cbn [foldl]. apply IH; [done|]. by apply mirrored_perform.
Qed.

(** X17.  The renderer's identity table follows the controller's.  After
    [init] on a new instance, over any history in which [init] is not
    called again and no registration throws, the renderer that has received
    every command submitted so far (in the order the worker gets them) has
    an object at exactly the identities the controller's table holds:
    identity 0 for the camera, each registered node's identity from its
    [addObject] command until its [removeObject] command.  Registering a
    node twice, removing an object twice or sharing a recycled identity do
    not break the agreement. *)
Theorem renderer_table_mirrors_controller parse cam world images canvas w h r events :
  let g0 := Graphics_init canvas w h r (new_Graphics cam world images) in
  clean_history g0 events →
  dom (backend_idToObject (renderer_after parse (foldl perform g0 events))) =
  dom (idToObject (foldl perform g0 events)).
Proof.
  intros g0 Hc.
  assert (H0 : mirrored_but parse ∅ g0).
  { unfold g0. rewrite Graphics_init_new. unfold mirrored_but, renderer_ids.
    unfold renderer_after, emitted. simpl. rewrite !dom_insert_L. set_solver. }
  pose proof (mirrored_history parse events g0 Hc H0) as H.
  unfold mirrored_but, renderer_ids in H. rewrite <- H. set_solver.
Qed.

Lemma renderer_table_mirrors_controller_witness :
  let parse := fun _ : Object3D => {| matrix := identity |} in
  let events := [AddObjectToScene brick_wall false;
                 AddObjectToScene (makeCapsule 11 12 13) false; Update;
                 RemoveObjectFromScene brick_wall; RemoveObjectFromScene brick_wall;
                 AddObjectToScene (mesh 7) false; FlushCommands] in
  let g0 := Graphics_init "main-canvas" 800 600 one
              (new_Graphics 100 ∅ {[ 1 := brick_image ]}) in
  clean_history g0 events ∧
  dom (backend_idToObject (renderer_after parse (foldl perform g0 events))) =
  dom (idToObject (foldl perform g0 events)).
Proof.
  intros parse events g0.
  assert (Hc : clean_history g0 events) by (vm_compute; repeat split).
  split; [exact Hc|].
  exact (renderer_table_mirrors_controller parse 100 ∅ {[ 1 := brick_image ]}
           "main-canvas" 800 600 one events Hc).
Defined.

Lemma textures_foldl_receive parse T l b :
  T ∈ dom (backend_textureCache (foldl (receive parse) b l)) ↔
  T ∈ dom (backend_textureCache b) ∨ ∃ c, c ∈ l ∧ carries T c = true.
Proof.
  revert b. induction l as [|c l IH]; intros b.
  - simpl. split; [by left|]. intros [?|(c & Hc & _)]; [done|]. by apply elem_of_nil in Hc.
  - cbn [foldl]. rewrite IH. split.
    + intros [H|(c' & Hc' & Hcar)].
      * destruct c; simpl in H; try by left.
        apply elem_of_dom in H. apply lookup_insert_is_Some in H as [<-|[_ H]].
        -- right. eexists. split; [by left|]. simpl. by apply bool_decide_eq_true.
        -- left. by apply elem_of_dom.
      * right. exists c'. split; [by right|done].
    + intros [H|(c' & Hc' & Hcar)].
      * left. destruct c; simpl; try done.
        apply elem_of_dom. apply lookup_insert_is_Some.
        destruct (decide (imageId = T)); [by left|right]. split; [done|].
        by apply elem_of_dom.
      * apply elem_of_cons in Hc' as [->|Hc'].
        -- left. destruct c; simpl in Hcar; try done.
           apply bool_decide_eq_true in Hcar as ->. simpl.
           apply elem_of_dom. rewrite lookup_insert_eq. done.
        -- right. by exists c'.
Qed.

(** X18.  The renderer's texture cache follows the controller's: at every
    moment of every history of the public interface on a new instance,
    calls that throw included, the renderer that has received every command
    submitted so far holds a texture under exactly the identifiers of the
    controller's cache. *)
Theorem renderer_textures_mirror_cache parse cam world images events :
  dom (backend_textureCache
         (renderer_after parse (foldl perform (new_Graphics cam world images) events))) =
  textureCache (foldl perform (new_Graphics cam world images) events).
Proof.
  pose proof (uploaded_once_history cam world images events) as Hu.
  set (g := foldl perform (new_Graphics cam world images) events) in *.
  apply set_eq. intros T. unfold renderer_after.
  rewrite textures_foldl_receive. specialize (Hu T). unfold uploads in Hu.
  split.
  - intros [H|(c & Hc & Hcar)]; [by apply elem_of_dom in H as [? ?]|].
    destruct (decide (T ∈ textureCache g)); [done|].
    assert (Hin : c ∈ filter (fun cmd => carries T cmd = true) (emitted g))
      by by apply list_elem_of_filter.
    destruct (filter _ (emitted g)); [by apply elem_of_nil in Hin|done].
  - intros HT. right. rewrite decide_True in Hu by done.
    destruct (filter (fun cmd => carries T cmd = true) (emitted g)) as [|c l] eqn:E; [done|].
    assert (Hin : c ∈ filter (fun cmd => carries T cmd = true) (emitted g))
      by (rewrite E; by left).
    apply list_elem_of_filter in Hin as [? ?]. by exists c.
Qed.

Lemma init_first_gives_camera_zero_witness :
  let g := Graphics_init "main-canvas" 800 600 one (new_Graphics 100 ∅ ∅) in
  renderable Mesh = true ∧
  meshId (exec (addObjectToScene (mesh 1) false) g) !! 1 = Some 1 ∧
  availableObjectIds example_scene = [] ∧
  meshId (Graphics_init "main-canvas" 800 600 one example_scene) !! camera example_scene
  = Some (objectId example_scene).
Proof.
  intros g.
  pose proof (init_first_gives_camera_zero 100 ∅ ∅ "main-canvas" 800 600 one) as [H1 H2].
  destruct H1 as (_ & _ & _ & _ & _ & H6 & _).
  assert (Hk : renderable Mesh = true) by reflexivity.
  assert (Hf : availableObjectIds example_scene = []) by (vm_compute; reflexivity).
  split; [exact Hk|]. split; [exact (H6 1 Mesh (OneMaterial plain) false Hk)|].
  split; [exact Hf|]. exact (H2 example_scene Hf).
Defined.

(** ** The particle emitter *)

Lemma uploadTexture_cached t ui g :
  uuid t ∈ textureCache g → uploadTexture t ui g = (Ok tt, g).
Proof. intros H. unfold uploadTexture. by rewrite decide_True. Qed.

Lemma uploadTexture_fresh t ui g img :
  uuid t ∉ textureCache g → image g !! tex_ref t = Some img →
  uploadTexture t ui g =
  (Ok tt, submitCommand (uploadTexture_cmd (uuid t) (data img) (width img) (height img) ui)
            false (set_textureCache (fun c => c ∪ {[ uuid t ]}) g)).
Proof. intros H Hi. unfold uploadTexture. by rewrite decide_False, Hi. Qed.

(** X19.  Once its texture has loaded, [createParticleEmitter] does not
    throw, and it queues at most three commands: the upload of its texture
    if the cache does not have it yet (once, although the texture is both
    the [map] and the [alphaMap] of the emitter's material), the [addObject]
    of the emitter, and a [createParticleSystem] that names the identity the
    emitter has just been given.  The texture's image is deleted
    afterwards. *)
Theorem createParticleEmitter_commands x t img g :
  let material := {| mat_map := Some t; mat_alphaMap := Some t; mat_otherMaps := [] |} in
  let id := (assignIdToObject x g).1 in
  let g' := exec (createParticleEmitter x t img) g in
  (createParticleEmitter x t img g).1 = Ok tt ∧
  commandQueue g' =
    commandQueue g
    ++ (if decide (uuid t ∈ textureCache g) then []
        else [uploadTexture_cmd (uuid t) (data img) (width img) (height img) false])
    ++ [addObject (Node x Points (OneMaterial material) []) id false;
        createParticleSystem (Some id)] ∧
  textureCache g' = textureCache g ∪ {[ uuid t ]} ∧
  idToObject g' !! id = Some x ∧
  image g' !! tex_ref t = None.
Proof.
  cbv zeta. unfold exec.
  destruct (createParticleEmitter x t img g) as [res g'] eqn:E. cbn [fst snd].
  unfold createParticleEmitter in E.
  unfold mbind at 1 2 3, M_bind at 1 2 3, lift at 1 2 in E.
  set (g1 := set_image _ (call log _ g)) in E.
  unfold addObjectToScene in E. cbn [traverse flat_map for_each] in E.
  unfold mbind at 1, M_bind at 1 in E. unfold mret at 1, M_ret at 1 in E.
  rewrite addNode_eq in E by done.
  cbn [material_of ref_of] in E.
  assert (Hid : (assignIdToObject x g1).1 = (assignIdToObject x g).1)
    by by rewrite !assignIdToObject_result.
  destruct (assignIdToObject_frame x g1) as (_ & Hq & _ & Hc).
  destruct (assignIdToObject_other_fields x g1) as (Hi & _ & _).
  destruct (assignIdToObject_entered x g1) as [Ht Hm].
  rewrite Hid in *. clear Hid.
  set (id := (assignIdToObject x g).1) in *.
  set (g2 := (assignIdToObject x g1).2) in *.
  assert (Hi2 : image g2 !! tex_ref t = Some img)
    by (rewrite Hi; unfold g1; simpl; by rewrite lookup_insert_eq).
  change (commandQueue g1) with (commandQueue g) in Hq.
  change (textureCache g1) with (textureCache g) in Hc.
  clearbody g2. clear Hi.
  unfold extractMaterialTextures, deleteImages, delete_image in E.
  cbn [mat_map mat_alphaMap mat_otherMaps when_set for_each] in E.
  unfold mbind, M_bind, lift, gets, mret, M_ret in E.
  destruct (decide (uuid t ∈ textureCache g)) as [Hin|Hin].
  - rewrite !(uploadTexture_cached t false g2) in E by (by rewrite Hc).
    injection E as <- <-.
    simpl. rewrite Hq, Hc, Ht, Hm. rewrite !lookup_delete_eq.
    split_and!; [done|by rewrite <- app_assoc|set_solver|done|done].
  - rewrite (uploadTexture_fresh t false g2 img) in E by (by rewrite ?Hc).
    rewrite uploadTexture_cached in E by (simpl; set_solver).
    injection E as <- <-.
    simpl. rewrite Hq, Hc, Ht, Hm. rewrite !lookup_delete_eq.
    split_and!; [done|by rewrite <- !app_assoc|done|done|done].
Qed.
